(** * Monte-Carlo tree search scene generator ([code/scriptwriter.py])

    A shallow embedding of [MCTSNode], [MCTSGenerator] and of the driver
    [ScriptwriterAgent.gen_new_scene_script], with the properties of the
    search engine stated and proved over it.

    Python objects live in a store: the tree is an arena [list MCTSNode]
    and a node reference is its index; the root of a run sits at index 0.
    The coroutines are run to completion, one after the other, so [await]
    is sequencing.  Effects (the tree, the result cache of the generator,
    the random source, the language model behind the agent, and the log
    of what was called) are threaded through a state-and-exception monad
    whose third outcome, [OutOfFuel], stands for a loop that has not
    finished within the fuel it was given. *)

From Stdlib Require Import ZArith Reals Lra.
From stdpp Require Import base list gmap strings.

Set Default Proof Using "Type".

Local Open Scope Z_scope.
Local Open Scope nat_scope.

(** ** Numbers

    [visits] and the loop counters are Python [int]s that only count up
    from 0: [nat].  [score] is an [int] sum of what the evaluator
    returned: [Z].  [uct] is a Python [float]; the operations the source
    applies to floats are the interface [PyFloat].  [fsqrt] is taken
    total: its argument here, [2 * log(n) / v] with [n >= 1], is never
    negative. *)

Class PyFloat (F : Type) := {
  of_int : Z → F;               (* int → float conversion of an operand *)
  of_lit : Z → nat → F;         (* decimal literal: [of_lit 141 2] is 1.41 *)
  fadd : F → F → F;
  fmul : F → F → F;
  fdiv : F → F → F;
  fsqrt : F → F;                (* math.sqrt *)
  flog : F → F;                 (* math.log *)
  fgt : F → F → bool            (* a > b *)
}.

(** The same formulas over the real numbers. *)
#[export] Instance RealFloat : PyFloat R := {|
  of_int := IZR;
  of_lit := λ m d, (IZR m / IZR (10 ^ Z.of_nat d))%R;
  fadd := Rplus;
  fmul := Rmult;
  fdiv := Rdiv;
  fsqrt := sqrt;
  flog := ln;
  fgt := λ a b, if Rlt_dec b a then true else false
|}.

(** A computable stand-in on integers (floor division, integer square
    root, base-2 logarithm), used to run the engine on examples. *)
#[export] Instance IntFloat : PyFloat Z := {|
  of_int := λ z, z;
  of_lit := λ m d, (m / 10 ^ Z.of_nat d)%Z;
  fadd := Z.add;
  fmul := Z.mul;
  fdiv := Z.div;
  fsqrt := Z.sqrt;
  flog := Z.log2;
  fgt := Z.gtb
|}.

(** ** Exceptions and outcomes *)

Inductive exn :=
  | LLMError (msg : string)   (* raised inside the agent's model calls *)
  | ZeroDivisionError
  | ValueError                (* math domain error *)
  | IndexError
  | AttributeError.

Inductive Outcome (A : Type) :=
  | Ret (a : A)
  | Raise (e : exn)
  | OutOfFuel.
Arguments Ret {A} a.
Arguments Raise {A} e.
Arguments OutOfFuel {A}.

Section Engine.

Context {F : Type} {FO : PyFloat F}.

(** A scene is the document the language model returns; the engine only
    tests its truth value and renders it with [str]. *)
Context {Scene : Type}.
Variable scene_truthy : Scene → bool.
Variable scene_str : Scene → string.

(** A node state: [None] or a scene. *)
Definition pystate := option Scene.

Definition truthy (st : pystate) : bool :=
  match st with None => false | Some s => scene_truthy s end.

Definition py_str (st : pystate) : string :=
  match st with None => "None"%string | Some s => scene_str s end.

(** ** [class MCTSNode] *)

Record MCTSNode := mkNode {
  state : pystate;
  parent : option nat;
  children : list nat;
  visits : nat;
  score : Z;
  uct : F
}.

(** [MCTSNode.__init__] *)
Definition MCTSNode_init (st : pystate) (par : option nat) : MCTSNode :=
  mkNode st par [] 0 0%Z (of_int 0%Z).

#[export] Instance MCTSNode_inhabited : Inhabited MCTSNode :=
  populate (MCTSNode_init None None).

Definition add_child (c : nat) (nd : MCTSNode) : MCTSNode :=
  mkNode (state nd) (parent nd) (children nd ++ [c]) (visits nd) (score nd) (uct nd).

Definition set_stats (v : nat) (s : Z) (nd : MCTSNode) : MCTSNode :=
  mkNode (state nd) (parent nd) (children nd) v s (uct nd).

Definition set_uct (u : F) (nd : MCTSNode) : MCTSNode :=
  mkNode (state nd) (parent nd) (children nd) (visits nd) (score nd) u.

(** [MCTSNode.expand]: one [MCTSNode(state, self)] per state, allocated
    at the end of the arena and appended to [self.children]. *)
Definition expand (self : nat) (possible_states : list pystate)
    (t : list MCTSNode) : list MCTSNode :=
  foldl (λ t st, alter (add_child (length t)) self
                   (t ++ [MCTSNode_init st (Some self)]))
        t possible_states.

(** The value [update] stores in [self.uct]:
    [(score / visits) + math.sqrt(2 * math.log(parent.visits) / visits)]. *)
Definition uct_value (sc : Z) (v pv : nat) : F :=
  fadd (fdiv (of_int sc) (of_int (Z.of_nat v)))
       (fsqrt (fdiv (fmul (of_int 2%Z) (flog (of_int (Z.of_nat pv))))
                    (of_int (Z.of_nat v)))).

(** [MCTSNode.select_best_child]; [max] keeps the first of the largest
    keys.  The [exploration_weight] argument is accepted and not used. *)
Definition py_max {A} (key : A → F) (first : A) (rest : list A) : A :=
  foldl (λ best x, if fgt (key x) (key best) then x else best) first rest.

Definition select_best_child (self : nat) (exploration_weight : F)
    (t : list MCTSNode) : option nat :=
  match children (t !!! self) with
  | [] => None
  | c :: cs => Some (py_max (λ c, uct (t !!! c)) c cs)
  end.

(** ** The store, the log and the monad *)

(** What the agent's model calls return: the message of the exception
    they raised, or a value. *)
Definition reply (A : Type) : Type := string + A.

(** The log: every call of [agent._generate_scene] and of
    [agent._evaluate_scene] with how it ended, and every finished
    backpropagation loop with the nodes [update] was called on, in call
    order. *)
Inductive Event :=
  | EvGenerate (r : reply pystate)
  | EvEvaluate (st : pystate) (r : reply Z)
  | EvBackprop (walk : list nat) (sc : Z).

(** The random source behind [random.choice] and the language model
    behind the agent are outside the repository: their states and their
    transitions are parameters. *)
Context {Rng : Type}.
Variable randbelow : nat → Rng → nat * Rng.
Context {LLM : Type}.
Variable infer_scene : LLM → reply pystate * LLM.
Variable infer_eval : pystate → LLM → reply (option Z) * LLM.

Record World := mkWorld {
  nodes : list MCTSNode;          (* the tree of the current run *)
  cache : gmap string Z;          (* MCTSGenerator.cache *)
  rng : Rng;
  llm : LLM;
  trace : list Event
}.

Definition M (A : Type) : Type := World → Outcome A * World.

#[export] Instance M_ret : MRet M := λ A a w, (Ret a, w).
#[export] Instance M_bind : MBind M := λ A B f m w,
  match m w with
  | (Ret a, w') => f a w'
  | (Raise e, w') => (Raise e, w')
  | (OutOfFuel, w') => (OutOfFuel, w')
  end.

Definition raise {A} (e : exn) : M A := λ w, (Raise e, w).
Definition out_of_fuel {A} : M A := λ w, (OutOfFuel, w).

Definition get_nodes : M (list MCTSNode) := λ w, (Ret (nodes w), w).
Definition modify_nodes (f : list MCTSNode → list MCTSNode) : M unit :=
  λ w, (Ret (), mkWorld (f (nodes w)) (cache w) (rng w) (llm w) (trace w)).
Definition get_cache : M (gmap string Z) := λ w, (Ret (cache w), w).
Definition modify_cache (f : gmap string Z → gmap string Z) : M unit :=
  λ w, (Ret (), mkWorld (nodes w) (f (cache w)) (rng w) (llm w) (trace w)).
Definition log_event (ev : Event) : M unit :=
  λ w, (Ret (), mkWorld (nodes w) (cache w) (rng w) (llm w) (trace w ++ [ev])).

(** [random.choice(seq)]: [IndexError] on an empty sequence, otherwise
    [seq[randbelow(len(seq))]]. *)
Definition random_choice {A} (seq : list A) : M A := λ w,
  match seq with
  | [] => (Raise IndexError, w)
  | _ =>
      let '(k, g) := randbelow (length seq) (rng w) in
      let w' := mkWorld (nodes w) (cache w) g (llm w) (trace w) in
      match seq !! k with
      | Some x => (Ret x, w')
      | None => (Raise IndexError, w')
      end
  end.

(** ** The agent's model calls *)

(** [ScriptwriterAgent._generate_scene]: the reply of the model is
    returned as it is (the [try] around [return response] catches
    nothing). *)
Definition _generate_scene : M pystate := λ w,
  let '(r, l) := infer_scene (llm w) in
  let w' := mkWorld (nodes w) (cache w) (rng w) l (trace w ++ [EvGenerate r]) in
  match r with
  | inl msg => (Raise (LLMError msg), w')
  | inr st => (Ret st, w')
  end.

(** [ScriptwriterAgent._evaluate_scene]: [response.get("score", 0)]. *)
Definition _evaluate_scene (new_scene : pystate) : M Z := λ w,
  let '(r, l) := infer_eval new_scene (llm w) in
  let w' ev := mkWorld (nodes w) (cache w) (rng w) l (trace w ++ [ev]) in
  match r with
  | inl msg => (Raise (LLMError msg), w' (EvEvaluate new_scene (inl msg)))
  | inr response =>
      let sc := default 0%Z response in
      (Ret sc, w' (EvEvaluate new_scene (inr sc)))
  end.

(** ** [MCTSNode.update] *)

Definition update (self : nat) (sc : Z) : M unit :=
  (* self.visits += 1 ; self.score += score *)
  modify_nodes (alter (λ nd, set_stats (S (visits nd)) (score nd + sc) nd) self);;
  t ← get_nodes;
  let nd := t !!! self in
  match parent nd with
  | None => mret ()
  | Some p =>
      if visits nd =? 0 then raise ZeroDivisionError
      else if visits (t !!! p) =? 0 then raise ValueError
      else modify_nodes
             (alter (set_uct (uct_value (score nd) (visits nd) (visits (t !!! p)))) self)
  end.

(** ** [class MCTSGenerator] *)

Record Config := mkConfig {
  max_iterations : nat;
  exploration_weight : F;
  max_depth : nat
}.

(** The values [MCTSGenerator.__init__] sets. *)
Definition default_config : Config := mkConfig 5 (of_lit 141 2) 3.

(** [MCTSGenerator._select] *)
Fixpoint _select (fuel : nat) (cfg : Config) (node : nat) : M nat :=
  t ← get_nodes;
  match children (t !!! node) with
  | [] => mret node
  | cs =>
      match fuel with
      | 0 => out_of_fuel
      | S fuel' =>
          if negb (forallb (λ c, 0 <? visits (t !!! c)) cs) then
            random_choice (filter (λ c, visits (t !!! c) = 0) cs)
          else
            match select_best_child node (exploration_weight cfg) t with
            | Some best => _select fuel' cfg best
            | None => raise AttributeError
            end
      end
  end.

(** [for _ in range(n): states.append(await self.agent._generate_scene(..))] *)
Fixpoint collect_states (n : nat) (states : list pystate) : M (list pystate) :=
  match n with
  | 0 => mret states
  | S n' => st ← _generate_scene; collect_states n' (states ++ [st])
  end.

(** [MCTSGenerator._get_possible_states] *)
Definition _get_possible_states (current_state : pystate) : M (list pystate) :=
  collect_states 2 [].

(** [MCTSGenerator._simulate] *)
Definition _simulate (st : pystate) : M Z :=
  if negb (truthy st) then mret 0%Z else _evaluate_scene st.

(** The depth loop of [generate_scene]:
    [while current.parent: depth += 1; current = current.parent]. *)
Fixpoint depth_loop (fuel : nat) (depth current : nat) (t : list MCTSNode)
    : Outcome nat :=
  match parent (t !!! current) with
  | None => Ret depth
  | Some p =>
      match fuel with
      | 0 => OutOfFuel
      | S fuel' => depth_loop fuel' (S depth) p t
      end
  end.

Definition node_depth (node : nat) : M nat :=
  λ w, (depth_loop (length (nodes w)) 0 node (nodes w), w).

(** The expansion phase; returns the node to simulate and the updated
    [model_calls]. *)
Definition expansion_phase (node model_calls : nat) : M (nat * nat) :=
  t ← get_nodes;
  if 0 <? visits (t !!! node) then
    possible_states ← _get_possible_states (state (t !!! node));
    modify_nodes (expand node possible_states);;
    t ← get_nodes;
    match children (t !!! node) with
    | [] => mret (node, model_calls + length possible_states)
    | cs => c ← random_choice cs;
            mret (c, model_calls + length possible_states)
    end
  else mret (node, model_calls).

(** The simulation phase; returns the score and the updated
    [model_calls]. *)
Definition simulation_phase (node model_calls : nat) : M (Z * nat) :=
  t ← get_nodes;
  c ← get_cache;
  let cache_key := py_str (state (t !!! node)) in
  match c !! cache_key with
  | Some sc => mret (sc, model_calls)
  | None =>
      sc ← _simulate (state (t !!! node));
      modify_cache (insert cache_key sc);;
      mret (sc, S model_calls)
  end.

(** The backpropagation loop:
    [while node: node.update(score); node = node.parent].
    It returns the nodes it updated, in order. *)
Fixpoint backpropagate (fuel : nat) (node : option nat) (sc : Z) : M (list nat) :=
  match node with
  | None => mret []
  | Some n =>
      match fuel with
      | 0 => out_of_fuel
      | S fuel' =>
          update n sc;;
          t ← get_nodes;
          walk ← backpropagate fuel' (parent (t !!! n)) sc;
          mret (n :: walk)
      end
  end.

(** The backpropagation phase, with its entry in the log. *)
Definition backpropagation_phase (node : nat) (sc : Z) : M unit :=
  t ← get_nodes;
  walk ← backpropagate (length t) (Some node) sc;
  log_event (EvBackprop walk sc).

(** One pass through the body of the [while] loop of [generate_scene].
    [None]: the pass left through [continue]; [Some model_calls]: it
    reached [iteration_count += 1].  The [print] is left out. *)
Definition iteration (cfg : Config) (root model_calls : nat) : M (option nat) :=
  t ← get_nodes;
  node ← _select (length t) cfg root;
  depth ← node_depth node;
  if max_depth cfg <=? depth then mret None
  else
    '(node, model_calls) ← expansion_phase node model_calls;
    '(sc, model_calls) ← simulation_phase node model_calls;
    backpropagation_phase node sc;;
    mret (Some model_calls).

(** The [while iteration_count < self.max_iterations] loop. *)
Fixpoint search_loop (fuel : nat) (cfg : Config)
    (root iteration_count model_calls : nat) : M nat :=
  if iteration_count <? max_iterations cfg then
    match fuel with
    | 0 => out_of_fuel
    | S fuel' =>
        r ← iteration cfg root model_calls;
        match r with
        | None => search_loop fuel' cfg root iteration_count model_calls
        | Some model_calls =>
            search_loop fuel' cfg root (S iteration_count) model_calls
        end
    end
  else mret iteration_count.

(** [MCTSGenerator.generate_scene]; the tree of the run starts as the
    root alone, [MCTSNode(None)], at index 0. *)
Definition generate_scene (fuel : nat) (cfg : Config) : M pystate :=
  modify_nodes (λ _, [MCTSNode_init None None]);;
  search_loop fuel cfg 0 0 0;;
  t ← get_nodes;
  match select_best_child 0 (of_lit 141 2) t with
  | Some best_node => mret (state (t !!! best_node))
  | None => mret None
  end.

(** [ScriptwriterAgent.gen_new_scene_script] *)
Definition gen_new_scene_script (fuel : nat) (cfg : Config) : M pystate :=
  new_scene ← generate_scene fuel cfg;
  if truthy new_scene then mret new_scene else _generate_scene.

Arguments expand : simpl never.
Arguments _select : simpl never.
Arguments backpropagate : simpl never.
Arguments search_loop : simpl never.
Arguments depth_loop : simpl never.
Arguments collect_states : simpl never.

(** ** Vocabulary of the statements *)

(** The world with the tree replaced; a run starts from [fresh_tree]. *)
Definition with_nodes (t : list MCTSNode) (w : World) : World :=
  mkWorld t (cache w) (rng w) (llm w) (trace w).

Definition fresh_tree : list MCTSNode := [MCTSNode_init None None].

(** The shape every tree of a run has: the root is node 0, a parent
    precedes its children in the arena and has been visited, and child
    references point into the arena, at nodes whose parent is the
    node. *)
Definition tree_wf (t : list MCTSNode) : Prop :=
  (∃ r, t !! 0 = Some r ∧ parent r = None) ∧
  ∀ i nd, t !! i = Some nd →
    (∀ p, parent nd = Some p → p < i ∧ 1 ≤ visits (t !!! p)) ∧
    (parent nd = None → i = 0) ∧
    (∀ c, c ∈ children nd → i < c < length t ∧ parent (t !!! c) = Some i).

(** [walk] follows parent links from its first node up to a node
    without parent. *)
Fixpoint is_walk (t : list MCTSNode) (walk : list nat) : Prop :=
  match walk with
  | [] => False
  | n :: rest =>
      n < length t ∧
      match rest with
      | [] => parent (t !!! n) = None
      | m :: _ => parent (t !!! n) = Some m ∧ is_walk t rest
      end
  end.

(** How many finished backpropagation passes of a log went through [n],
    and how many passes it holds. *)
Fixpoint passes_through (n : nat) (evs : list Event) : nat :=
  match evs with
  | [] => 0
  | EvBackprop walk _ :: evs' =>
      (if bool_decide (n ∈ walk) then 1 else 0) + passes_through n evs'
  | _ :: evs' => passes_through n evs'
  end.

Fixpoint passes (evs : list Event) : nat :=
  match evs with
  | [] => 0
  | EvBackprop _ _ :: evs' => S (passes evs')
  | _ :: evs' => passes evs'
  end.

(** The cache keys of the evaluator calls of a log, and the replies of
    the generation calls. *)
Fixpoint evaluate_keys (evs : list Event) : list string :=
  match evs with
  | [] => []
  | EvEvaluate st _ :: evs' => py_str st :: evaluate_keys evs'
  | _ :: evs' => evaluate_keys evs'
  end.

(** A model call of the log that raised. *)
Definition failed_call (ev : Event) : option string :=
  match ev with
  | EvGenerate (inl msg) => Some msg
  | EvEvaluate _ (inl msg) => Some msg
  | _ => None
  end.

(** In a cache the engine has filled, the key of [None] is bound to 0
    if it is bound. *)
Definition none_key_ok (c : gmap string Z) : Prop :=
  ∀ v, c !! "None"%string = Some v → v = 0%Z.

(** The states of a run: [reaches cfg w w'] when passes through the loop
    body lead from [w] to [w']; only a pass that ended normally is
    followed by another one. *)
Inductive reaches (cfg : Config) : World → World → Prop :=
  | reaches_here w : reaches cfg w w
  | reaches_next w mc r w1 w2 :
      iteration cfg 0 mc w = (Ret r, w1) → reaches cfg w1 w2 →
      reaches cfg w w2
  | reaches_stop w mc out w1 :
      iteration cfg 0 mc w = (out, w1) → reaches cfg w w1.

(** [>] on keys orders them: irreflexive, transitive, and any key is
    comparable with the two ends of a strict inequality. *)
Definition gt_orders : Prop :=
  (∀ a, fgt a a = false) ∧
  (∀ a b c, fgt a b = true → fgt b c = true → fgt a c = true) ∧
  (∀ a b c, fgt a c = true → fgt a b = true ∨ fgt b c = true).

(** The model answers as a function of the request alone, whatever its
    internal state. *)
Definition deterministic_llm : Prop :=
  (∀ l l', (infer_scene l).1 = (infer_scene l').1) ∧
  (∀ st l l', (infer_eval st l).1 = (infer_eval st l').1).

(** Two worlds that differ at most in the internal state of the model. *)
Definition same_but_llm (w1 w2 : World) : Prop :=
  nodes w1 = nodes w2 ∧ cache w1 = cache w2 ∧ rng w1 = rng w2 ∧
  trace w1 = trace w2.

(** A deterministic model with an internal state: states related by [R]
    cannot be told apart by calling the model.  From related states both
    operations give the same reply and lead to related states.  Equality
    is such a relation for every model; for a stub that serves a fixed
    cycle of proposals, being at the same point of the cycle is one; for
    a model that answers by the request alone, every relation is. *)
Definition llm_bisimulation (R : LLM → LLM → Prop) : Prop :=
  (∀ l1 l2, R l1 l2 →
     (infer_scene l1).1 = (infer_scene l2).1 ∧
     R (infer_scene l1).2 (infer_scene l2).2) ∧
  (∀ st l1 l2, R l1 l2 →
     (infer_eval st l1).1 = (infer_eval st l2).1 ∧
     R (infer_eval st l1).2 (infer_eval st l2).2).

(** Two worlds with the same tree, cache, random source and log, and
    states of the model related by [R]. *)
Definition same_up_to (R : LLM → LLM → Prop) (w1 w2 : World) : Prop :=
  nodes w1 = nodes w2 ∧ cache w1 = cache w2 ∧ rng w1 = rng w2 ∧
  trace w1 = trace w2 ∧ R (llm w1) (llm w2).

(** [t'] is [t] after [update] ran with score [sc] on each node of
    [walk]: the counters of those nodes moved, nothing else but [uct]
    did. *)
Definition bumped (t : list MCTSNode) (walk : list nat) (sc : Z)
    (t' : list MCTSNode) : Prop :=
  length t' = length t ∧
  ∀ i nd, t !! i = Some nd →
    ∃ nd', t' !! i = Some nd' ∧
      state nd' = state nd ∧ parent nd' = parent nd ∧ children nd' = children nd ∧
      visits nd' = (if bool_decide (i ∈ walk) then 1 else 0) + visits nd ∧
      score nd' = (score nd + (if bool_decide (i ∈ walk) then sc else 0))%Z.

(** The expansion phase on the selected [node]: nothing happens to a
    node that has not been visited; a visited one is a leaf and gets
    the two generated states as children, one of which is chosen. *)
Definition expansion_of (t : list MCTSNode) (node : nat)
    (t2 : list MCTSNode) (gens : list Event) (node' : nat) : Prop :=
  (visits (t !!! node) = 0 ∧ t2 = t ∧ gens = [] ∧ node' = node) ∨
  (0 < visits (t !!! node) ∧ children (t !!! node) = [] ∧
   ∃ s1 s2, t2 = expand node [s1; s2] t ∧
            gens = [EvGenerate (inr s1); EvGenerate (inr s2)] ∧
            (node' = length t ∨ node' = S (length t))).

(** The simulation phase on a state [st] when it ends normally: a cache
    hit, a miss on a falsy state, or a miss with one evaluator call. *)
Definition simulation_of (c : gmap string Z) (st : pystate) (sc : Z)
    (c' : gmap string Z) (evs : list Event) : Prop :=
  (c !! py_str st = Some sc ∧ c' = c ∧ evs = []) ∨
  (c !! py_str st = None ∧ truthy st = false ∧ sc = 0%Z ∧
   c' = <[py_str st := 0%Z]> c ∧ evs = []) ∨
  (c !! py_str st = None ∧ truthy st = true ∧
   c' = <[py_str st := sc]> c ∧ evs = [EvEvaluate st (inr sc)]).

(** The ways one pass through the loop body can go, in terms of the
    tree, the cache and the log. *)
Inductive pass (w : World) : Outcome (option nat) → World → Prop :=
  | pass_idle out w' :
      nodes w' = nodes w → cache w' = cache w → trace w' = trace w →
      out = Ret None ∨ out = Raise IndexError →
      pass w out w'
  | pass_generate_failed node msg oks w' :
      node < length (nodes w) → 0 < visits (nodes w !!! node) →
      nodes w' = nodes w → cache w' = cache w →
      trace w' = trace w ++ ((λ st, EvGenerate (inr st)) <$> oks)
                         ++ [EvGenerate (inl msg)] →
      pass w (Raise (LLMError msg)) w'
  | pass_choice_failed node s1 s2 w' :
      node < length (nodes w) → 0 < visits (nodes w !!! node) →
      children (nodes w !!! node) = [] →
      nodes w' = expand node [s1; s2] (nodes w) → cache w' = cache w →
      trace w' = trace w ++ [EvGenerate (inr s1); EvGenerate (inr s2)] →
      pass w (Raise IndexError) w'
  | pass_evaluate_failed node t2 gens node' msg w' :
      node < length (nodes w) → expansion_of (nodes w) node t2 gens node' →
      cache w !! py_str (state (t2 !!! node')) = None →
      truthy (state (t2 !!! node')) = true →
      nodes w' = t2 → cache w' = cache w →
      trace w' = trace w ++ gens ++ [EvEvaluate (state (t2 !!! node')) (inl msg)] →
      pass w (Raise (LLMError msg)) w'
  | pass_done node t2 gens node' sc evs rest mc' w' :
      node < length (nodes w) → expansion_of (nodes w) node t2 gens node' →
      simulation_of (cache w) (state (t2 !!! node')) sc (cache w') evs →
      is_walk t2 (node' :: rest) → Forall (λ m, m < node') rest →
      bumped t2 (node' :: rest) sc (nodes w') →
      trace w' = trace w ++ gens ++ evs ++ [EvBackprop (node' :: rest) sc] →
      pass w (Ret (Some mc')) w'.

(** An event that is not a finished backpropagation pass. *)
Definition quiet (ev : Event) : Prop :=
  match ev with EvBackprop _ _ => False | _ => True end.

(** The counters of the tree [t] agree with the passes of the log
    [evs], and every pass of the log is a walk of [t]. *)
Definition counted (evs : list Event) (t : list MCTSNode) : Prop :=
  (∀ n nd, t !! n = Some nd → visits nd = passes_through n evs) ∧
  (∀ walk sc, EvBackprop walk sc ∈ evs → is_walk t walk).

(** How the model calls logged by a run relate to its outcome: a call
    that raised is the last event and its exception is the outcome;
    the arithmetic of [update] and the inner loops never end a run. *)
Definition no_failure (evs : list Event) : Prop :=
  Forall (λ ev, failed_call ev = None) evs.

Definition failure_shape {A} (out : Outcome A) (new : list Event) : Prop :=
  match out with
  | Raise (LLMError msg) =>
      ∃ oks ev, new = oks ++ [ev] ∧ no_failure oks ∧ failed_call ev = Some msg
  | Raise IndexError | Ret _ | OutOfFuel => no_failure new
  | Raise _ => False
  end.

(** Once a node has children they stay as they are, and no node
    disappears. *)
Definition children_kept (t t' : list MCTSNode) : Prop :=
  ∀ n nd, t !! n = Some nd →
    ∃ nd', t' !! n = Some nd' ∧ (children nd ≠ [] → children nd' = children nd).

(** The evaluator calls of the log have pairwise different keys, all
    bound in the cache. *)
Definition keys_cached (evs : list Event) (c : gmap string Z) : Prop :=
  NoDup (evaluate_keys evs) ∧ ∀ k, k ∈ evaluate_keys evs → is_Some (c !! k).

(** Either the key of [None] is bound to 0, or it is unbound and the
    tree has not been touched yet. *)
Definition none_key_inv (w : World) : Prop :=
  cache w !! "None"%string = Some 0%Z ∨
  (cache w !! "None"%string = None ∧
   ∀ n nd, nodes w !! n = Some nd → state nd = None ∧ visits nd = 0).

(** Two runs of a computation from worlds that differ at most in the
    state of the model, these being related by [R], end alike. *)
Definition agree (R : LLM → LLM → Prop) {A} (m : M A) : Prop :=
  ∀ w1 w2, same_up_to R w1 w2 →
    (m w1).1 = (m w2).1 ∧ same_up_to R (m w1).2 (m w2).2.

(** The recovery the specification words for the driver: when the
    engine fails, one direct generation call is made and its outcome
    is the outcome of the driver. *)
Definition spec_driver_recovers : Prop :=
  ∀ fuel cfg w e w1,
    generate_scene fuel cfg w = (Raise e, w1) →
    gen_new_scene_script fuel cfg w = _generate_scene w1.

(** The simulation step as the specification words it: on a cache miss
    the evaluator is called once, a [None] state being the only
    exception. *)
Definition spec_miss_calls_evaluator : Prop :=
  ∀ node mc w,
    cache w !! py_str (state (nodes w !!! node)) = None →
    state (nodes w !!! node) ≠ None →
    ∃ r, trace (simulation_phase node mc w).2 =
           trace w ++ [EvEvaluate (state (nodes w !!! node)) r].

(** The selection value as the specification words it, with the
    exploration weight as a factor of the exploration term. *)
Definition spec_selection_value (ew : F) (sc : Z) (v pv : nat) : F :=
  fadd (fdiv (of_int sc) (of_int (Z.of_nat v)))
       (fmul ew (fsqrt (fdiv (fmul (of_int 2%Z) (flog (of_int (Z.of_nat pv))))
                             (of_int (Z.of_nat v))))).

(** The generation calls of a log, and the evaluator calls. *)
Fixpoint generate_calls (evs : list Event) : nat :=
  match evs with
  | [] => 0
  | EvGenerate _ :: evs' => S (generate_calls evs')
  | _ :: evs' => generate_calls evs'
  end.

Definition evaluate_calls (evs : list Event) : nat := length (evaluate_keys evs).

(** The sum of the scores of the finished passes of a log that went
    through [n]. *)
Fixpoint score_through (n : nat) (evs : list Event) : Z :=
  match evs with
  | [] => 0%Z
  | EvBackprop walk sc :: evs' =>
      ((if bool_decide (n ∈ walk) then sc else 0) + score_through n evs')%Z
  | _ :: evs' => score_through n evs'
  end.

(** A node is a leaf or has two children, allocated side by side. *)
Definition two_children (t : list MCTSNode) : Prop :=
  ∀ n nd, t !! n = Some nd → children nd = [] ∨ ∃ c, children nd = [c; S c].

(** The random source respects its bound. *)
Definition randbelow_in_range : Prop :=
  ∀ n g, 0 < n → (randbelow n g).1 < n.

(** Every node but the root carries a state that a generation call of
    the log returned. *)
Definition generated_states (evs : list Event) (t : list MCTSNode) : Prop :=
  ∀ n nd, t !! n = Some nd → n ≠ 0 → EvGenerate (inr (state nd)) ∈ evs.

(** The cache [c] against the cache [c0] the run started with and the
    log of the run: the old entries are there, what the evaluator
    returned is stored under the key of the state, a new entry is 0 or
    what an evaluator call of the run returned, and the evaluator was
    not called on a key that was bound at the start. *)
Definition cache_extends (c0 : gmap string Z) (evs : list Event)
    (c : gmap string Z) : Prop :=
  (∀ k v, c0 !! k = Some v → c !! k = Some v) ∧
  (∀ st v, EvEvaluate st (inr v) ∈ evs → c !! py_str st = Some v) ∧
  (∀ k v, c0 !! k = None → c !! k = Some v →
     v = 0%Z ∨ ∃ st, py_str st = k ∧ EvEvaluate st (inr v) ∈ evs) ∧
  (∀ st r, EvEvaluate st r ∈ evs → c0 !! py_str st = None).

(** An event that is not an evaluator call. *)
Definition no_evaluate (ev : Event) : Prop :=
  match ev with EvEvaluate _ _ => False | _ => True end.

(** The cumulative scores of the tree agree with the passes of the log. *)
Definition scored (evs : list Event) (t : list MCTSNode) : Prop :=
  ∀ n nd, t !! n = Some nd → score nd = score_through n evs.

(** The node [n] lies [d] parent links below a node without parent:
    the depth the loop at the head of [generate_scene] counts. *)
Inductive at_depth (t : list MCTSNode) : nat → nat → Prop :=
  | at_depth_top n : parent (t !!! n) = None → at_depth t n 0
  | at_depth_below n p d :
      parent (t !!! n) = Some p → at_depth t p d → at_depth t n (S d).

(** The children of the parent of [n] have all been visited. *)
Definition siblings_visited (t : list MCTSNode) (n : nat) : Prop :=
  ∀ p c, parent (t !!! n) = Some p → c ∈ children (t !!! p) →
    0 < visits (t !!! c).

(** What [k] finished passes allow: a node at depth [d] takes [2 * d]
    passes, and one that has been visited together with its siblings
    takes one more. *)
Definition depth_paced (k : nat) (t : list MCTSNode) : Prop :=
  (∀ n d, n < length t → at_depth t n d → 2 * d ≤ k) ∧
  (∀ n d, n < length t → at_depth t n d → 0 < visits (t !!! n) →
     siblings_visited t n → 2 * d + 1 ≤ k).

(** ** Running the monad *)

(** Propositional goals are closed without the parameters of the
    section in the context. *)
Ltac prop_solve :=
  try clear randbelow; try clear infer_scene; try clear infer_eval;
  try clear scene_truthy; try clear scene_str; tauto.

Lemma bind_run {A B} (m : M A) (f : A → M B) w :
  (m ≫= f) w =
  match m w with
  | (Ret a, w') => f a w'
  | (Raise e, w') => (Raise e, w')
  | (OutOfFuel, w') => (OutOfFuel, w')
  end.
Proof. reflexivity. Qed.

Lemma bind_inv {A B} (m : M A) (f : A → M B) w out w' :
  (m ≫= f) w = (out, w') →
  (∃ a w1, m w = (Ret a, w1) ∧ f a w1 = (out, w')) ∨
  (∃ e, m w = (Raise e, w') ∧ out = Raise e) ∨
  (m w = (OutOfFuel, w') ∧ out = OutOfFuel).
Proof.
  rewrite bind_run. destruct (m w) as [[a|e|] w1]; intros E.
  - left. eauto.
  - right. left. inversion E. eauto.
  - right. right. inversion E. eauto.
Qed.

Lemma select_unfold fuel cfg node w :
  _select fuel cfg node w =
  match children (nodes w !!! node) with
  | [] => (Ret node, w)
  | cs =>
      match fuel with
      | 0 => (OutOfFuel, w)
      | S fuel' =>
          if negb (forallb (λ c, 0 <? visits (nodes w !!! c)) cs) then
            random_choice (filter (λ c, visits (nodes w !!! c) = 0) cs) w
          else
            match select_best_child node (exploration_weight cfg) (nodes w) with
            | Some best => _select fuel' cfg best w
            | None => (Raise AttributeError, w)
            end
      end
  end.
Proof.
  destruct fuel; unfold _select; fold _select; rewrite bind_run; cbn [get_nodes];
    destruct (children (nodes w !!! node)) as [|c cs]; try reflexivity.
  destruct (negb _); [reflexivity|].
  destruct (select_best_child _ _ _); reflexivity.
Qed.

Lemma search_loop_unfold fuel cfg root ic mc w :
  search_loop fuel cfg root ic mc w =
  if ic <? max_iterations cfg then
    match fuel with
    | 0 => (OutOfFuel, w)
    | S fuel' =>
        match iteration cfg root mc w with
        | (Ret None, w1) => search_loop fuel' cfg root ic mc w1
        | (Ret (Some mc'), w1) => search_loop fuel' cfg root (S ic) mc' w1
        | (Raise e, w1) => (Raise e, w1)
        | (OutOfFuel, w1) => (OutOfFuel, w1)
        end
    end
  else (Ret ic, w).
Proof.
  destruct fuel; unfold search_loop; fold search_loop;
    destruct (ic <? max_iterations cfg); try reflexivity.
  rewrite bind_run. destruct (iteration cfg root mc w) as [[[?|]|?|] ?]; reflexivity.
Qed.

Lemma iteration_unfold cfg root mc w :
  iteration cfg root mc w =
  match _select (length (nodes w)) cfg root w with
  | (Ret node, w1) =>
      match depth_loop (length (nodes w1)) 0 node (nodes w1) with
      | Ret depth =>
          if max_depth cfg <=? depth then (Ret None, w1)
          else
            ('(node, mc) ← expansion_phase node mc;
             '(sc, mc) ← simulation_phase node mc;
             backpropagation_phase node sc;;
             mret (Some mc)) w1
      | Raise e => (Raise e, w1)
      | OutOfFuel => (OutOfFuel, w1)
      end
  | (Raise e, w1) => (Raise e, w1)
  | (OutOfFuel, w1) => (OutOfFuel, w1)
  end.
Proof.
  unfold iteration. rewrite bind_run. cbn [get_nodes]. rewrite bind_run.
  destruct (_select _ _ _ _) as [[node|e|] w1]; try reflexivity.
  rewrite bind_run. unfold node_depth.
  destruct (depth_loop _ _ _ _); try reflexivity.
  destruct (max_depth cfg <=? _); reflexivity.
Qed.

(** ** The depth guard and the iteration counter *)

Lemma iteration_guard_root cfg mc w :
  max_depth cfg = 0 → nodes w = fresh_tree →
  iteration cfg 0 mc w = (Ret None, w).
Proof.
  intros HD Ht. rewrite iteration_unfold, select_unfold, Ht. cbn.
  rewrite Ht. unfold depth_loop. cbn. rewrite HD. reflexivity.
Qed.

Lemma search_loop_guard_root fuel cfg ic mc w :
  max_depth cfg = 0 → nodes w = fresh_tree → ic < max_iterations cfg →
  search_loop fuel cfg 0 ic mc w = (OutOfFuel, w).
Proof.
  intros HD Ht Hic. induction fuel as [|fuel IH]; rewrite search_loop_unfold;
    destruct (Nat.ltb_spec ic (max_iterations cfg)); try lia; try reflexivity.
  rewrite iteration_guard_root by assumption. exact IH.
Qed.

Lemma generate_scene_guard_root fuel cfg w :
  max_depth cfg = 0 → 0 < max_iterations cfg →
  generate_scene fuel cfg w = (OutOfFuel, with_nodes fresh_tree w).
Proof.
  intros HD HN. unfold generate_scene. rewrite bind_run. cbn [modify_nodes].
  rewrite bind_run.
  change (mkWorld _ (cache w) (rng w) (llm w) (trace w)) with (with_nodes fresh_tree w).
  rewrite search_loop_guard_root; [reflexivity | assumption | reflexivity | assumption].
Qed.

(** C1. With [max_depth = 0] and a budget of at least one iteration the
    loop of [generate_scene] never ends: every pass selects the root,
    leaves through [continue] before [iteration_count += 1], and the
    next pass starts from the same state with the same counter.
    Whatever the fuel, the run is still in the loop, the tree is the
    untouched root and nothing was called. *)
Theorem generate_scene_depth_guard_spins fuel n ew w :
  iteration (mkConfig (S n) ew 0) 0 0 (with_nodes fresh_tree w)
    = (Ret None, with_nodes fresh_tree w) ∧
  search_loop fuel (mkConfig (S n) ew 0) 0 0 0 (with_nodes fresh_tree w)
    = (OutOfFuel, with_nodes fresh_tree w) ∧
  generate_scene fuel (mkConfig (S n) ew 0) w
    = (OutOfFuel, with_nodes fresh_tree w).
Proof.
  split; [|split].
  - apply iteration_guard_root; reflexivity.
  - apply search_loop_guard_root; [reflexivity | reflexivity | cbn; lia].
  - apply generate_scene_guard_root; [reflexivity | cbn; lia].
Qed.

(** C3. With [max_depth = 0] and a budget of at least one iteration
    [gen_new_scene_script] never gets an answer from the engine: it
    does not reach its fallback and the log stays as it was, without a
    single call of [_generate_scene]. *)
Theorem gen_new_scene_script_depth0_no_fallback fuel n ew w :
  (gen_new_scene_script fuel (mkConfig (S n) ew 0) w).1 = OutOfFuel ∧
  trace (gen_new_scene_script fuel (mkConfig (S n) ew 0) w).2 = trace w.
Proof.
  unfold gen_new_scene_script. rewrite bind_run.
  rewrite generate_scene_guard_root by (cbn; lia). split; reflexivity.
Qed.

(** ** [select_best_child] *)

Lemma py_max_snoc {A} (key : A → F) first rest x :
  py_max key first (rest ++ [x]) =
  if fgt (key x) (key (py_max key first rest)) then x else py_max key first rest.
Proof. unfold py_max. rewrite foldl_snoc. reflexivity. Qed.

Lemma py_max_first_of_largest {A} (key : A → F) first rest :
  gt_orders →
  ∃ i, (first :: rest) !! i = Some (py_max key first rest) ∧
    (∀ c, c ∈ first :: rest → fgt (key c) (key (py_max key first rest)) = false) ∧
    (∀ j c, j < i → (first :: rest) !! j = Some c →
       fgt (key (py_max key first rest)) (key c) = true).
Proof.
  intros (Hirr & Htr & Hcmp). induction rest as [|x rest IH] using rev_ind.
  - exists 0. cbn. split; [reflexivity|]. split.
    + intros c Hc. apply list_elem_of_singleton in Hc as ->. apply Hirr.
    + intros j c Hj. lia.
  - destruct IH as (i & Hi & Hmax & Hfirst).
    rewrite py_max_snoc. set (b := py_max key first rest) in *.
    destruct (fgt (key x) (key b)) eqn:Hx.
    + exists (length (first :: rest)). split; [|split].
      * change (first :: rest ++ [x]) with ((first :: rest) ++ [x]).
        rewrite lookup_app_r by lia. rewrite Nat.sub_diag. reflexivity.
      * intros c Hc. change (first :: rest ++ [x]) with ((first :: rest) ++ [x]) in Hc.
        apply elem_of_app in Hc as [Hc|Hc].
        -- destruct (fgt (key c) (key x)) eqn:Hcx; [|reflexivity].
           rewrite <- (Hmax c Hc). symmetry. eapply Htr; eassumption.
        -- apply list_elem_of_singleton in Hc as ->. apply Hirr.
      * intros j c Hj Hc.
        change (first :: rest ++ [x]) with ((first :: rest) ++ [x]) in Hc.
        rewrite lookup_app_l in Hc by exact Hj.
        destruct (Hcmp _ (key c) _ Hx) as [H1|H1]; [exact H1|].
        rewrite Hmax in H1; [discriminate|]. eapply list_elem_of_lookup_2, Hc.
    + exists i. apply lookup_lt_Some in Hi as Hlt. split; [|split].
      * change (first :: rest ++ [x]) with ((first :: rest) ++ [x]).
        rewrite lookup_app_l by exact Hlt. exact Hi.
      * intros c Hc. change (first :: rest ++ [x]) with ((first :: rest) ++ [x]) in Hc.
        apply elem_of_app in Hc as [Hc|Hc]; [auto|].
        apply list_elem_of_singleton in Hc as ->. exact Hx.
      * intros j c Hj Hc.
        change (first :: rest ++ [x]) with ((first :: rest) ++ [x]) in Hc.
        rewrite lookup_app_l in Hc by lia. eauto.
Qed.

(** C8. [select_best_child] returns [None] exactly when the node has no
    children; otherwise it returns a child no other child's [uct]
    exceeds, and every child appended before it has a strictly smaller
    [uct]: among the children of largest [uct] it is the first. *)
Theorem select_best_child_first_max (t : list MCTSNode) self ew :
  gt_orders →
  (select_best_child self ew t = None ↔ children (t !!! self) = []) ∧
  ∀ b, select_best_child self ew t = Some b →
    ∃ i, children (t !!! self) !! i = Some b ∧
      (∀ c, c ∈ children (t !!! self) →
         fgt (uct (t !!! c)) (uct (t !!! b)) = false) ∧
      (∀ j c, j < i → children (t !!! self) !! j = Some c →
         fgt (uct (t !!! b)) (uct (t !!! c)) = true).
Proof.
  intros Hord. unfold select_best_child.
  destruct (children (t !!! self)) as [|c cs].
  - split; [split; reflexivity|]. intros b Hb. discriminate.
  - split; [split; discriminate|].
    intros b [= <-].
    apply (py_max_first_of_largest (λ c, uct (t !!! c)) c cs Hord).
Qed.

(** ** [expand] *)

Lemma expand_cons self st rest (t : list MCTSNode) :
  expand self (st :: rest) t =
  expand self rest
    (alter (add_child (length t)) self (t ++ [MCTSNode_init st (Some self)])).
Proof. reflexivity. Qed.

Lemma expand_spec self sts (t : list MCTSNode) nd :
  t !! self = Some nd →
  length (expand self sts t) = length t + length sts ∧
  expand self sts t !! self =
    Some (mkNode (state nd) (parent nd)
            (children nd ++ seq (length t) (length sts))
            (visits nd) (score nd) (uct nd)) ∧
  (∀ i st, sts !! i = Some st →
     expand self sts t !! (length t + i) = Some (MCTSNode_init st (Some self))) ∧
  (∀ j, j < length t → j ≠ self → expand self sts t !! j = t !! j).
Proof.
  revert t nd. induction sts as [|st rest IH]; intros t nd Hnd.
  - cbn. rewrite Nat.add_0_r, app_nil_r. split; [reflexivity|].
    split; [destruct nd; exact Hnd|]. split; [intros i st Hi; discriminate|]. auto.
  - rewrite expand_cons.
    apply lookup_lt_Some in Hnd as Hlt.
    set (t1 := alter (add_child (length t)) self (t ++ [MCTSNode_init st (Some self)])).
    assert (Hlen1 : length t1 = S (length t)).
    { unfold t1. rewrite length_alter, length_app. cbn. lia. }
    assert (Hself1 : t1 !! self = Some (add_child (length t) nd)).
    { unfold t1. rewrite list_lookup_alter_eq, lookup_app_l, Hnd by lia. reflexivity. }
    assert (Hold1 : ∀ j, j ≠ self → t1 !! j = (t ++ [MCTSNode_init st (Some self)]) !! j).
    { intros j Hj. unfold t1. rewrite list_lookup_alter_ne by congruence. reflexivity. }
    destruct (IH t1 _ Hself1) as (Hlen & Hs & Hnew & Hold).
    split; [|split; [|split]].
    + rewrite Hlen, Hlen1. cbn. lia.
    + rewrite Hs, Hlen1. cbn. rewrite <- app_assoc. reflexivity.
    + intros [|i] st' Hi.
      * cbn in Hi. injection Hi as <-. rewrite Nat.add_0_r.
        rewrite Hold by lia. rewrite Hold1 by lia.
        rewrite lookup_app_r by lia. rewrite Nat.sub_diag. reflexivity.
      * cbn in Hi. rewrite <- (Hnew i st' Hi). f_equal. lia.
    + intros j Hj Hne. rewrite Hold by lia. rewrite Hold1 by exact Hne.
      apply lookup_app_l. exact Hj.
Qed.

(** ** [update] *)

Lemma alter_insert {A} (f : A → A) i (l : list A) x :
  l !! i = Some x → alter f i l = <[i:=f x]> l.
Proof.
  revert i. induction l as [|y l IH]; intros [|i] H; try discriminate.
  - cbn in *. congruence.
  - cbn in *. f_equal. apply IH, H.
Qed.

Lemma update_run self sc w :
  let t1 := alter (λ nd, set_stats (S (visits nd)) (score nd + sc) nd) self (nodes w) in
  let nd := t1 !!! self in
  update self sc w =
  match parent nd with
  | None => (Ret (), with_nodes t1 w)
  | Some p =>
      if visits nd =? 0 then (Raise ZeroDivisionError, with_nodes t1 w)
      else if visits (t1 !!! p) =? 0 then (Raise ValueError, with_nodes t1 w)
      else (Ret (),
            with_nodes
              (alter (set_uct (uct_value (score nd) (visits nd) (visits (t1 !!! p))))
                 self t1) w)
  end.
Proof.
  intros t1 nd. unfold update. rewrite bind_run. cbn [modify_nodes].
  rewrite bind_run. cbn [get_nodes nodes]. fold t1. fold nd.
  destruct (parent nd) as [p|]; [|reflexivity].
  destruct (visits nd =? 0); [reflexivity|].
  destruct (visits (t1 !!! p) =? 0); reflexivity.
Qed.

(** C2 (as the code has it). On a node with a parent, [update] first
    adds 1 to [visits] and the score to [score]; then, if the parent
    has not been visited, [math.log] raises and [uct] keeps its value,
    and otherwise [uct] becomes
    [score / visits + sqrt (2 * log (parent.visits) / visits)], computed
    from the new [score] and [visits].  No exploration weight enters
    the value. *)
Theorem update_recomputes_uct self sc w nd p pn :
  nodes w !! self = Some nd → parent nd = Some p → p ≠ self →
  nodes w !! p = Some pn →
  (visits pn = 0 →
   update self sc w =
     (Raise ValueError,
      with_nodes (<[self := set_stats (S (visits nd)) (score nd + sc) nd]> (nodes w)) w)) ∧
  (1 ≤ visits pn →
   update self sc w =
     (Ret (),
      with_nodes
        (<[self := mkNode (state nd) (parent nd) (children nd)
                     (S (visits nd)) (score nd + sc)
                     (uct_value (score nd + sc) (S (visits nd)) (visits pn))]>
           (nodes w)) w)).
Proof.
  intros Hnd Hp Hne Hpn. rewrite update_run.
  apply lookup_lt_Some in Hnd as Hlt.
  rewrite (alter_insert _ _ _ _ Hnd).
  rewrite list_lookup_total_insert_eq by exact Hlt.
  cbn [set_stats parent visits score]. rewrite Hp.
  rewrite list_lookup_total_insert_ne by congruence.
  rewrite (list_lookup_total_correct _ _ _ Hpn).
  split; intros Hv.
  - rewrite Hv. reflexivity.
  - destruct (Nat.eqb_spec (visits pn) 0) as [E|_]; [lia|]. cbn [Nat.eqb].
    erewrite alter_insert by (apply list_lookup_insert_eq; exact Hlt).
    rewrite list_insert_insert_eq. rewrite <- Hp. reflexivity.
Qed.

(** ** What each phase does to the world *)

Lemma random_choice_inv {A} (seq : list A) w out w' :
  random_choice seq w = (out, w') →
  nodes w' = nodes w ∧ cache w' = cache w ∧ llm w' = llm w ∧ trace w' = trace w ∧
  ((∃ x, out = Ret x ∧ x ∈ seq) ∨ out = Raise IndexError).
Proof.
  unfold random_choice. destruct seq as [|x0 seq].
  - intros [= <- <-]. auto 10.
  - destruct (randbelow _ _) as [k g].
    destruct ((x0 :: seq) !! k) as [x|] eqn:Hk; intros [= <- <-]; cbn.
    + repeat split; try reflexivity. left. exists x. split; [reflexivity|].
      eapply list_elem_of_lookup_2, Hk.
    + auto 10.
Qed.

Lemma py_max_in {A} (key : A → F) first rest :
  py_max key first rest ∈ first :: rest.
Proof.
  induction rest as [|x rest IH] using rev_ind.
  - cbn. apply list_elem_of_here.
  - rewrite py_max_snoc. change (first :: rest ++ [x]) with ((first :: rest) ++ [x]).
    apply elem_of_app. destruct (fgt _ _); [right; apply list_elem_of_here | left; exact IH].
Qed.

Lemma select_best_child_in self ew (t : list MCTSNode) b :
  select_best_child self ew t = Some b → b ∈ children (t !!! self).
Proof.
  unfold select_best_child. destruct (children (t !!! self)) as [|c cs]; [discriminate|].
  intros [= <-]. apply py_max_in.
Qed.

Lemma tree_wf_child_parent (t : list MCTSNode) i c :
  tree_wf t → i < length t → c ∈ children (t !!! i) →
  i < c < length t ∧ parent (t !!! c) = Some i.
Proof.
  intros [_ Hwf] Hi Hc.
  apply list_lookup_lookup_total_lt in Hi. destruct (Hwf _ _ Hi) as (_ & _ & H). auto.
Qed.

Lemma tree_wf_child (t : list MCTSNode) i c :
  tree_wf t → i < length t → c ∈ children (t !!! i) → i < c < length t.
Proof. intros Hwf Hi Hc. apply (tree_wf_child_parent t i c Hwf Hi Hc). Qed.

(** [_select] touches the random source only; the node it returns is in
    the tree, and it is a leaf or has not been visited.  From a tree of
    a run it needs no more passes than the arena has nodes. *)
Lemma select_inv fuel cfg node w out w' :
  tree_wf (nodes w) → node < length (nodes w) →
  _select fuel cfg node w = (out, w') →
  nodes w' = nodes w ∧ cache w' = cache w ∧ llm w' = llm w ∧ trace w' = trace w ∧
  ((∃ n, out = Ret n ∧ n < length (nodes w) ∧
      (children (nodes w !!! n) = [] ∨ visits (nodes w !!! n) = 0)) ∨
   out = Raise IndexError ∨
   (out = OutOfFuel ∧ fuel + node < length (nodes w))).
Proof.
  intros Hwf. revert node w'. induction fuel as [|fuel IH]; intros node w' Hn;
    rewrite select_unfold; destruct (children (nodes w !!! node)) as [|c cs] eqn:Hcs;
    cbv beta iota zeta.
  - intros [= <- <-]. repeat split; try reflexivity. left. eauto.
  - intros [= <- <-]. repeat split; try reflexivity. right. right.
    split; [reflexivity|].
    assert (node < c < length (nodes w)); [|lia].
    apply tree_wf_child; [assumption..|]. rewrite Hcs. apply list_elem_of_here.
  - intros [= <- <-]. repeat split; try reflexivity. left. eauto.
  - destruct (negb _).
    + intros Hrc. apply random_choice_inv in Hrc as (? & ? & ? & ? & [(x & -> & Hx) | ->]).
      * repeat split; try assumption. left. exists x. split; [reflexivity|].
        apply list_elem_of_filter in Hx as [Hv Hx].
        split; [|right; exact Hv].
        eapply tree_wf_child; [eassumption..|]. rewrite Hcs. exact Hx.
      * repeat split; try assumption. auto.
    + destruct (select_best_child _ _ _) as [best|] eqn:Hbest.
      * apply select_best_child_in in Hbest.
        pose proof (tree_wf_child _ _ _ Hwf Hn Hbest) as Hb.
        intros Hrec. apply IH in Hrec as (? & ? & ? & ? & Hout); [|lia].
        repeat split; try assumption.
        destruct Hout as [?|[?|[? ?]]]; auto. right. right. split; [assumption|lia].
      * unfold select_best_child in Hbest. rewrite Hcs in Hbest. discriminate.
Qed.

Lemma collect_states_inv n acc w out w' :
  collect_states n acc w = (out, w') →
  nodes w' = nodes w ∧ cache w' = cache w ∧ rng w' = rng w ∧
  ((∃ sts, out = Ret (acc ++ sts) ∧ length sts = n ∧
      trace w' = trace w ++ ((λ st, EvGenerate (inr st)) <$> sts)) ∨
   (∃ msg oks, out = Raise (LLMError msg) ∧
      trace w' = trace w ++ ((λ st, EvGenerate (inr st)) <$> oks)
                         ++ [EvGenerate (inl msg)])).
Proof.
  revert acc w. induction n as [|n IH]; intros acc w.
  - intros [= <- <-]. repeat split; try reflexivity. left. exists [].
    rewrite !app_nil_r. auto.
  - unfold collect_states; fold collect_states. rewrite bind_run.
    unfold _generate_scene at 1. destruct (infer_scene (llm w)) as [[msg|st] l].
    + intros [= <- <-]. cbn. repeat split; try reflexivity. right. exists msg, [].
      auto.
    + intros Hrec. apply IH in Hrec as (? & ? & ? & Hout). cbn in *.
      repeat split; try assumption.
      destruct Hout as [(sts & -> & Hlen & Htr)|(msg & oks & -> & Htr)].
      * left. exists (st :: sts). rewrite <- app_assoc. split; [reflexivity|].
        split; [cbn; lia|]. rewrite Htr, <- app_assoc. reflexivity.
      * right. exists msg, (st :: oks). split; [reflexivity|].
        rewrite Htr, <- !app_assoc. reflexivity.
Qed.

Lemma expansion_phase_inv node mc w out w' :
  node < length (nodes w) →
  expansion_phase node mc w = (out, w') →
  (visits (nodes w !!! node) = 0 ∧ out = Ret (node, mc) ∧ w' = w) ∨
  (0 < visits (nodes w !!! node) ∧ cache w' = cache w ∧
   ((∃ msg oks, out = Raise (LLMError msg) ∧ nodes w' = nodes w ∧
       trace w' = trace w ++ ((λ st, EvGenerate (inr st)) <$> oks)
                          ++ [EvGenerate (inl msg)]) ∨
    (∃ s1 s2, nodes w' = expand node [s1; s2] (nodes w) ∧
       trace w' = trace w ++ [EvGenerate (inr s1); EvGenerate (inr s2)] ∧
       ((∃ c, out = Ret (c, mc + 2) ∧ c ∈ children (nodes w' !!! node)) ∨
        out = Raise IndexError)))).
Proof.
  intros Hn. unfold expansion_phase. rewrite bind_run. cbn [get_nodes].
  destruct (Nat.ltb_spec 0 (visits (nodes w !!! node))) as [Hv|Hv].
  2:{ intros [= <- <-]. left. split; [lia|]. auto. }
  intros H. right. split; [exact Hv|].
  apply bind_inv in H as [(sts & w1 & Hc & H)|[(e & Hc & ->)|[Hc ->]]];
    unfold _get_possible_states in Hc;
    apply collect_states_inv in Hc as (Ht1 & Hc1 & Hr1 & Hout).
  - destruct Hout as [(sts' & [= ->] & Hlen & Htr)|(? & ? & ? & _)]; [|discriminate].
    destruct sts' as [|s1 [|s2 [|? ?]]]; try discriminate. cbn [app] in *.
    rewrite bind_run in H. cbn [modify_nodes] in H. rewrite bind_run in H.
    cbn [get_nodes nodes] in H. rewrite Ht1 in H.
    apply list_lookup_lookup_total_lt in Hn as Hnd.
    destruct (expand_spec node [s1; s2] _ _ Hnd) as (_ & Hself & _ & _).
    apply list_lookup_total_correct in Hself.
    rewrite Hself in H. cbn [children length] in H. cbn [children length] in Hself.
    destruct (children (nodes w !!! node) ++ seq (length (nodes w)) 2) as [|c cs] eqn:Hcs.
    { apply (f_equal length) in Hcs. rewrite length_app in Hcs. cbn in Hcs. lia. }
    rewrite bind_run in H.
    destruct (random_choice _ _) as [[x|e|] w2] eqn:Hrc;
      apply random_choice_inv in Hrc as (Ht2 & Hc2 & Hl2 & Htr2 & Hout); cbn in *;
      injection H as <- <-.
    + destruct Hout as [(x' & [= <-] & Hx)|?]; [|discriminate].
      split; [congruence|]. right. exists s1, s2.
      rewrite Ht2. split; [reflexivity|]. split; [congruence|].
      left. exists x. split; [reflexivity|]. rewrite Hself. exact Hx.
    + destruct Hout as [(x' & ? & Hx)|[= ->]]; [discriminate|].
      split; [congruence|]. right. exists s1, s2.
      rewrite Ht2. split; [reflexivity|]. split; [congruence|]. right. reflexivity.
    + destruct Hout as [(x' & ? & Hx)|?]; discriminate.
  - destruct Hout as [(? & ? & _)|(msg & oks & [= ->] & Htr)]; [discriminate|].
    split; [assumption|]. left. eauto.
  - destruct Hout as [(? & ? & _)|(? & ? & ? & _)]; discriminate.
Qed.

Lemma simulation_phase_inv node mc w out w' st :
  st = state (nodes w !!! node) →
  simulation_phase node mc w = (out, w') →
  nodes w' = nodes w ∧ rng w' = rng w ∧
  ((∃ sc, cache w !! py_str st = Some sc ∧ out = Ret (sc, mc) ∧ w' = w) ∨
   (cache w !! py_str st = None ∧ truthy st = false ∧ out = Ret (0%Z, S mc) ∧
    cache w' = <[py_str st := 0%Z]> (cache w) ∧ trace w' = trace w ∧ llm w' = llm w) ∨
   (cache w !! py_str st = None ∧ truthy st = true ∧
    ∃ sc, out = Ret (sc, S mc) ∧ cache w' = <[py_str st := sc]> (cache w) ∧
          trace w' = trace w ++ [EvEvaluate st (inr sc)]) ∨
   (cache w !! py_str st = None ∧ truthy st = true ∧
    ∃ msg, out = Raise (LLMError msg) ∧ cache w' = cache w ∧
           trace w' = trace w ++ [EvEvaluate st (inl msg)])).
Proof.
  intros ->. unfold simulation_phase. rewrite bind_run. cbn [get_nodes].
  rewrite bind_run. cbn [get_cache].
  intros H. set (st := state (nodes w !!! node)) in *.
  destruct (cache w !! py_str st) as [sc|] eqn:Hk.
  - injection H as <- <-. split; [reflexivity|]. split; [reflexivity|]. left. eauto.
  - rewrite bind_run in H. unfold _simulate in H.
    destruct (truthy st) eqn:Htr; cbn [negb] in H.
    + unfold _evaluate_scene in H.
      destruct (infer_eval st (llm w)) as [[msg|resp] l]; cbn in H; injection H as <- <-; cbn.
      * split; [reflexivity|]. split; [reflexivity|]. right. right. right. eauto 10.
      * split; [reflexivity|]. split; [reflexivity|]. right. right. left. eauto 10.
    + cbn in H. injection H as <- <-. cbn. split; [reflexivity|]. split; [reflexivity|].
      right. left. auto 10.
Qed.

(** ** Backpropagation *)

Lemma tree_wf_mono (t t' : list MCTSNode) :
  tree_wf t → length t' = length t →
  (∀ i nd, t !! i = Some nd →
     ∃ nd', t' !! i = Some nd' ∧ parent nd' = parent nd ∧
            children nd' = children nd ∧ visits nd ≤ visits nd') →
  tree_wf t'.
Proof.
  intros [(r & Hr & Hpr) Hwf] Hlen Hsame. split.
  - destruct (Hsame _ _ Hr) as (r' & Hr' & Hp & _). exists r'. split; congruence.
  - intros i nd' Hi.
    assert (Hlt : i < length t) by (rewrite <- Hlen; eapply lookup_lt_Some, Hi).
    apply list_lookup_lookup_total_lt in Hlt.
    destruct (Hsame _ _ Hlt) as (nd2 & Hi2 & Hp & Hc & Hv).
    assert (nd2 = nd') by congruence. subst nd2.
    destruct (Hwf _ _ Hlt) as (H1 & H2 & H3). rewrite Hp, Hc, Hlen.
    split; [|split; [assumption|]].
    + intros p Hpp. destruct (H1 p Hpp) as [Hlt' Hvis]. split; [exact Hlt'|].
      assert (Hpl : p < length t) by (apply lookup_lt_Some in Hlt; lia).
      apply list_lookup_lookup_total_lt in Hpl.
      destruct (Hsame _ _ Hpl) as (pn' & Hpn' & _ & _ & Hle).
      rewrite (list_lookup_total_correct _ _ _ Hpn'). lia.
    + intros c Hcc. destruct (H3 c Hcc) as [Hrange Hpc]. split; [exact Hrange|].
      assert (Hcl : c < length t) by lia.
      apply list_lookup_lookup_total_lt in Hcl.
      destruct (Hsame _ _ Hcl) as (cn' & Hcn' & Hpc' & _).
      rewrite (list_lookup_total_correct _ _ _ Hcn'). congruence.
Qed.

Lemma bumped_wf (t t' : list MCTSNode) walk sc :
  tree_wf t → bumped t walk sc t' → tree_wf t'.
Proof.
  intros Hwf [Hlen Hb]. apply (tree_wf_mono t); [assumption..|].
  intros i nd Hi. destruct (Hb _ _ Hi) as (nd' & ? & ? & ? & ? & Hv & ?).
  exists nd'. repeat split; try assumption. lia.
Qed.

Lemma is_walk_ext (t t' : list MCTSNode) walk :
  (∀ i, i < length t → i < length t' ∧ parent (t' !!! i) = parent (t !!! i)) →
  is_walk t walk → is_walk t' walk.
Proof.
  intros Hext. induction walk as [|n rest IH]; [intros []|].
  cbn. intros [Hn Hrest]. destruct (Hext n Hn) as [Hn' Hp]. split; [exact Hn'|].
  rewrite Hp. destruct rest as [|m rest']; [exact Hrest|].
  split; [apply Hrest | apply IH, Hrest].
Qed.

Lemma bumped_total (t t' : list MCTSNode) walk sc i :
  bumped t walk sc t' → i < length t →
  parent (t' !!! i) = parent (t !!! i) ∧ children (t' !!! i) = children (t !!! i) ∧
  state (t' !!! i) = state (t !!! i) ∧
  visits (t' !!! i) = (if bool_decide (i ∈ walk) then 1 else 0) + visits (t !!! i).
Proof.
  intros [Hlen Hb] Hi. apply list_lookup_lookup_total_lt in Hi.
  destruct (Hb _ _ Hi) as (nd' & Hi' & ? & ? & ? & ? & ?).
  rewrite (list_lookup_total_correct _ _ _ Hi'). auto.
Qed.

Lemma bumped_cons (t t1 t' : list MCTSNode) n rest sc :
  bumped t [n] sc t1 → bumped t1 rest sc t' → n ∉ rest →
  bumped t (n :: rest) sc t'.
Proof.
  intros [Hlen1 Hb1] [Hlen2 Hb2] Hnot. split; [congruence|].
  intros i nd Hi. destruct (Hb1 _ _ Hi) as (nd1 & Hi1 & Hs1 & Hp1 & Hc1 & Hv1 & Hsc1).
  destruct (Hb2 _ _ Hi1) as (nd2 & Hi2 & Hs2 & Hp2 & Hc2 & Hv2 & Hsc2).
  exists nd2. split; [exact Hi2|]. rewrite Hs2, Hp2, Hc2, Hv2, Hsc2, Hv1, Hsc1.
  assert (Hin : i ∈ n :: rest ↔ i ∈ [n] ∨ i ∈ rest).
  { rewrite elem_of_cons, list_elem_of_singleton. reflexivity. }
  assert (Hex : i ∈ [n] → i ∉ rest).
  { rewrite list_elem_of_singleton. intros ->. exact Hnot. }
  repeat split; try assumption; repeat case_bool_decide; try lia; prop_solve.
Qed.

Lemma update_bumps self sc w :
  tree_wf (nodes w) → self < length (nodes w) →
  ∃ w1, update self sc w = (Ret (), w1) ∧ bumped (nodes w) [self] sc (nodes w1) ∧
    cache w1 = cache w ∧ rng w1 = rng w ∧ llm w1 = llm w ∧ trace w1 = trace w.
Proof.
  intros Hwf Hself. rewrite update_run.
  apply list_lookup_lookup_total_lt in Hself as Hnd.
  set (nd := nodes w !!! self) in *.
  set (f := λ nd, set_stats (S (visits nd)) (score nd + sc) nd).
  assert (Hb : ∀ g, (∀ x, state (g x) = state x ∧ parent (g x) = parent x ∧
                          children (g x) = children x ∧ visits (g x) = visits x ∧
                          score (g x) = score x) →
              bumped (nodes w) [self] sc (alter g self (alter f self (nodes w)))).
  { intros g Hg. split; [rewrite !length_alter; reflexivity|].
    intros i x Hi. destruct (decide (i = self)) as [->|Hne].
    - exists (g (f x)). rewrite list_lookup_alter_eq, list_lookup_alter_eq, Hi.
      split; [reflexivity|]. destruct (Hg (f x)) as (-> & -> & -> & -> & ->).
      rewrite bool_decide_eq_true_2 by apply list_elem_of_here. cbn. auto 10.
    - exists x. rewrite !list_lookup_alter_ne by congruence.
      rewrite bool_decide_eq_false_2 by (rewrite list_elem_of_singleton; exact Hne).
      rewrite Z.add_0_r. auto 10. }
  rewrite list_lookup_total_alter_eq by exact Hself. fold nd.
  cbn [f set_stats parent visits score].
  destruct (parent nd) as [p|] eqn:Hp.
  - destruct Hwf as [_ Hwf]. destruct (Hwf _ _ Hnd) as (Hpar & _ & _).
    destruct (Hpar p Hp) as [Hlt Hvis].
    rewrite list_lookup_total_alter_ne by lia.
    destruct (Nat.eqb_spec (visits (nodes w !!! p)) 0) as [E|_]; [lia|]. cbn [Nat.eqb].
    eexists. split; [reflexivity|]. cbn. split; [|auto]. apply Hb. intros x. auto.
  - eexists. split; [reflexivity|]. cbn. split; [|auto].
    rewrite <- (list_alter_id (λ x, x) (alter f self (nodes w)) self) by reflexivity.
    apply Hb. intros x. auto.
Qed.

Lemma backpropagate_unfold fuel n sc w :
  backpropagate (S fuel) (Some n) sc w =
  match update n sc w with
  | (Ret _, w1) =>
      match backpropagate fuel (parent (nodes w1 !!! n)) sc w1 with
      | (Ret walk, w2) => (Ret (n :: walk), w2)
      | (Raise e, w2) => (Raise e, w2)
      | (OutOfFuel, w2) => (OutOfFuel, w2)
      end
  | (Raise e, w1) => (Raise e, w1)
  | (OutOfFuel, w1) => (OutOfFuel, w1)
  end.
Proof.
  unfold backpropagate; fold backpropagate. rewrite bind_run.
  destruct (update n sc w) as [[[]|e|] w1]; reflexivity.
Qed.

Lemma backpropagate_none fuel sc w : backpropagate fuel None sc w = (Ret [], w).
Proof. destruct fuel; reflexivity. Qed.

(** From a node of a tree of a run the loop ends normally within as
    many passes as the node's index plus one: it has called [update]
    once on the node and on each of its ancestors, child first, root
    last. *)
Lemma backpropagate_spec fuel n sc w :
  tree_wf (nodes w) → n < length (nodes w) → n < fuel →
  ∃ rest w', backpropagate fuel (Some n) sc w = (Ret (n :: rest), w') ∧
    is_walk (nodes w) (n :: rest) ∧ Forall (λ m, m < n) rest ∧
    bumped (nodes w) (n :: rest) sc (nodes w') ∧
    cache w' = cache w ∧ rng w' = rng w ∧ llm w' = llm w ∧ trace w' = trace w.
Proof.
  revert n w. induction fuel as [|fuel IH]; intros n w Hwf Hn Hfuel; [lia|].
  rewrite backpropagate_unfold.
  destruct (update_bumps n sc w Hwf Hn) as (w1 & -> & Hb1 & Hc1 & Hr1 & Hl1 & Ht1).
  pose proof (bumped_wf _ _ _ _ Hwf Hb1) as Hwf1.
  destruct (bumped_total _ _ _ _ n Hb1 Hn) as (Hp1 & _).
  rewrite Hp1.
  apply list_lookup_lookup_total_lt in Hn as Hnd.
  destruct (parent (nodes w !!! n)) as [p|] eqn:Hp.
  - destruct Hwf as [Hroot Hall]. destruct (Hall _ _ Hnd) as (Hpar & _ & _).
    destruct (Hpar p Hp) as [Hlt _].
    assert (Hp_len1 : p < length (nodes w1)) by (rewrite (proj1 Hb1); lia).
    destruct (IH p w1 Hwf1 Hp_len1 ltac:(lia))
      as (rest & w' & -> & Hwalk & Hall_lt & Hb2 & Hc2 & Hr2 & Hl2 & Ht2).
    exists (p :: rest), w'. split; [reflexivity|]. split; [|split; [|split]].
    + change (n < length (nodes w) ∧
              (parent (nodes w !!! n) = Some p ∧ is_walk (nodes w) (p :: rest))).
      split; [exact Hn|]. split; [exact Hp|].
      revert Hwalk. apply is_walk_ext. intros i Hi. rewrite (proj1 Hb1) in Hi.
      split; [exact Hi|]. symmetry. apply (bumped_total _ _ _ _ i Hb1 Hi).
    + constructor; [exact Hlt|]. eapply Forall_impl; [exact Hall_lt|]. cbn. lia.
    + eapply bumped_cons; [exact Hb1 | exact Hb2 |].
      intros Hin. apply elem_of_cons in Hin as [Heq|Hin]; [lia|].
      rewrite Forall_forall in Hall_lt. specialize (Hall_lt _ Hin). lia.
    + repeat split; congruence.
  - rewrite backpropagate_none. exists [], w1. split; [reflexivity|].
    split; [cbn; auto|]. split; [constructor|]. split; [exact Hb1|].
    repeat split; congruence.
Qed.

(** ** One pass through the loop body *)

Lemma depth_loop_ok fuel d n (t : list MCTSNode) :
  tree_wf t → n < length t → n ≤ fuel → ∃ d', depth_loop fuel d n t = Ret d'.
Proof.
  intros Hwf. revert d n. induction fuel as [|fuel IH]; intros d n Hn Hfuel;
    unfold depth_loop; fold depth_loop;
    apply list_lookup_lookup_total_lt in Hn as Hnd;
    destruct (parent (t !!! n)) as [p|] eqn:Hp; eauto;
    destruct Hwf as [Hroot Hall]; destruct (Hall _ _ Hnd) as (Hpar & _ & _);
    destruct (Hpar p Hp) as [Hlt _].
  - lia.
  - apply IH; lia.
Qed.

Lemma expand_total self sts (t : list MCTSNode) j :
  self < length t → j < length t →
  state (expand self sts t !!! j) = state (t !!! j) ∧
  parent (expand self sts t !!! j) = parent (t !!! j) ∧
  visits (expand self sts t !!! j) = visits (t !!! j) ∧
  (j ≠ self → expand self sts t !! j = t !! j) ∧
  children (expand self sts t !!! self) =
    children (t !!! self) ++ seq (length t) (length sts).
Proof.
  intros Hself Hj. apply list_lookup_lookup_total_lt in Hself as Hnd.
  destruct (expand_spec self sts t _ Hnd) as (_ & Hs & _ & Hold).
  rewrite (list_lookup_total_correct _ _ _ Hs).
  destruct (decide (j = self)) as [->|Hne].
  - rewrite (list_lookup_total_correct _ _ _ Hs). cbn. repeat split; prop_solve.
  - specialize (Hold j Hj Hne). apply list_lookup_lookup_total_lt in Hj.
    rewrite Hj in Hold. rewrite (list_lookup_total_correct _ _ _ Hold). cbn.
    repeat split; auto. intros _. congruence.
Qed.

Lemma expand_wf self sts (t : list MCTSNode) :
  tree_wf t → self < length t → 1 ≤ visits (t !!! self) →
  tree_wf (expand self sts t).
Proof.
  intros Hwf Hself Hvis. pose proof Hwf as [(r & Hr & Hpr) Hall].
  apply list_lookup_lookup_total_lt in Hself as Hnd.
  destruct (expand_spec self sts t _ Hnd) as (Hlen & Hs & Hnew & Hold).
  assert (Hvis' : ∀ p, p < length t → visits (expand self sts t !!! p) = visits (t !!! p)).
  { intros p Hp. apply (expand_total self sts t p Hself Hp). }
  assert (Hpar' : ∀ p, p < length t → parent (expand self sts t !!! p) = parent (t !!! p)).
  { intros p Hp. apply (expand_total self sts t p Hself Hp). }
  split.
  - destruct (decide (self = 0)) as [->|Hne].
    + eexists. split; [exact Hs|]. cbn. rewrite <- Hpr. f_equal.
      apply list_lookup_total_correct, Hr.
    + exists r. split; [|exact Hpr]. rewrite Hold by lia. exact Hr.
  - intros i nd Hi. destruct (decide (i < length t)) as [Hlt|Hge].
    + apply list_lookup_lookup_total_lt in Hlt as Hi0.
      destruct (Hall _ _ Hi0) as (Hpar & Hnone & Hch).
      destruct (decide (i = self)) as [->|Hne].
      * rewrite Hs in Hi. injection Hi as <-. cbn. split; [|split].
        -- intros p Hp. destruct (Hpar p Hp). rewrite Hvis' by lia. auto.
        -- exact Hnone.
        -- intros c Hc. apply elem_of_app in Hc as [Hc|Hc].
           ++ destruct (Hch c Hc) as [Hrange Hpc]. rewrite Hpar' by lia.
              split; [lia | exact Hpc].
           ++ apply elem_of_seq in Hc. split; [lia|].
              destruct (lookup_lt_is_Some_2 sts (c - length t) ltac:(lia)) as [st Hst].
              specialize (Hnew _ _ Hst).
              replace (length t + (c - length t)) with c in Hnew by lia.
              rewrite (list_lookup_total_correct _ _ _ Hnew). reflexivity.
      * rewrite Hold in Hi by assumption. rewrite Hi0 in Hi. injection Hi as <-.
        split; [|split].
        -- intros p Hp. destruct (Hpar p Hp). rewrite Hvis' by lia. auto.
        -- exact Hnone.
        -- intros c Hc. destruct (Hch c Hc) as [Hrange Hpc]. rewrite Hpar' by lia.
           split; [lia | exact Hpc].
    + assert (Hlt' : i < length t + length sts).
      { rewrite <- Hlen. eapply lookup_lt_Some, Hi. }
      destruct (lookup_lt_is_Some_2 sts (i - length t) ltac:(lia)) as [st Hst].
      specialize (Hnew _ _ Hst). replace (length t + (i - length t)) with i in Hnew by lia.
      rewrite Hnew in Hi. injection Hi as <-. cbn. split; [|split].
      * intros p [= <-]. rewrite Hvis' by lia. split; lia.
      * discriminate.
      * intros c Hc. apply elem_of_nil in Hc. contradiction.
Qed.

Lemma expansion_of_wf (t t2 : list MCTSNode) node gens node' :
  tree_wf t → node < length t → expansion_of t node t2 gens node' →
  tree_wf t2 ∧ node' < length t2.
Proof.
  intros Hwf Hn [(_ & -> & _ & ->)|(Hv & Hc & s1 & s2 & -> & _ & Hnode')].
  - auto.
  - split; [apply expand_wf; assumption|].
    apply list_lookup_lookup_total_lt in Hn as Hnd.
    destruct (expand_spec node [s1; s2] t _ Hnd) as (-> & _). cbn. lia.
Qed.

Lemma backpropagation_phase_spec node sc w :
  tree_wf (nodes w) → node < length (nodes w) →
  ∃ rest w', backpropagation_phase node sc w = (Ret (), w') ∧
    is_walk (nodes w) (node :: rest) ∧ Forall (λ m, m < node) rest ∧
    bumped (nodes w) (node :: rest) sc (nodes w') ∧
    cache w' = cache w ∧ rng w' = rng w ∧ llm w' = llm w ∧
    trace w' = trace w ++ [EvBackprop (node :: rest) sc].
Proof.
  intros Hwf Hn. unfold backpropagation_phase. rewrite bind_run. cbn [get_nodes].
  rewrite bind_run.
  destruct (backpropagate_spec (length (nodes w)) node sc w Hwf Hn Hn)
    as (rest & w1 & -> & Hwalk & Hlt & Hb & Hc & Hr & Hl & Ht).
  exists rest. eexists. split; [reflexivity|]. cbn. rewrite Ht. auto 10.
Qed.

(** The part of a pass after the expansion phase. *)
Lemma simulate_backpropagate_inv node mc w out w' st :
  tree_wf (nodes w) → node < length (nodes w) →
  st = state (nodes w !!! node) →
  ('(sc, mc) ← simulation_phase node mc;
   backpropagation_phase node sc;; mret (Some mc)) w = (out, w') →
  (∃ msg, out = Raise (LLMError msg) ∧ cache w !! py_str st = None ∧
     truthy st = true ∧ nodes w' = nodes w ∧ cache w' = cache w ∧
     trace w' = trace w ++ [EvEvaluate st (inl msg)]) ∨
  (∃ sc evs rest mc', out = Ret (Some mc') ∧
     simulation_of (cache w) st sc (cache w') evs ∧
     is_walk (nodes w) (node :: rest) ∧ Forall (λ m, m < node) rest ∧
     bumped (nodes w) (node :: rest) sc (nodes w') ∧
     trace w' = trace w ++ evs ++ [EvBackprop (node :: rest) sc]).
Proof.
  intros Hwf Hn Hst H.
  apply bind_inv in H as [([sc mc1] & w1 & Hs & H)|[(e & Hs & ->)|[Hs ->]]];
    apply (simulation_phase_inv _ _ _ _ _ st Hst) in Hs
      as (Ht1 & Hr1 & Hs).
  - rewrite bind_run in H.
    destruct (backpropagation_phase_spec node sc w1)
      as (rest & w2 & Hbp & Hwalk & Hlt & Hb & Hc2 & _ & _ & Ht2);
      [rewrite Ht1; assumption..|].
    rewrite Hbp in H. injection H as <- <-. rewrite Ht1 in *.
    right. exists sc.
    destruct Hs as [(sc' & Hk & [= -> ->] & ->)|[(Hk & Htr & [= -> ->] & Hc & Ht & _)|
                   [(Hk & Htr & sc' & [= -> ->] & Hc & Ht)|(_ & _ & ? & ? & _)]]];
      [| | |discriminate].
    + exists [], rest. eexists. split; [reflexivity|]. split; [left; auto|].
      rewrite Ht2. auto.
    + exists [], rest. eexists. split; [reflexivity|].
      split; [right; left; rewrite Hc2; auto|]. rewrite Ht2, Ht. auto.
    + exists [EvEvaluate st (inr sc')], rest. eexists. split; [reflexivity|].
      split; [right; right; rewrite Hc2; auto|]. rewrite Ht2, Ht, <- app_assoc. auto.
  - left.
    destruct Hs as [(? & _ & ? & _)|[(_ & _ & ? & _)|[(_ & _ & ? & ? & _)|
                   (Hk & Htr & msg & [= ->] & Hc & Ht)]]]; try discriminate.
    eauto 10.
  - destruct Hs as [(? & _ & ? & _)|[(_ & _ & ? & _)|[(_ & _ & ? & ? & _)|
                   (_ & _ & ? & ? & _)]]]; discriminate.
Qed.

(** Every pass from a tree of a run is one of the five kinds: it
    neither runs out of fuel in an inner loop nor raises from the
    arithmetic of [update]. *)
Lemma iteration_pass cfg mc w out w' :
  tree_wf (nodes w) → iteration cfg 0 mc w = (out, w') → pass w out w'.
Proof.
  intros Hwf. rewrite iteration_unfold.
  assert (H0 : 0 < length (nodes w)).
  { destruct Hwf as [(r & Hr & _) _]. eapply lookup_lt_Some, Hr. }
  destruct (_select _ _ _ _) as [sout w1] eqn:Hsel.
  apply select_inv in Hsel as (Ht1 & Hc1 & Hl1 & Htr1 & Hsout); [|assumption..].
  destruct Hsout as [(node & -> & Hnode & Hleaf)|[->|[-> ?]]]; [| |lia].
  2:{ intros [= <- <-]. apply pass_idle; auto. }
  destruct (depth_loop_ok (length (nodes w1)) 0 node (nodes w1)) as [d ->];
    [rewrite Ht1; assumption | rewrite Ht1; assumption | rewrite Ht1; lia |].
  destruct (max_depth cfg <=? d).
  { intros [= <- <-]. apply pass_idle; auto. }
  intros H.
  apply bind_inv in H as [([node' mc1] & w2 & He & H)|[(e & He & ->)|[He ->]]];
    (apply expansion_phase_inv in He; [|rewrite Ht1; exact Hnode]);
    rewrite ?Ht1, ?Hc1, ?Htr1 in He.
  - assert (Hexp : expansion_of (nodes w) node (nodes w2)
                     (drop (length (trace w)) (trace w2)) node'
                   ∧ cache w2 = cache w
                   ∧ trace w2 = trace w ++ drop (length (trace w)) (trace w2)).
    { destruct He as [(Hv & [= -> ->] & ->)|(Hv & Hc2 & [(? & ? & ? & _)|
                     (s1 & s2 & Ht2 & Htr2 & [(c & [= -> ->] & Hc)|?])])];
        try discriminate.
      - rewrite Htr1, drop_all, app_nil_r. split; [left; auto|]. auto.
      - rewrite Htr2, drop_app_length. split; [|auto].
        right. split; [exact Hv|].
        destruct Hleaf as [Hleaf|Hleaf]; [|lia]. split; [exact Hleaf|].
        exists s1, s2. split; [exact Ht2|]. split; [reflexivity|].
        rewrite Ht2 in Hc.
        destruct (expand_total node [s1; s2] (nodes w) node Hnode Hnode)
          as (_ & _ & _ & _ & Hch).
        rewrite Hch, Hleaf in Hc. cbn in Hc.
        apply elem_of_cons in Hc as [->|Hc]; [auto|].
        apply list_elem_of_singleton in Hc as ->. auto. }
    destruct Hexp as (Hexp & Hc2 & Htr2).
    destruct (expansion_of_wf _ _ _ _ _ Hwf Hnode Hexp) as [Hwf2 Hnode'].
    apply (simulate_backpropagate_inv _ _ _ _ _ _ Hwf2 Hnode' eq_refl) in H.
    destruct H as [(msg & -> & Hk & Htru & Ht3 & Hc3 & Htr3)|
                   (sc & evs & rest & mc' & -> & Hsim & Hwalk & Hlt & Hb & Htr3)].
    + eapply pass_evaluate_failed; eauto; try congruence.
      rewrite Htr3, Htr2 at 1. rewrite <- app_assoc. reflexivity.
    + eapply pass_done; eauto; try congruence.
      * rewrite <- Hc2. exact Hsim.
      * rewrite Htr3, Htr2 at 1. rewrite <- app_assoc. reflexivity.
  - destruct He as [(_ & ? & _)|(Hv & Hc2 & [(msg & oks & [= ->] & Ht2 & Htr2)|
                   (s1 & s2 & Ht2 & Htr2 & [(c & ? & _)|[= ->]])])]; try discriminate.
    + eapply pass_generate_failed; eauto.
    + destruct Hleaf as [Hleaf|Hleaf]; [|lia].
      eapply pass_choice_failed; eauto.
  - destruct He as [(_ & ? & _)|(Hv & Hc2 & [(msg & oks & ? & _)|
                   (s1 & s2 & Ht2 & Htr2 & [(c & ? & _)|?])])]; discriminate.
Qed.

(** ** A guarded pass repeats *)

Lemma depth_loop_parent fuel d n1 n2 (t : list MCTSNode) :
  parent (t !!! n1) = parent (t !!! n2) →
  depth_loop fuel d n1 t = depth_loop fuel d n2 t.
Proof. intros H. destruct fuel; unfold depth_loop; rewrite H; reflexivity. Qed.

(** Whatever the random source, [_select] returns nodes of one depth:
    the same node, or two children of the same node. *)
Lemma select_same_parent fuel cfg node w1 w2 n1 n2 w1' w2' :
  tree_wf (nodes w1) → nodes w2 = nodes w1 → node < length (nodes w1) →
  _select fuel cfg node w1 = (Ret n1, w1') →
  _select fuel cfg node w2 = (Ret n2, w2') →
  n1 = n2 ∨ parent (nodes w1 !!! n1) = parent (nodes w1 !!! n2).
Proof.
  intros Hwf Ht. revert node. induction fuel as [|fuel IH]; intros node Hn;
    rewrite !select_unfold, Ht;
    destruct (children (nodes w1 !!! node)) as [|c cs] eqn:Hcs; cbv beta iota zeta;
    try (intros [= <- _] [= <- _]; left; reflexivity); try discriminate.
  destruct (negb _).
  - intros H1 H2.
    apply random_choice_inv in H1 as (_ & _ & _ & _ & [(x1 & [= <-] & Hx1)|?]);
      [|discriminate].
    apply random_choice_inv in H2 as (_ & _ & _ & _ & [(x2 & [= <-] & Hx2)|?]);
      [|discriminate].
    apply list_elem_of_filter in Hx1 as [_ Hx1]. apply list_elem_of_filter in Hx2 as [_ Hx2].
    rewrite <- Hcs in Hx1, Hx2. right.
    destruct (tree_wf_child_parent _ _ _ Hwf Hn Hx1) as [_ ->].
    destruct (tree_wf_child_parent _ _ _ Hwf Hn Hx2) as [_ ->]. reflexivity.
  - destruct (select_best_child _ _ _) as [best|] eqn:Hbest; [|discriminate].
    apply select_best_child_in in Hbest.
    apply IH. apply (tree_wf_child _ _ _ Hwf Hn Hbest).
Qed.

Lemma after_guard_some node mc w r w' :
  ('(node, mc) ← expansion_phase node mc;
   '(sc, mc) ← simulation_phase node mc;
   backpropagation_phase node sc;; mret (Some mc)) w = (Ret r, w') →
  r ≠ None.
Proof.
  intros H.
  apply bind_inv in H as [([node' mc1] & w1 & _ & H)|[(e & _ & ?)|[_ ?]]];
    try discriminate.
  apply bind_inv in H as [([sc mc2] & w2 & _ & H)|[(e & _ & ?)|[_ ?]]];
    try discriminate.
  apply bind_inv in H as [(u & w3 & _ & H)|[(e & _ & ?)|[_ ?]]]; try discriminate.
  injection H as <- _. discriminate.
Qed.

Lemma guard_repeats cfg mc w w1 mc2 w2 out w3 :
  tree_wf (nodes w) → iteration cfg 0 mc w = (Ret None, w1) →
  nodes w2 = nodes w → iteration cfg 0 mc2 w2 = (out, w3) →
  (out = Ret None ∨ out = Raise IndexError) ∧
  nodes w3 = nodes w ∧ cache w3 = cache w2 ∧ llm w3 = llm w2 ∧ trace w3 = trace w2.
Proof.
  intros Hwf H1 Ht H2.
  assert (H0 : 0 < length (nodes w)).
  { destruct Hwf as [(r & Hr & _) _]. eapply lookup_lt_Some, Hr. }
  rewrite iteration_unfold in H1, H2. rewrite Ht in H2.
  destruct (_select _ _ _ w) as [sout1 wa] eqn:Hs1.
  destruct (_select _ _ _ w2) as [sout2 wb] eqn:Hs2.
  pose proof Hs1 as Hi1. apply select_inv in Hi1 as (Hta & _ & _ & _ & Hout1);
    [|assumption..].
  pose proof Hs2 as Hi2. apply select_inv in Hi2 as (Htb & Hcb & Hlb & Htrb & Hout2);
    [|rewrite Ht; assumption..].
  rewrite Ht in Htb.
  destruct Hout2 as [(n2 & -> & Hn2 & _)|[->|[-> ?]]]; [| |rewrite Ht in *; lia].
  2:{ injection H2 as <- <-. auto 10. }
  destruct Hout1 as [(n1 & -> & Hn1 & _)|[->|[-> ?]]]; [|discriminate|discriminate].
  rewrite Hta in H1. rewrite Htb in H2.
  destruct (select_same_parent _ _ _ _ _ _ _ _ _ Hwf Ht H0 Hs1 Hs2) as [<-|Hpar].
  - destruct (depth_loop _ _ n1 _) as [d| |]; try discriminate.
    destruct (max_depth cfg <=? d).
    + injection H2 as <- <-. auto 10.
    + apply after_guard_some in H1. contradiction.
  - rewrite (depth_loop_parent _ _ n1 n2 _ Hpar) in H1.
    destruct (depth_loop _ _ n2 _) as [d| |]; try discriminate.
    destruct (max_depth cfg <=? d).
    + injection H2 as <- <-. auto 10.
    + apply after_guard_some in H1. contradiction.
Qed.

(** Once a pass of a run has left through [continue], the loop never
    ends normally: from the state it left, whatever the fuel, the model
    is still in the loop with the same tree, cache and log (or the
    random source has given an index out of range). *)
Lemma guarded_pass_spins cfg mc w w1 :
  tree_wf (nodes w) → iteration cfg 0 mc w = (Ret None, w1) →
  ∀ fuel ic mc' w2, nodes w2 = nodes w → ic < max_iterations cfg →
    ∃ w3, nodes w3 = nodes w ∧ cache w3 = cache w2 ∧ trace w3 = trace w2 ∧
      (search_loop fuel cfg 0 ic mc' w2 = (OutOfFuel, w3) ∨
       search_loop fuel cfg 0 ic mc' w2 = (Raise IndexError, w3)).
Proof.
  intros Hwf H1 fuel. induction fuel as [|fuel IH]; intros ic mc' w2 Ht Hic;
    rewrite search_loop_unfold; destruct (Nat.ltb_spec ic (max_iterations cfg));
    try lia.
  - exists w2. auto.
  - destruct (iteration cfg 0 mc' w2) as [out w3] eqn:H2.
    destruct (guard_repeats _ _ _ _ _ _ _ _ Hwf H1 Ht H2)
      as ([-> | ->] & Ht3 & Hc3 & _ & Htr3).
    + destruct (IH ic mc' w3 Ht3 Hic) as (w4 & Ht4 & Hc4 & Htr4 & Hout).
      exists w4. rewrite Hc4, Htr4. auto.
    + exists w3. auto.
Qed.

(** ** The shape of the tree along a run *)

Lemma pass_wf w out w' : tree_wf (nodes w) → pass w out w' → tree_wf (nodes w').
Proof.
  intros Hwf Hp. destruct Hp as
    [out w' Ht _ _ _
    |node msg oks w' _ _ Ht _ _
    |node s1 s2 w' Hn Hv _ Ht _ _
    |node t2 gens node' msg w' Hn Hexp _ _ Ht _ _
    |node t2 gens node' sc evs rest mc' w' Hn Hexp _ _ _ Hb _]; rewrite ?Ht; try assumption.
  - apply expand_wf; assumption.
  - eapply expansion_of_wf; eassumption.
  - eapply bumped_wf; [|exact Hb]. eapply expansion_of_wf; eassumption.
Qed.

Lemma fresh_tree_wf : tree_wf fresh_tree.
Proof.
  split; [eexists; split; reflexivity|].
  intros [|i] nd Hi; [|destruct i; discriminate]. injection Hi as <-. cbn.
  split; [discriminate|]. split; [reflexivity|].
  intros c Hc. apply elem_of_nil in Hc. contradiction.
Qed.

(** An induction principle for the states of a run: a property of
    worlds that every kind of pass keeps holds all along. *)
Lemma reaches_keeps cfg (I : World → Prop) :
  (∀ w out w', tree_wf (nodes w) → I w → pass w out w' → I w') →
  ∀ w w', tree_wf (nodes w) → I w → reaches cfg w w' →
    tree_wf (nodes w') ∧ I w'.
Proof.
  intros Hstep w w' Hwf HI Hr. induction Hr as [w|w mc r w1 w2 Hit _ IH|w mc out w1 Hit].
  - auto.
  - apply iteration_pass in Hit; [|assumption].
    apply IH; [eapply pass_wf | eapply Hstep]; eassumption.
  - apply iteration_pass in Hit; [|assumption].
    split; [eapply pass_wf | eapply Hstep]; eassumption.
Qed.

Lemma search_loop_reaches fuel cfg ic mc w out w' :
  search_loop fuel cfg 0 ic mc w = (out, w') → reaches cfg w w'.
Proof.
  revert ic mc w. induction fuel as [|fuel IH]; intros ic mc w;
    rewrite search_loop_unfold; destruct (ic <? max_iterations cfg);
    try (intros [= <- <-]; apply reaches_here).
  destruct (iteration cfg 0 mc w) as [[[mc'|]|e|] w1] eqn:Hit.
  - intros H. eapply reaches_next; [exact Hit|]. eapply IH, H.
  - intros H. eapply reaches_next; [exact Hit|]. eapply IH, H.
  - intros [= <- <-]. eapply reaches_stop, Hit.
  - intros [= <- <-]. eapply reaches_stop, Hit.
Qed.

Lemma generate_scene_inv fuel cfg w out w' :
  generate_scene fuel cfg w = (out, w') →
  ∃ lout, search_loop fuel cfg 0 0 0 (with_nodes fresh_tree w) = (lout, w') ∧
    match lout with
    | Ret _ =>
        out = Ret (match select_best_child 0 (of_lit 141 2) (nodes w') with
                   | Some best_node => state (nodes w' !!! best_node)
                   | None => None
                   end)
    | Raise e => out = Raise e
    | OutOfFuel => out = OutOfFuel
    end.
Proof.
  unfold generate_scene. rewrite bind_run. cbn [modify_nodes]. rewrite bind_run.
  change (mkWorld _ (cache w) (rng w) (llm w) (trace w)) with (with_nodes fresh_tree w).
  destruct (search_loop _ _ _ _ _ _) as [[ic|e|] w1].
  - rewrite bind_run. cbn [get_nodes].
    destruct (select_best_child _ _ _) eqn:E; intros [= <- <-]; eexists;
      (split; [reflexivity|]); cbn; rewrite E; reflexivity.
  - intros [= <- <-]. eexists; split; reflexivity.
  - intros [= <- <-]. eexists; split; reflexivity.
Qed.

Lemma generate_scene_reaches fuel cfg w out w' :
  generate_scene fuel cfg w = (out, w') →
  reaches cfg (with_nodes fresh_tree w) w'.
Proof.
  intros H. apply generate_scene_inv in H as (lout & H & _).
  eapply search_loop_reaches, H.
Qed.

(** ** Visit counters and backpropagation passes *)

Lemma passes_through_app n evs evs' :
  passes_through n (evs ++ evs') = passes_through n evs + passes_through n evs'.
Proof.
  induction evs as [|[| |walk sc] evs IH]; cbn; try assumption; [reflexivity|].
  rewrite IH. lia.
Qed.

Lemma passes_app evs evs' : passes (evs ++ evs') = passes evs + passes evs'.
Proof.
  induction evs as [|[| |walk sc] evs IH]; cbn; try assumption; [reflexivity|].
  rewrite IH. reflexivity.
Qed.

Lemma passes_through_quiet n evs : Forall quiet evs → passes_through n evs = 0.
Proof.
  induction 1 as [|[| |walk sc] evs Hq _ IH]; cbn; try assumption; [reflexivity|].
  destruct Hq.
Qed.

Lemma passes_quiet evs : Forall quiet evs → passes evs = 0.
Proof.
  induction 1 as [|[| |walk sc] evs Hq _ IH]; cbn; try assumption; [reflexivity|].
  destruct Hq.
Qed.

Lemma backprop_in_app_quiet walk sc evs new :
  Forall quiet new → EvBackprop walk sc ∈ evs ++ new → EvBackprop walk sc ∈ evs.
Proof.
  intros Hq Hin. apply elem_of_app in Hin as [Hin|Hin]; [exact Hin|].
  rewrite Forall_forall in Hq. destruct (Hq _ Hin).
Qed.

Lemma is_walk_bound (t : list MCTSNode) walk :
  is_walk t walk → Forall (λ m, m < length t) walk.
Proof.
  induction walk as [|n rest IH]; [constructor|].
  intros [Hn Hrest]. constructor; [exact Hn|].
  destruct rest as [|m rest']; [constructor|]. apply IH, Hrest.
Qed.

Lemma passes_through_out (t : list MCTSNode) evs n :
  (∀ walk sc, EvBackprop walk sc ∈ evs → is_walk t walk) →
  length t ≤ n → passes_through n evs = 0.
Proof.
  intros Hw Hn. induction evs as [|[| |walk sc] evs IH]; cbn; [reflexivity|..].
  - apply IH. intros ? ? Hin. eapply Hw. right. exact Hin.
  - apply IH. intros ? ? Hin. eapply Hw. right. exact Hin.
  - rewrite IH by (intros ? ? Hin; eapply Hw; right; exact Hin).
    rewrite bool_decide_eq_false_2; [reflexivity|].
    intros Hin. specialize (Hw walk sc ltac:(left)).
    apply is_walk_bound in Hw. rewrite Forall_forall in Hw. specialize (Hw _ Hin). lia.
Qed.

Lemma counted_quiet evs new (t : list MCTSNode) :
  counted evs t → Forall quiet new → counted (evs ++ new) t.
Proof.
  intros [Hv Hw] Hq. split.
  - intros n nd Hn. rewrite passes_through_app, (passes_through_quiet _ _ Hq).
    rewrite Nat.add_0_r. eauto.
  - intros walk sc Hin. eapply Hw, backprop_in_app_quiet; eassumption.
Qed.

Lemma counted_expand evs self sts (t : list MCTSNode) :
  counted evs t → self < length t → counted evs (expand self sts t).
Proof.
  intros [Hv Hw] Hself. apply list_lookup_lookup_total_lt in Hself as Hnd.
  destruct (expand_spec self sts t _ Hnd) as (Hlen & Hs & Hnew & Hold).
  split.
  - intros n nd Hn. destruct (decide (n < length t)) as [Hlt|Hge].
    + destruct (expand_total self sts t n Hself Hlt) as (_ & _ & Hvis & _).
      rewrite (list_lookup_total_correct _ _ _ Hn) in Hvis. rewrite Hvis.
      apply Hv, list_lookup_lookup_total_lt, Hlt.
    + rewrite (passes_through_out t) by (assumption || lia).
      assert (Hlt' : n < length t + length sts).
      { rewrite <- Hlen. eapply lookup_lt_Some, Hn. }
      destruct (lookup_lt_is_Some_2 sts (n - length t) ltac:(lia)) as [st Hst].
      specialize (Hnew _ _ Hst). replace (length t + (n - length t)) with n in Hnew by lia.
      rewrite Hnew in Hn. injection Hn as <-. reflexivity.
  - intros walk sc Hin. eapply is_walk_ext; [|eapply Hw, Hin].
    intros i Hi. split; [rewrite Hlen; lia|].
    apply (expand_total self sts t i Hself Hi).
Qed.

Lemma counted_bump evs walk sc (t t' : list MCTSNode) :
  counted evs t → is_walk t walk → bumped t walk sc t' →
  counted (evs ++ [EvBackprop walk sc]) t'.
Proof.
  intros [Hv Hw] Hwalk Hb.
  assert (Hext : ∀ wk, is_walk t wk → is_walk t' wk).
  { intros wk. apply is_walk_ext. intros i Hi. split; [rewrite (proj1 Hb); exact Hi|].
    apply (bumped_total _ _ _ _ i Hb Hi). }
  split.
  - intros n nd' Hn.
    assert (Hlt : n < length t) by (rewrite <- (proj1 Hb); eapply lookup_lt_Some, Hn).
    destruct (bumped_total _ _ _ _ n Hb Hlt) as (_ & _ & _ & Hvis).
    rewrite (list_lookup_total_correct _ _ _ Hn) in Hvis.
    rewrite Hvis, passes_through_app. cbn.
    rewrite (Hv n (t !!! n)) by (apply list_lookup_lookup_total_lt, Hlt). lia.
  - intros wk sc' Hin. apply Hext.
    apply elem_of_app in Hin as [Hin|Hin]; [eapply Hw, Hin|].
    apply list_elem_of_singleton in Hin. injection Hin as -> _. exact Hwalk.
Qed.

Lemma expansion_of_quiet (t t2 : list MCTSNode) node gens node' :
  expansion_of t node t2 gens node' → Forall quiet gens.
Proof.
  intros [(_ & _ & -> & _)|(_ & _ & s1 & s2 & _ & -> & _)]; repeat constructor.
Qed.

Lemma simulation_of_quiet c st sc c' evs :
  simulation_of c st sc c' evs → Forall quiet evs.
Proof.
  intros [(_ & _ & ->)|[(_ & _ & _ & _ & ->)|(_ & _ & _ & ->)]]; repeat constructor.
Qed.

Lemma counted_expansion_of evs (t t2 : list MCTSNode) node gens node' :
  counted evs t → node < length t → expansion_of t node t2 gens node' →
  counted (evs ++ gens) t2.
Proof.
  intros Hc Hn Hexp. apply counted_quiet; [|eapply expansion_of_quiet, Hexp].
  destruct Hexp as [(_ & -> & _)|(_ & _ & s1 & s2 & -> & _)]; [exact Hc|].
  apply counted_expand; assumption.
Qed.

Lemma pass_counted tr0 w out w' :
  tree_wf (nodes w) →
  (∃ evs, trace w = tr0 ++ evs ∧ counted evs (nodes w)) →
  pass w out w' →
  ∃ evs, trace w' = tr0 ++ evs ∧ counted evs (nodes w').
Proof.
  intros Hwf (evs & Htr & Hc) Hp. destruct Hp as
    [out w' Ht _ Htr' _
    |node msg oks w' _ _ Ht _ Htr'
    |node s1 s2 w' Hn Hv _ Ht _ Htr'
    |node t2 gens node' msg w' Hn Hexp _ _ Ht _ Htr'
    |node t2 gens node' sc sevs rest mc' w' Hn Hexp Hsim Hwalk _ Hb Htr'];
    rewrite Htr', Htr, ?Ht.
  - exists evs. auto.
  - eexists. rewrite <- app_assoc. split; [reflexivity|].
    apply counted_quiet; [exact Hc|]. apply Forall_app. split; [|repeat constructor].
    apply Forall_fmap, Forall_forall. intros; exact I.
  - eexists. rewrite <- app_assoc. split; [reflexivity|].
    apply counted_quiet; [|repeat constructor]. apply counted_expand; assumption.
  - eexists. rewrite <- app_assoc. split; [reflexivity|]. rewrite app_assoc.
    apply counted_quiet; [|repeat constructor].
    eapply counted_expansion_of; eassumption.
  - eexists. rewrite <- app_assoc. split; [reflexivity|]. rewrite !app_assoc.
    eapply counted_bump; [|exact Hwalk|exact Hb].
    apply counted_quiet; [|eapply simulation_of_quiet, Hsim].
    eapply counted_expansion_of; eassumption.
Qed.

Lemma is_walk_sorted (t : list MCTSNode) n rest :
  tree_wf t → is_walk t (n :: rest) → Forall (λ m, m < n) rest.
Proof.
  intros [_ Hall]. revert n. induction rest as [|m rest IH]; intros n Hw; [constructor|].
  destruct Hw as (Hn & Hp & Hrest).
  apply list_lookup_lookup_total_lt in Hn.
  destruct (Hall _ _ Hn) as (Hpar & _ & _). destruct (Hpar m Hp) as [Hlt _].
  constructor; [exact Hlt|]. eapply Forall_impl; [apply IH, Hrest|]. cbn. lia.
Qed.

Lemma is_walk_to_root (t : list MCTSNode) walk :
  tree_wf t → is_walk t walk → last walk = Some 0 ∧ NoDup walk.
Proof.
  intros Hwf. induction walk as [|n rest IH]; [intros []|]. intros Hw.
  pose proof (is_walk_sorted t n rest Hwf Hw) as Hsorted.
  destruct Hw as [Hn Hrest]. destruct rest as [|m rest'].
  - apply list_lookup_lookup_total_lt in Hn. destruct Hwf as [_ Hall].
    destruct (Hall _ _ Hn) as (_ & Hnone & _). rewrite (Hnone Hrest).
    split; [reflexivity|]. apply NoDup_singleton.
  - destruct (IH (proj2 Hrest)) as [Hlast Hnd]. split; [exact Hlast|].
    constructor; [|exact Hnd]. intros Hin.
    rewrite Forall_forall in Hsorted. specialize (Hsorted _ Hin). lia.
Qed.

Lemma passes_through_root (t : list MCTSNode) evs :
  tree_wf t → (∀ walk sc, EvBackprop walk sc ∈ evs → is_walk t walk) →
  passes_through 0 evs = passes evs.
Proof.
  intros Hwf Hw. induction evs as [|[| |walk sc] evs IH]; cbn; [reflexivity|..].
  - apply IH. intros ? ? Hin. eapply Hw. right. exact Hin.
  - apply IH. intros ? ? Hin. eapply Hw. right. exact Hin.
  - rewrite IH by (intros ? ? Hin; eapply Hw; right; exact Hin).
    rewrite bool_decide_eq_true_2; [reflexivity|].
    destruct (is_walk_to_root t walk Hwf (Hw walk sc ltac:(left))) as [Hlast _].
    apply last_Some in Hlast as [l' ->]. apply elem_of_app. right. left.
Qed.

Lemma expansion_of_keeps_stats (t t2 : list MCTSNode) node gens node' :
  node < length t → expansion_of t node t2 gens node' →
  ∀ n nd, t !! n = Some nd →
    ∃ nd', t2 !! n = Some nd' ∧ visits nd' = visits nd ∧ score nd' = score nd.
Proof.
  intros Hnode [(_ & -> & _)|(_ & _ & s1 & s2 & -> & _)] n nd Hn; [eauto|].
  apply list_lookup_lookup_total_lt in Hnode as Hnd.
  destruct (expand_spec node [s1; s2] t _ Hnd) as (_ & Hself & _ & Hold).
  destruct (decide (n = node)) as [->|Hne].
  - eexists. split; [exact Hself|]. cbn.
    rewrite (list_lookup_total_correct _ _ _ Hn). auto.
  - exists nd. rewrite Hold; [auto|eapply lookup_lt_Some, Hn|exact Hne].
Qed.

(** What one pass through the loop body does to the counters, read off
    the tree and not off the log: a pass that reaches
    [iteration_count += 1] has simulated one node, the selected one or
    the child chosen after its expansion, and has added one visit and
    the score to that node and to each of its ancestors up to the root,
    and to no other node; any other pass leaves every counter as it
    was. *)
Lemma iteration_counts cfg mc w out w' :
  tree_wf (nodes w) → iteration cfg 0 mc w = (out, w') →
  match out with
  | Ret (Some _) =>
      ∃ node t2 gens node' sc sevs rest,
        expansion_of (nodes w) node t2 gens node' ∧
        simulation_of (cache w) (state (t2 !!! node')) sc (cache w') sevs ∧
        is_walk t2 (node' :: rest) ∧
        last (node' :: rest) = Some 0 ∧ NoDup (node' :: rest) ∧
        bumped t2 (node' :: rest) sc (nodes w') ∧
        trace w' = trace w ++ gens ++ sevs ++ [EvBackprop (node' :: rest) sc]
  | _ =>
      (∃ new, trace w' = trace w ++ new ∧ Forall quiet new) ∧
      ∀ n nd, nodes w !! n = Some nd →
        ∃ nd', nodes w' !! n = Some nd' ∧
               visits nd' = visits nd ∧ score nd' = score nd
  end.
Proof.
  intros Hwf Hit. apply iteration_pass in Hit; [|exact Hwf].
  destruct Hit as
    [out w' Ht _ Htr Hout
    |node msg oks w' _ _ Ht _ Htr
    |node s1 s2 w' Hn Hv Hleaf Ht _ Htr
    |node t2 gens node' msg w' Hn Hexp _ _ Ht _ Htr
    |node t2 gens node' sc sevs rest mc' w' Hn Hexp Hsim Hwalk _ Hb Htr].
  - assert (Hidle : (∃ new, trace w' = trace w ++ new ∧ Forall quiet new) ∧
              ∀ n nd, nodes w !! n = Some nd →
                ∃ nd', nodes w' !! n = Some nd' ∧
                       visits nd' = visits nd ∧ score nd' = score nd).
    { split; [exists []; rewrite app_nil_r; auto|]. rewrite Ht. eauto. }
    destruct Hout as [-> | ->]; exact Hidle.
  - split; [|rewrite Ht; eauto]. eexists. split; [exact Htr|].
    apply Forall_app. split; [|repeat constructor].
    apply Forall_fmap, Forall_forall. intros; exact I.
  - split; [eexists; split; [exact Htr|repeat constructor]|]. rewrite Ht.
    apply (expansion_of_keeps_stats _ _ node
             [EvGenerate (inr s1); EvGenerate (inr s2)] (length (nodes w)) Hn).
    right. split; [exact Hv|]. split; [exact Hleaf|]. exists s1, s2. auto.
  - split; [|rewrite Ht; eapply expansion_of_keeps_stats; eassumption].
    eexists. split; [exact Htr|]. apply Forall_app.
    split; [eapply expansion_of_quiet, Hexp|repeat constructor].
  - destruct (expansion_of_wf _ _ _ _ _ Hwf Hn Hexp) as [Hwf2 _].
    destruct (is_walk_to_root _ _ Hwf2 Hwalk) as [Hlast Hnd].
    exists node, t2, gens, node', sc, sevs, rest. auto 10.
Qed.

(** ** Finished passes and the budget *)

Lemma iteration_ends cfg mc w :
  tree_wf (nodes w) → (iteration cfg 0 mc w).1 ≠ OutOfFuel.
Proof.
  intros Hwf. destruct (iteration cfg 0 mc w) as [out w'] eqn:Hit. cbn [fst].
  apply iteration_pass in Hit; [|exact Hwf].
  destruct Hit as [out w' _ _ _ [-> | ->]| | | |]; discriminate.
Qed.

Lemma pass_passes w out w' :
  pass w out w' →
  ∃ new, trace w' = trace w ++ new ∧
    passes new = match out with Ret (Some _) => 1 | _ => 0 end.
Proof.
  intros Hp. destruct Hp as
    [out w' _ _ Htr' Hout
    |node msg oks w' _ _ _ _ Htr'
    |node s1 s2 w' _ _ _ _ _ Htr'
    |node t2 gens node' msg w' _ Hexp _ _ _ _ Htr'
    |node t2 gens node' sc sevs rest mc' w' _ Hexp Hsim _ _ _ Htr'];
    rewrite Htr'; eexists; (split; [try reflexivity|]).
  - rewrite app_nil_r. reflexivity.
  - destruct Hout as [-> | ->]; reflexivity.
  - rewrite passes_app. cbn. rewrite Nat.add_0_r. apply passes_quiet.
    apply Forall_fmap, Forall_forall. intros; exact I.
  - reflexivity.
  - rewrite passes_app. cbn. rewrite Nat.add_0_r. apply passes_quiet.
    eapply expansion_of_quiet, Hexp.
  - rewrite !passes_app. cbn.
    rewrite (passes_quiet gens) by (eapply expansion_of_quiet, Hexp).
    rewrite (passes_quiet sevs) by (eapply simulation_of_quiet, Hsim). reflexivity.
Qed.

(** The counter is the number of finished passes: a run never finishes
    more passes than its budget, and one that leaves the loop normally
    has finished exactly that many. *)
Lemma search_loop_passes fuel cfg ic mc w out w' :
  tree_wf (nodes w) → ic ≤ max_iterations cfg →
  search_loop fuel cfg 0 ic mc w = (out, w') →
  ∃ new, trace w' = trace w ++ new ∧
    ic + passes new ≤ max_iterations cfg ∧
    (∀ ic', out = Ret ic' → ic' = max_iterations cfg ∧ ic + passes new = ic').
Proof.
  revert ic mc w. induction fuel as [|fuel IH]; intros ic mc w Hwf Hic;
    rewrite search_loop_unfold; destruct (Nat.ltb_spec ic (max_iterations cfg));
    try (intros [= <- <-]; exists []; rewrite app_nil_r; cbn;
         split; [reflexivity|]; split; [lia|]; intros ic' [= <-]; lia);
    try (intros [= <- <-]; exists []; rewrite app_nil_r; cbn;
         split; [reflexivity|]; split; [lia|]; discriminate).
  destruct (iteration cfg 0 mc w) as [itout w1] eqn:Hit.
  apply iteration_pass in Hit; [|exact Hwf].
  pose proof (pass_wf _ _ _ Hwf Hit) as Hwf1.
  apply pass_passes in Hit as (new1 & Htr1 & Hp1).
  destruct itout as [[mc'|]|e|].
  - intros H'. apply IH in H' as (new2 & Htr2 & Hle & Hret); [|exact Hwf1|lia].
    exists (new1 ++ new2). rewrite Htr2, Htr1, app_assoc, passes_app, Hp1.
    split; [reflexivity|]. split; [lia|].
    intros ic' Hout. destruct (Hret ic' Hout). lia.
  - intros H'. apply IH in H' as (new2 & Htr2 & Hle & Hret); [|exact Hwf1|lia].
    exists (new1 ++ new2). rewrite Htr2, Htr1, app_assoc, passes_app, Hp1.
    split; [reflexivity|]. split; [lia|].
    intros ic' Hout. destruct (Hret ic' Hout). lia.
  - intros [= <- <-]. exists new1. rewrite Hp1. split; [exact Htr1|].
    split; [lia|]. discriminate.
  - intros [= <- <-]. exists new1. rewrite Hp1. split; [exact Htr1|].
    split; [lia|]. discriminate.
Qed.

Lemma finished_passes_bounded fuel cfg w :
  ∃ evs, trace (generate_scene fuel cfg w).2 = trace w ++ evs ∧
    passes evs ≤ max_iterations cfg ∧
    (∀ r, (generate_scene fuel cfg w).1 = Ret r → passes evs = max_iterations cfg).
Proof.
  destruct (generate_scene fuel cfg w) as [out w'] eqn:Hrun. cbn [fst snd].
  apply generate_scene_inv in Hrun as (lout & Hloop & Hout).
  apply search_loop_passes in Hloop as (new & Htr & Hle & Hret);
    [|apply fresh_tree_wf|lia].
  exists new. split; [exact Htr|]. split; [exact Hle|].
  intros r ->. destruct lout as [ic|e|]; try discriminate.
  destruct (Hret ic eq_refl). lia.
Qed.

(** ** Model calls and the outcome of a run *)

Lemma expansion_of_no_failure (t t2 : list MCTSNode) node gens node' :
  expansion_of t node t2 gens node' → no_failure gens.
Proof.
  intros [(_ & _ & -> & _)|(_ & _ & s1 & s2 & _ & -> & _)]; repeat constructor.
Qed.

Lemma simulation_of_no_failure c st sc c' evs :
  simulation_of c st sc c' evs → no_failure evs.
Proof.
  intros [(_ & _ & ->)|[(_ & _ & _ & _ & ->)|(_ & _ & _ & ->)]]; repeat constructor.
Qed.

Lemma pass_failure_shape w out w' :
  pass w out w' → ∃ new, trace w' = trace w ++ new ∧ failure_shape out new.
Proof.
  intros Hp. destruct Hp as
    [out w' _ _ Htr' Hout
    |node msg oks w' _ _ _ _ Htr'
    |node s1 s2 w' _ _ _ _ _ Htr'
    |node t2 gens node' msg w' _ Hexp _ _ _ _ Htr'
    |node t2 gens node' sc sevs rest mc' w' _ Hexp Hsim _ _ _ Htr'];
    rewrite Htr'.
  - exists []. rewrite app_nil_r. split; [reflexivity|].
    destruct Hout as [-> | ->]; constructor.
  - eexists. split; [reflexivity|]. exists ((λ st, EvGenerate (inr st)) <$> oks).
    eexists. split; [reflexivity|]. split; [|reflexivity].
    apply Forall_fmap, Forall_forall. reflexivity.
  - eexists. split; [reflexivity|]. repeat constructor.
  - eexists. split; [reflexivity|]. exists gens. eexists. split; [reflexivity|].
    split; [eapply expansion_of_no_failure, Hexp | reflexivity].
  - eexists. split; [reflexivity|]. cbn. apply Forall_app. split.
    + eapply expansion_of_no_failure, Hexp.
    + apply Forall_app. split; [eapply simulation_of_no_failure, Hsim|].
      repeat constructor.
Qed.

Lemma failure_shape_app {A B} (r : A) (out : Outcome B) new1 new2 :
  failure_shape (Ret r) new1 → failure_shape out new2 →
  failure_shape out (new1 ++ new2).
Proof.
  cbn. intros H1 H2. destruct out as [b|[msg| | | |]|]; cbn in *;
    try (apply Forall_app; split; assumption); try contradiction.
  destruct H2 as (oks & ev & -> & Hoks & Hev).
  exists (new1 ++ oks), ev. rewrite app_assoc. split; [reflexivity|].
  split; [apply Forall_app; split; assumption | exact Hev].
Qed.

Lemma search_loop_failure_shape fuel cfg ic mc w out w' :
  tree_wf (nodes w) → search_loop fuel cfg 0 ic mc w = (out, w') →
  ∃ new, trace w' = trace w ++ new ∧ failure_shape out new.
Proof.
  revert ic mc w. induction fuel as [|fuel IH]; intros ic mc w Hwf;
    rewrite search_loop_unfold; destruct (ic <? max_iterations cfg);
    try (intros [= <- <-]; exists []; rewrite app_nil_r; split; [reflexivity|constructor]).
  destruct (iteration cfg 0 mc w) as [itout w1] eqn:Hit.
  apply iteration_pass in Hit; [|exact Hwf].
  pose proof (pass_wf _ _ _ Hwf Hit) as Hwf1.
  apply pass_failure_shape in Hit as (new1 & Htr1 & Hsh1).
  destruct itout as [[mc'|]|e|].
  - intros H. apply IH in H as (new2 & Htr2 & Hsh2); [|exact Hwf1].
    exists (new1 ++ new2). rewrite Htr2, Htr1, app_assoc. split; [reflexivity|].
    eapply failure_shape_app; eassumption.
  - intros H. apply IH in H as (new2 & Htr2 & Hsh2); [|exact Hwf1].
    exists (new1 ++ new2). rewrite Htr2, Htr1, app_assoc. split; [reflexivity|].
    eapply failure_shape_app; eassumption.
  - intros [= <- <-]. exists new1. split; [exact Htr1|]. exact Hsh1.
  - intros [= <- <-]. exists new1. split; [exact Htr1|]. exact Hsh1.
Qed.

Lemma generate_scene_failure_shape fuel cfg w :
  ∃ new, trace (generate_scene fuel cfg w).2 = trace w ++ new ∧
         failure_shape (generate_scene fuel cfg w).1 new.
Proof.
  destruct (generate_scene fuel cfg w) as [out w'] eqn:Hrun. cbn [fst snd].
  apply generate_scene_inv in Hrun as (lout & Hloop & Hout).
  apply search_loop_failure_shape in Hloop as (new & Htr & Hsh); [|apply fresh_tree_wf].
  exists new. split; [exact Htr|].
  destruct lout as [ic|e|]; subst out; exact Hsh.
Qed.

(** C5. After every run of [generate_scene], however it ended, the log
    of the run gives the counters: the [visits] of a node is the number
    of finished backpropagation passes that went through it, and the
    [visits] of the root is the number of finished passes, which is
    [max_iterations] when the run returns.  Each pass starts at the
    simulated node, follows the parent links, visits no node twice and
    ends at the root.  The passes of the log are those of the
    iterations that reached [iteration_count += 1]: such an iteration,
    from any state of the run, logs one pass, whose walk starts at the
    node it simulated (the one whose state was scored), and has added
    one visit and the score to each node of the walk and to no other;
    an iteration of any other outcome logs no pass and moves no
    counter. *)
Theorem visits_count_backpropagation_passes fuel cfg w :
  (∃ evs, trace (generate_scene fuel cfg w).2 = trace w ++ evs ∧
     (∀ n nd, nodes (generate_scene fuel cfg w).2 !! n = Some nd →
        visits nd = passes_through n evs) ∧
     (∀ r, nodes (generate_scene fuel cfg w).2 !! 0 = Some r →
        visits r = passes evs) ∧
     (∀ walk sc, EvBackprop walk sc ∈ evs →
        is_walk (nodes (generate_scene fuel cfg w).2) walk ∧
        last walk = Some 0 ∧ NoDup walk) ∧
     (∀ r, (generate_scene fuel cfg w).1 = Ret r → passes evs = max_iterations cfg)) ∧
  (∀ w1 mc out w2,
     reaches cfg (with_nodes fresh_tree w) w1 →
     iteration cfg 0 mc w1 = (out, w2) →
     match out with
     | Ret (Some _) =>
         ∃ node t2 gens node' sc sevs rest,
           expansion_of (nodes w1) node t2 gens node' ∧
           simulation_of (cache w1) (state (t2 !!! node')) sc (cache w2) sevs ∧
           is_walk t2 (node' :: rest) ∧
           last (node' :: rest) = Some 0 ∧ NoDup (node' :: rest) ∧
           bumped t2 (node' :: rest) sc (nodes w2) ∧
           trace w2 = trace w1 ++ gens ++ sevs ++ [EvBackprop (node' :: rest) sc]
     | _ =>
         (∃ new, trace w2 = trace w1 ++ new ∧ Forall quiet new) ∧
         ∀ n nd, nodes w1 !! n = Some nd →
           ∃ nd', nodes w2 !! n = Some nd' ∧
                  visits nd' = visits nd ∧ score nd' = score nd
     end).
Proof.
  split.
  - destruct (finished_passes_bounded fuel cfg w) as (evs' & Htr' & _ & Hbound).
    destruct (generate_scene fuel cfg w) as [out w'] eqn:Hrun. cbn [fst snd] in *.
    apply generate_scene_reaches in Hrun.
    apply (reaches_keeps cfg
             (λ w', ∃ evs, trace w' = trace w ++ evs ∧ counted evs (nodes w')))
      in Hrun as [Hwf (evs & Htr & Hv & Hw)].
    + rewrite Htr in Htr'. apply app_inv_head in Htr'. subst evs'.
      exists evs. split; [exact Htr|]. split; [exact Hv|]. split; [|split].
      * intros r Hr. rewrite (Hv 0 r Hr). eapply passes_through_root; eassumption.
      * intros walk sc Hin. split; [eapply Hw, Hin|].
        eapply is_walk_to_root; [exact Hwf|]. eapply Hw, Hin.
      * intros r Hout'. exact (Hbound r Hout').
    + intros w1 out1 w2 Hwf1 HI Hp. eapply pass_counted; eassumption.
    + apply fresh_tree_wf.
    + exists []. cbn. rewrite app_nil_r. split; [reflexivity|]. split.
      * intros [|n] nd Hn; [|destruct n; discriminate]. injection Hn as <-. reflexivity.
      * intros walk sc Hin. apply elem_of_nil in Hin. contradiction.
  - intros w1 mc out w2 Hr Hit.
    apply (reaches_keeps cfg (λ _, True)) in Hr as [Hwf _];
      [|auto|apply fresh_tree_wf|exact I].
    eapply iteration_counts; eassumption.
Qed.

(** ** Expansion happens once *)

Lemma children_kept_refl (t : list MCTSNode) : children_kept t t.
Proof. intros n nd Hn. eauto. Qed.

Lemma children_kept_trans (t1 t2 t3 : list MCTSNode) :
  children_kept t1 t2 → children_kept t2 t3 → children_kept t1 t3.
Proof.
  intros H12 H23 n nd Hn. destruct (H12 _ _ Hn) as (nd2 & Hn2 & Hc2).
  destruct (H23 _ _ Hn2) as (nd3 & Hn3 & Hc3). exists nd3. split; [exact Hn3|].
  intros Hne. rewrite <- (Hc2 Hne). apply Hc3. rewrite (Hc2 Hne). exact Hne.
Qed.

Lemma children_kept_expand self sts (t : list MCTSNode) :
  self < length t → children (t !!! self) = [] →
  children_kept t (expand self sts t).
Proof.
  intros Hself Hleaf n nd Hn.
  apply list_lookup_lookup_total_lt in Hself as Hnd.
  destruct (expand_spec self sts t _ Hnd) as (_ & Hs & _ & Hold).
  destruct (decide (n = self)) as [->|Hne].
  - eexists. split; [exact Hs|]. intros Hc.
    rewrite (list_lookup_total_correct _ _ _ Hn) in Hleaf. contradiction.
  - exists nd. split; [|reflexivity]. rewrite Hold; [exact Hn| |exact Hne].
    eapply lookup_lt_Some, Hn.
Qed.

Lemma children_kept_bumped (t t' : list MCTSNode) walk sc :
  bumped t walk sc t' → children_kept t t'.
Proof.
  intros [_ Hb] n nd Hn. destruct (Hb _ _ Hn) as (nd' & Hn' & _ & _ & Hc & _).
  exists nd'. auto.
Qed.

Lemma children_kept_expansion_of (t t2 : list MCTSNode) node gens node' :
  node < length t → expansion_of t node t2 gens node' → children_kept t t2.
Proof.
  intros Hn [(_ & -> & _)|(_ & Hleaf & s1 & s2 & -> & _)].
  - apply children_kept_refl.
  - apply children_kept_expand; assumption.
Qed.

Lemma pass_children_kept w out w' :
  pass w out w' → children_kept (nodes w) (nodes w').
Proof.
  intros Hp. destruct Hp as
    [out w' Ht _ _ _
    |node msg oks w' _ _ Ht _ _
    |node s1 s2 w' Hn _ Hleaf Ht _ _
    |node t2 gens node' msg w' Hn Hexp _ _ Ht _ _
    |node t2 gens node' sc sevs rest mc' w' Hn Hexp _ _ _ Hb _]; rewrite ?Ht.
  - apply children_kept_refl.
  - apply children_kept_refl.
  - apply children_kept_expand; assumption.
  - eapply children_kept_expansion_of; eassumption.
  - eapply children_kept_trans; [eapply children_kept_expansion_of; eassumption|].
    eapply children_kept_bumped, Hb.
Qed.

(** C7. [expand] on a node of the arena allocates one node per state,
    in the order of the states: the node allocated for the [i]-th state
    [st] has [st] as its state, the expanded node as its parent, no
    children, and counters and [uct] at 0.  [expand] appends the
    references of the new nodes, in that order, to the children of the
    node and touches no other node (being a function of the tree alone
    it touches nothing else).  Between two states of a run no node
    disappears, and a node that has children keeps exactly those: its
    children are populated once. *)
Theorem expand_once_per_node :
  (∀ self sts (t : list MCTSNode) nd, t !! self = Some nd →
     length (expand self sts t) = length t + length sts ∧
     expand self sts t !! self =
       Some (mkNode (state nd) (parent nd)
               (children nd ++ seq (length t) (length sts))
               (visits nd) (score nd) (uct nd)) ∧
     (∀ i st, sts !! i = Some st →
        expand self sts t !! (length t + i) =
          Some (mkNode st (Some self) [] 0 0%Z (of_int 0)) ∧
        state (expand self sts t !!! (length t + i)) = st ∧
        parent (expand self sts t !!! (length t + i)) = Some self ∧
        length t + i ∈ children (expand self sts t !!! self)) ∧
     (∀ j, j < length t → j ≠ self → expand self sts t !! j = t !! j)) ∧
  (∀ cfg w0 w1 w2,
     reaches cfg (with_nodes fresh_tree w0) w1 → reaches cfg w1 w2 →
     ∀ n nd, nodes w1 !! n = Some nd →
       ∃ nd', nodes w2 !! n = Some nd' ∧
         (children nd ≠ [] → children nd' = children nd)).
Proof.
  split.
  { intros self sts t nd Hnd.
    destruct (expand_spec self sts t nd Hnd) as (Hlen & Hself & Hnew & Hold).
    split; [exact Hlen|]. split; [exact Hself|]. split; [|exact Hold].
    intros i st Hi. pose proof (Hnew i st Hi) as Hi'.
    split; [exact Hi'|]. rewrite (list_lookup_total_correct _ _ _ Hi').
    split; [reflexivity|]. split; [reflexivity|].
    rewrite (list_lookup_total_correct _ _ _ Hself). cbn [children].
    apply elem_of_app. right. apply elem_of_seq.
    apply lookup_lt_Some in Hi. lia. }
  intros cfg w0 w1 w2 H01 H12.
  apply (reaches_keeps cfg (λ _, True)) in H01 as [Hwf1 _];
    [|auto|apply fresh_tree_wf|exact I].
  apply (reaches_keeps cfg (λ w, children_kept (nodes w1) (nodes w))) in H12
    as [_ Hkept]; [exact Hkept| |exact Hwf1|apply children_kept_refl].
  intros w out w' _ Hk Hp. eapply children_kept_trans; [exact Hk|].
  eapply pass_children_kept, Hp.
Qed.

(** C10. In every state of a run each node that has a parent comes
    after it in the arena and the parent has been visited; from such a
    state the backpropagation loop started at any node ends normally
    (so no division by a zero [visits] and no logarithm of a zero
    [parent.visits] was attempted) and has left a positive [visits] on
    every node it updated; and a pass through the loop body never ends
    in [ZeroDivisionError] or [ValueError]. *)
Theorem uct_always_defined cfg w0 w :
  reaches cfg (with_nodes fresh_tree w0) w →
  (∀ n nd p, nodes w !! n = Some nd → parent nd = Some p →
     p < n ∧ 1 ≤ visits (nodes w !!! p)) ∧
  (∀ node sc, node < length (nodes w) →
     ∃ walk w', backpropagate (length (nodes w)) (Some node) sc w = (Ret walk, w') ∧
       ∀ m, m ∈ walk → 1 ≤ visits (nodes w' !!! m)) ∧
  (∀ mc, (iteration cfg 0 mc w).1 ≠ Raise ZeroDivisionError ∧
         (iteration cfg 0 mc w).1 ≠ Raise ValueError).
Proof.
  intros Hr.
  apply (reaches_keeps cfg (λ _, True)) in Hr as [Hwf _];
    [|auto|apply fresh_tree_wf|exact I].
  split; [|split].
  - intros n nd p Hn Hp. destruct Hwf as [_ Hall].
    destruct (Hall _ _ Hn) as (Hpar & _). auto.
  - intros node sc Hnode.
    destruct (backpropagate_spec (length (nodes w)) node sc w Hwf Hnode Hnode)
      as (rest & w' & Hrun & Hwalk & _ & Hb & _).
    exists (node :: rest), w'. split; [exact Hrun|].
    intros m Hm. apply is_walk_bound in Hwalk. rewrite Forall_forall in Hwalk.
    destruct (bumped_total _ _ _ _ m Hb (Hwalk _ Hm)) as (_ & _ & _ & ->).
    rewrite bool_decide_eq_true_2 by exact Hm. lia.
  - intros mc. destruct (iteration cfg 0 mc w) as [out w'] eqn:Hit. cbn [fst].
    apply iteration_pass in Hit; [|exact Hwf].
    apply pass_failure_shape in Hit as (new & _ & Hsh).
    split; intros ->; exact Hsh.
Qed.

(** ** The result cache *)

Lemma evaluate_keys_app evs evs' :
  evaluate_keys (evs ++ evs') = evaluate_keys evs ++ evaluate_keys evs'.
Proof.
  induction evs as [|[| |] evs IH]; cbn; try assumption; [reflexivity|].
  rewrite IH. reflexivity.
Qed.

Lemma evaluate_keys_generated (sts : list pystate) :
  evaluate_keys ((λ st, EvGenerate (inr st)) <$> sts) = [].
Proof. induction sts; [reflexivity|assumption]. Qed.

Lemma expansion_of_keys (t t2 : list MCTSNode) node gens node' :
  expansion_of t node t2 gens node' → evaluate_keys gens = [].
Proof. intros [(_ & _ & -> & _)|(_ & _ & s1 & s2 & _ & -> & _)]; reflexivity. Qed.

Lemma keys_cached_snoc evs c k v :
  keys_cached evs c → c !! k = None →
  NoDup (evaluate_keys evs ++ [k]) ∧
  ∀ k', k' ∈ evaluate_keys evs ++ [k] → is_Some (<[k:=v]> c !! k').
Proof.
  intros [Hnd Hc] Hk. split.
  - apply NoDup_app. split; [exact Hnd|]. split; [|apply NoDup_singleton].
    intros x Hx Hin. apply list_elem_of_singleton in Hin as ->.
    destruct (Hc _ Hx) as [? ?]. congruence.
  - intros k' Hin. apply lookup_insert_is_Some'.
    apply elem_of_app in Hin as [Hin|Hin]; [right; auto|].
    apply list_elem_of_singleton in Hin. left. congruence.
Qed.

Lemma pass_keys tr0 evs w out w' :
  trace w = tr0 ++ evs → keys_cached evs (cache w) → pass w out w' →
  ∃ evs', trace w' = tr0 ++ evs' ∧ NoDup (evaluate_keys evs') ∧
    (∀ r, out = Ret r → keys_cached evs' (cache w')).
Proof.
  intros Htr HK Hp. pose proof HK as [Hnd Hc]. destruct Hp as
    [out w' _ Hc' Htr' _
    |node msg oks w' _ _ _ _ Htr'
    |node s1 s2 w' _ _ _ _ _ Htr'
    |node t2 gens node' msg w' _ Hexp Hk _ _ _ Htr'
    |node t2 gens node' sc sevs rest mc' w' _ Hexp Hsim _ _ _ Htr'];
    rewrite Htr', Htr, <- ?app_assoc; eexists; (split; [reflexivity|]);
    unfold keys_cached.
  - rewrite Hc'. auto.
  - rewrite !evaluate_keys_app, evaluate_keys_generated. cbn. rewrite app_nil_r.
    split; [exact Hnd|]. discriminate.
  - rewrite evaluate_keys_app. cbn. rewrite app_nil_r. split; [exact Hnd|]. discriminate.
  - rewrite !evaluate_keys_app, (expansion_of_keys _ _ _ _ _ Hexp). cbn.
    split; [|discriminate]. eapply keys_cached_snoc with (v := 0%Z); eassumption.
  - rewrite !evaluate_keys_app, (expansion_of_keys _ _ _ _ _ Hexp). cbn [app].
    destruct Hsim as [(Hk & -> & ->)|[(Hk & _ & _ & -> & ->)|(Hk & _ & -> & ->)]];
      cbn; rewrite ?app_nil_r.
    + auto.
    + split; [exact Hnd|]. intros _ _. split; [exact Hnd|].
      intros k Hin. apply lookup_insert_is_Some'. right. auto.
    + destruct (keys_cached_snoc evs (cache w) _ sc HK Hk) as [Hnd' Hc''].
      split; [exact Hnd'|]. intros _ _. split; assumption.
Qed.

Lemma reaches_keys cfg tr0 evs w w' :
  tree_wf (nodes w) → trace w = tr0 ++ evs → keys_cached evs (cache w) →
  reaches cfg w w' →
  ∃ evs', trace w' = tr0 ++ evs' ∧ NoDup (evaluate_keys evs').
Proof.
  intros Hwf Htr HK Hr. revert evs Htr HK.
  induction Hr as [w|w mc r w1 w2 Hit _ IH|w mc out w1 Hit]; intros evs Htr HK.
  - exists evs. split; [exact Htr|]. apply HK.
  - apply iteration_pass in Hit; [|exact Hwf].
    destruct (pass_keys _ _ _ _ _ Htr HK Hit) as (evs1 & Htr1 & _ & HK1).
    eapply IH; [eapply pass_wf; eassumption | exact Htr1 | eapply HK1; reflexivity].
  - apply iteration_pass in Hit; [|exact Hwf].
    destruct (pass_keys _ _ _ _ _ Htr HK Hit) as (evs1 & Htr1 & Hnd1 & _). eauto.
Qed.

Lemma simulation_of_none_key c st sc c' evs :
  c !! "None"%string = Some 0%Z → simulation_of c st sc c' evs →
  c' !! "None"%string = Some 0%Z.
Proof.
  intros H0 [(_ & -> & _)|[(Hk & _ & _ & -> & _)|(Hk & _ & -> & _)]].
  - exact H0.
  - rewrite lookup_insert_ne; [exact H0|]. intros E. rewrite E in Hk. congruence.
  - rewrite lookup_insert_ne; [exact H0|]. intros E. rewrite E in Hk. congruence.
Qed.

Lemma pass_none_key w out w' : none_key_inv w → pass w out w' → none_key_inv w'.
Proof.
  intros HJ Hp. destruct Hp as
    [out w' Ht Hc' _ _
    |node msg oks w' Hn Hv Ht Hc' _
    |node s1 s2 w' Hn Hv _ Ht Hc' _
    |node t2 gens node' msg w' Hn Hexp Hk Htru Ht Hc' _
    |node t2 gens node' sc sevs rest mc' w' Hn Hexp Hsim _ _ Hb _].
  - unfold none_key_inv. rewrite Hc', Ht. exact HJ.
  - unfold none_key_inv. rewrite Hc', Ht. exact HJ.
  - destruct HJ as [H0|[_ Hall]]; [left; rewrite Hc'; exact H0|].
    apply list_lookup_lookup_total_lt in Hn. destruct (Hall _ _ Hn). lia.
  - destruct HJ as [H0|[_ Hall]]; [left; rewrite Hc'; exact H0|].
    apply list_lookup_lookup_total_lt in Hn. destruct (Hall _ _ Hn) as [Hst Hvis].
    destruct Hexp as [(_ & -> & _ & ->)|(Hv & _)]; [|lia].
    rewrite Hst in Htru. discriminate.
  - destruct HJ as [H0|[Hnone Hall]];
      [left; eapply simulation_of_none_key; eassumption|].
    apply list_lookup_lookup_total_lt in Hn. destruct (Hall _ _ Hn) as [Hst Hvis].
    destruct Hexp as [(_ & -> & _ & ->)|(Hv & _)]; [|lia].
    rewrite Hst in Hsim. left.
    destruct Hsim as [(Hk & _)|[(_ & _ & _ & -> & _)|(_ & Htru & _)]].
    + cbn in Hk. congruence.
    + apply lookup_insert_eq.
    + discriminate.
Qed.

Lemma none_key_inv_ok w : none_key_inv w → none_key_ok (cache w).
Proof. intros [H0|[Hn _]] v Hv; congruence. Qed.

Lemma none_key_inv_fresh w :
  none_key_ok (cache w) → none_key_inv (with_nodes fresh_tree w).
Proof.
  intros Hok. unfold none_key_inv. cbn.
  destruct (cache w !! "None"%string) as [v|] eqn:Hv.
  - left. rewrite (Hok v Hv). reflexivity.
  - right. split; [reflexivity|].
    intros [|n] nd Hn; [|destruct n; discriminate]. injection Hn as <-. auto.
Qed.

Lemma simulation_phase_run node mc w :
  match cache w !! py_str (state (nodes w !!! node)) with
  | Some sc => simulation_phase node mc w = (Ret (sc, mc), w)
  | None =>
      if truthy (state (nodes w !!! node)) then
        match infer_eval (state (nodes w !!! node)) (llm w) with
        | (inl msg, l) =>
            simulation_phase node mc w =
            (Raise (LLMError msg),
             mkWorld (nodes w) (cache w) (rng w) l
               (trace w ++ [EvEvaluate (state (nodes w !!! node)) (inl msg)]))
        | (inr response, l) =>
            simulation_phase node mc w =
            (Ret (default 0%Z response, S mc),
             mkWorld (nodes w)
               (<[py_str (state (nodes w !!! node)) := default 0%Z response]> (cache w))
               (rng w) l
               (trace w ++ [EvEvaluate (state (nodes w !!! node))
                              (inr (default 0%Z response))]))
        end
      else
        simulation_phase node mc w =
        (Ret (0%Z, S mc),
         mkWorld (nodes w)
           (<[py_str (state (nodes w !!! node)) := 0%Z]> (cache w))
           (rng w) (llm w) (trace w))
  end.
Proof.
  unfold simulation_phase. rewrite bind_run. cbn [get_nodes].
  rewrite bind_run. cbn [get_cache].
  destruct (cache w !! _) as [sc|]; [reflexivity|].
  rewrite bind_run. unfold _simulate.
  destruct (truthy _); cbn [negb]; [|reflexivity].
  unfold _evaluate_scene.
  destruct (infer_eval _ _) as [[msg|response] l]; reflexivity.
Qed.

(** C6. The simulation phase on the state [st] of a node: on a cache
    hit it returns the stored score and changes nothing (no call); on a
    miss with a truthy state it calls the evaluator once, stores what
    it got under the key and returns it (if the call raises, so does
    the phase, and the cache is as before); on a miss with a falsy
    state it stores and returns 0 without a call.  A [None] state gets
    0 without a call whenever the key of [None] is unbound or bound to
    0, which holds in the empty cache and is kept by every run.  The
    evaluator calls of one run have pairwise different keys. *)
Theorem simulation_uses_cache :
  (∀ node mc w,
     match cache w !! py_str (state (nodes w !!! node)) with
     | Some sc => simulation_phase node mc w = (Ret (sc, mc), w)
     | None =>
         if truthy (state (nodes w !!! node)) then
           match infer_eval (state (nodes w !!! node)) (llm w) with
           | (inl msg, l) =>
               simulation_phase node mc w =
               (Raise (LLMError msg),
                mkWorld (nodes w) (cache w) (rng w) l
                  (trace w ++ [EvEvaluate (state (nodes w !!! node)) (inl msg)]))
           | (inr response, l) =>
               simulation_phase node mc w =
               (Ret (default 0%Z response, S mc),
                mkWorld (nodes w)
                  (<[py_str (state (nodes w !!! node)) := default 0%Z response]> (cache w))
                  (rng w) l
                  (trace w ++ [EvEvaluate (state (nodes w !!! node))
                                 (inr (default 0%Z response))]))
           end
         else
           simulation_phase node mc w =
           (Ret (0%Z, S mc),
            mkWorld (nodes w)
              (<[py_str (state (nodes w !!! node)) := 0%Z]> (cache w))
              (rng w) (llm w) (trace w))
     end) ∧
  (∀ node mc w, none_key_ok (cache w) → state (nodes w !!! node) = None →
     ∃ mc' w', simulation_phase node mc w = (Ret (0%Z, mc'), w') ∧
               trace w' = trace w ∧ llm w' = llm w) ∧
  none_key_ok ∅ ∧
  (∀ fuel cfg w, none_key_ok (cache w) →
     none_key_ok (cache (generate_scene fuel cfg w).2)) ∧
  (∀ fuel cfg w,
     ∃ evs, trace (generate_scene fuel cfg w).2 = trace w ++ evs ∧
            NoDup (evaluate_keys evs)).
Proof.
  split; [exact simulation_phase_run|]. split; [|split; [|split]].
  - intros node mc w Hok Hst. pose proof (simulation_phase_run node mc w) as Hstep.
    rewrite Hst in Hstep.
    cbn [py_str truthy] in Hstep.
    destruct (cache w !! "None"%string) as [v|] eqn:Hv.
    + rewrite (Hok v Hv) in Hstep. eauto.
    + eauto.
  - intros v Hv. rewrite lookup_empty in Hv. discriminate.
  - intros fuel cfg w Hok.
    destruct (generate_scene fuel cfg w) as [out w'] eqn:Hrun. cbn [snd].
    apply generate_scene_reaches in Hrun.
    apply (reaches_keeps cfg none_key_inv) in Hrun as [_ HJ].
    + apply none_key_inv_ok, HJ.
    + intros w1 out1 w2 _. apply pass_none_key.
    + apply fresh_tree_wf.
    + apply none_key_inv_fresh, Hok.
  - intros fuel cfg w.
    destruct (generate_scene fuel cfg w) as [out w'] eqn:Hrun. cbn [snd].
    apply generate_scene_reaches in Hrun.
    eapply (reaches_keys cfg (trace w) []) in Hrun.
    + exact Hrun.
    + apply fresh_tree_wf.
    + cbn. rewrite app_nil_r. reflexivity.
    + split; [apply NoDup_nil_2|]. intros k Hk. apply elem_of_nil in Hk. contradiction.
Qed.

(** ** The driver *)

Lemma generate_scene_call w :
  ∃ r, trace (_generate_scene w).2 = trace w ++ [EvGenerate r] ∧
       nodes (_generate_scene w).2 = nodes w ∧
       cache (_generate_scene w).2 = cache w ∧
       (_generate_scene w).1 =
         match r with inl msg => Raise (LLMError msg) | inr st => Ret st end.
Proof.
  unfold _generate_scene. destruct (infer_scene (llm w)) as [[msg|st] l];
    eexists; cbn; repeat split; reflexivity.
Qed.

(** C4 (as the code has it). [gen_new_scene_script] calls
    [_generate_scene] directly, once, exactly when the engine returned
    a falsy result, and then the outcome of that call, value or
    exception, is its own; a truthy result is returned as it is; when
    the engine raised, the same exception leaves the driver and no
    call is made.  In the engine a model call that raises ends the
    run: it is the last event of the log of the run and its exception
    is the outcome; when the run ends otherwise no model call of the
    run has raised. *)
Theorem driver_falls_back_on_falsy_result fuel cfg w :
  gen_new_scene_script fuel cfg w =
    match generate_scene fuel cfg w with
    | (Ret new_scene, w1) =>
        if truthy new_scene then (Ret new_scene, w1) else _generate_scene w1
    | (Raise e, w1) => (Raise e, w1)
    | (OutOfFuel, w1) => (OutOfFuel, w1)
    end ∧
  (∀ w1, ∃ r, trace (_generate_scene w1).2 = trace w1 ++ [EvGenerate r] ∧
     (_generate_scene w1).1 =
       match r with inl msg => Raise (LLMError msg) | inr st => Ret st end) ∧
  ∃ evs, trace (generate_scene fuel cfg w).2 = trace w ++ evs ∧
         failure_shape (generate_scene fuel cfg w).1 evs.
Proof.
  split; [|split].
  - unfold gen_new_scene_script. rewrite bind_run.
    destruct (generate_scene fuel cfg w) as [[new_scene|e|] w1]; try reflexivity.
    destruct (truthy new_scene); reflexivity.
  - intros w1. destruct (generate_scene_call w1) as (r & Htr & _ & _ & Hout). eauto.
  - apply generate_scene_failure_shape.
Qed.

(** ** Determinism *)

Section Deterministic.

Variable R : LLM → LLM → Prop.
Hypothesis Hbis : llm_bisimulation R.

Lemma agree_ret {A} (a : A) : agree R (mret a).
Proof. intros w1 w2 Hs. split; [reflexivity | exact Hs]. Qed.

Lemma agree_raise {A} e : agree R (raise (A := A) e).
Proof. intros w1 w2 Hs. split; [reflexivity | exact Hs]. Qed.

Lemma agree_out_of_fuel {A} : agree R (out_of_fuel (A := A)).
Proof. intros w1 w2 Hs. split; [reflexivity | exact Hs]. Qed.

Lemma agree_bind {A B} (m : M A) (f : A → M B) :
  agree R m → (∀ a, agree R (f a)) → agree R (m ≫= f).
Proof.
  intros Hm Hf w1 w2 Hs. rewrite !bind_run. destruct (Hm w1 w2 Hs) as [Ho Hs'].
  destruct (m w1) as [[a|e|] w1'], (m w2) as [[a'|e'|] w2']; cbn in Ho, Hs';
    try discriminate.
  - injection Ho as <-. apply Hf, Hs'.
  - injection Ho as <-. cbn. split; [reflexivity | exact Hs'].
  - cbn. split; [reflexivity | exact Hs'].
Qed.

Lemma agree_read {A} (f : World → A) :
  (∀ w1 w2, same_up_to R w1 w2 → f w1 = f w2) → agree R (λ w, (Ret (f w), w)).
Proof. intros Hf w1 w2 Hs. cbn. split; [f_equal; apply Hf, Hs | exact Hs]. Qed.

Lemma agree_get_nodes : agree R get_nodes.
Proof. apply (agree_read nodes). intros w1 w2 Hs. apply Hs. Qed.

Lemma agree_get_cache : agree R get_cache.
Proof. apply (agree_read cache). intros w1 w2 Hs. apply Hs. Qed.

Lemma agree_modify_nodes f : agree R (modify_nodes f).
Proof.
  intros w1 w2 (Hn & Hc & Hr & Ht & Hl). split; [reflexivity|].
  unfold same_up_to. cbn. rewrite Hn. auto.
Qed.

Lemma agree_modify_cache f : agree R (modify_cache f).
Proof.
  intros w1 w2 (Hn & Hc & Hr & Ht & Hl). split; [reflexivity|].
  unfold same_up_to. cbn. rewrite Hc. auto.
Qed.

Lemma agree_log_event ev : agree R (log_event ev).
Proof.
  intros w1 w2 (Hn & Hc & Hr & Ht & Hl). split; [reflexivity|].
  unfold same_up_to. cbn. rewrite Ht. auto.
Qed.

Lemma agree_random_choice {A} (seq : list A) : agree R (random_choice seq).
Proof.
  intros w1 w2 (Hn & Hc & Hr & Ht & Hl). unfold random_choice.
  destruct seq as [|x seq]; [split; [reflexivity|]; unfold same_up_to; auto|].
  rewrite Hr. destruct (randbelow _ _) as [k g].
  destruct ((x :: seq) !! k); (split; [reflexivity|]); unfold same_up_to; cbn; auto.
Qed.

Lemma agree_node_depth node : agree R (node_depth node).
Proof.
  intros w1 w2 Hs. unfold node_depth. cbn. destruct Hs as (Hn & ?). rewrite Hn.
  split; [reflexivity|]. unfold same_up_to. auto.
Qed.

Lemma agree_generate_scene : agree R _generate_scene.
Proof using Hbis.
  intros w1 w2 (Hn & Hc & Hr & Ht & Hl). unfold _generate_scene.
  destruct (proj1 Hbis _ _ Hl) as [Hrep Hnext].
  destruct (infer_scene (llm w1)) as [r1 l1], (infer_scene (llm w2)) as [r2 l2].
  cbn in Hrep, Hnext. subst r2.
  destruct r1; (split; [reflexivity|]); unfold same_up_to; cbn; rewrite Ht; auto.
Qed.

Lemma agree_evaluate_scene st : agree R (_evaluate_scene st).
Proof using Hbis.
  intros w1 w2 (Hn & Hc & Hr & Ht & Hl). unfold _evaluate_scene.
  destruct (proj2 Hbis st _ _ Hl) as [Hrep Hnext].
  destruct (infer_eval st (llm w1)) as [r1 l1], (infer_eval st (llm w2)) as [r2 l2].
  cbn in Hrep, Hnext. subst r2.
  destruct r1; (split; [reflexivity|]); unfold same_up_to; cbn; rewrite Ht; auto.
Qed.

Lemma agree_update self sc : agree R (update self sc).
Proof.
  unfold update. apply agree_bind; [apply agree_modify_nodes|]. intros _.
  apply agree_bind; [apply agree_get_nodes|]. intros t.
  destruct (parent (t !!! self)); [|apply agree_ret].
  destruct (_ =? 0); [apply agree_raise|].
  destruct (_ =? 0); [apply agree_raise|]. apply agree_modify_nodes.
Qed.

Lemma agree_select fuel cfg node : agree R (_select fuel cfg node).
Proof.
  revert node. induction fuel as [|fuel IH]; intros node;
    unfold _select; fold _select;
    (apply agree_bind; [apply agree_get_nodes|]); intros t;
    destruct (children (t !!! node)); try apply agree_ret; try apply agree_out_of_fuel.
  destruct (negb _); [apply agree_random_choice|].
  destruct (select_best_child _ _ _); [apply IH | apply agree_raise].
Qed.

Lemma agree_collect_states n acc : agree R (collect_states n acc).
Proof using Hbis.
  revert acc. induction n as [|n IH]; intros acc; [apply agree_ret|].
  unfold collect_states; fold collect_states.
  apply agree_bind; [apply agree_generate_scene|]. intros st. apply IH.
Qed.

Lemma agree_expansion_phase node mc : agree R (expansion_phase node mc).
Proof using Hbis.
  unfold expansion_phase. apply agree_bind; [apply agree_get_nodes|]. intros t.
  destruct (0 <? _); [|apply agree_ret].
  apply agree_bind; [apply agree_collect_states|]. intros sts.
  apply agree_bind; [apply agree_modify_nodes|]. intros _.
  apply agree_bind; [apply agree_get_nodes|]. intros t'.
  destruct (children (t' !!! node)); [apply agree_ret|].
  apply agree_bind; [apply agree_random_choice|]. intros c. apply agree_ret.
Qed.

Lemma agree_simulation_phase node mc : agree R (simulation_phase node mc).
Proof using Hbis.
  unfold simulation_phase. apply agree_bind; [apply agree_get_nodes|]. intros t.
  apply agree_bind; [apply agree_get_cache|]. intros c.
  destruct (c !! _); [apply agree_ret|].
  apply agree_bind.
  - unfold _simulate. destruct (negb _); [apply agree_ret | apply agree_evaluate_scene].
  - intros sc. apply agree_bind; [apply agree_modify_cache|]. intros _. apply agree_ret.
Qed.

Lemma agree_backpropagate fuel node sc : agree R (backpropagate fuel node sc).
Proof.
  revert node. induction fuel as [|fuel IH]; intros [n|];
    unfold backpropagate; fold backpropagate;
    try apply agree_ret; try apply agree_out_of_fuel.
  apply agree_bind; [apply agree_update|]. intros _.
  apply agree_bind; [apply agree_get_nodes|]. intros t.
  apply agree_bind; [apply IH|]. intros walk. apply agree_ret.
Qed.

Lemma agree_iteration cfg root mc : agree R (iteration cfg root mc).
Proof using Hbis.
  unfold iteration. apply agree_bind; [apply agree_get_nodes|]. intros t.
  apply agree_bind; [apply agree_select|]. intros node.
  apply agree_bind; [apply agree_node_depth|]. intros depth.
  destruct (_ <=? _); [apply agree_ret|].
  apply agree_bind; [apply agree_expansion_phase|]. intros [node' mc'].
  apply agree_bind; [apply agree_simulation_phase|]. intros [sc mc''].
  apply agree_bind; [|intros _; apply agree_ret].
  unfold backpropagation_phase. apply agree_bind; [apply agree_get_nodes|]. intros t'.
  apply agree_bind; [apply agree_backpropagate|]. intros walk. apply agree_log_event.
Qed.

Lemma agree_search_loop fuel cfg root ic mc : agree R (search_loop fuel cfg root ic mc).
Proof using Hbis.
  revert ic mc. induction fuel as [|fuel IH]; intros ic mc;
    unfold search_loop; fold search_loop;
    destruct (_ <? _); try apply agree_ret; try apply agree_out_of_fuel.
  apply agree_bind; [apply agree_iteration|]. intros [mc'|]; apply IH.
Qed.

Lemma agree_generate_scene_run fuel cfg : agree R (generate_scene fuel cfg).
Proof using Hbis.
  unfold generate_scene. apply agree_bind; [apply agree_modify_nodes|]. intros _.
  apply agree_bind; [apply agree_search_loop|]. intros _.
  apply agree_bind; [apply agree_get_nodes|]. intros t.
  destruct (select_best_child _ _ _); apply agree_ret.
Qed.

End Deterministic.

Lemma deterministic_llm_bisimulation :
  deterministic_llm → llm_bisimulation (λ _ _, True).
Proof. intros [Hg He]. split; intros; split; auto. Qed.


(** * Further properties of the engine *)

(** ** The loop and its budget *)

(** X1. Once a pass of a run has left through [continue], the loop of
    that run never ends normally: from the state the pass left,
    whatever the fuel and the counters, the model is still in the loop
    (or the random source has given an index out of range), and the
    tree, the cache and the log are those the guarded pass left. *)
Theorem guarded_run_never_returns cfg w0 w mc w1 :
  reaches cfg (with_nodes fresh_tree w0) w →
  iteration cfg 0 mc w = (Ret None, w1) →
  ∀ fuel ic mc', ic < max_iterations cfg →
    ∃ w3, nodes w3 = nodes w ∧ cache w3 = cache w1 ∧ trace w3 = trace w1 ∧
      (search_loop fuel cfg 0 ic mc' w1 = (OutOfFuel, w3) ∨
       search_loop fuel cfg 0 ic mc' w1 = (Raise IndexError, w3)).
Proof.
  intros Hr H1 fuel ic mc' Hic.
  apply (reaches_keeps cfg (λ _, True)) in Hr as [Hwf _];
    [|auto|apply fresh_tree_wf|exact I].
  destruct (guard_repeats _ _ _ _ _ _ _ _ Hwf H1 eq_refl H1) as (_ & Ht1 & _).
  apply (guarded_pass_spins cfg mc w w1 Hwf H1 fuel ic mc' w1 Ht1 Hic).
Qed.

Lemma search_loop_out_of_fuel fuel cfg ic mc w w' :
  tree_wf (nodes w) → max_iterations cfg - ic ≤ fuel →
  search_loop fuel cfg 0 ic mc w = (OutOfFuel, w') →
  ∃ w1 mc1 w2, reaches cfg w w1 ∧ iteration cfg 0 mc1 w1 = (Ret None, w2).
Proof.
  revert ic mc w. induction fuel as [|fuel IH]; intros ic mc w Hwf Hfuel;
    rewrite search_loop_unfold; destruct (Nat.ltb_spec ic (max_iterations cfg));
    try discriminate; try lia.
  destruct (iteration cfg 0 mc w) as [itout w1] eqn:Hit.
  pose proof (iteration_ends cfg mc w Hwf) as Hends. rewrite Hit in Hends.
  pose proof Hit as Hp. apply iteration_pass in Hp; [|exact Hwf].
  pose proof (pass_wf _ _ _ Hwf Hp) as Hwf1.
  destruct itout as [[mc'|]|e|]; try discriminate.
  - intros H'. apply IH in H' as (wa & mca & wb & Hr & Hg); [|exact Hwf1|lia].
    exists wa, mca, wb. split; [|exact Hg]. eapply reaches_next; eassumption.
  - intros _. exists w, mc, w1. split; [apply reaches_here | exact Hit].
  - contradiction.
Qed.

(** X2. The endless loop has one cause only.  When [generate_scene] is
    given at least as much fuel as its budget of iterations and has not
    left the loop, some pass of the run left through [continue]: without
    a guarded pass the loop ends within [max_iterations] passes. *)
Theorem out_of_fuel_only_by_guard fuel cfg w :
  max_iterations cfg ≤ fuel →
  (generate_scene fuel cfg w).1 = OutOfFuel →
  ∃ w1 mc1 w2, reaches cfg (with_nodes fresh_tree w) w1 ∧
               iteration cfg 0 mc1 w1 = (Ret None, w2).
Proof.
  intros Hfuel Hout.
  destruct (generate_scene fuel cfg w) as [out w'] eqn:Hrun. cbn in Hout. subst out.
  apply generate_scene_inv in Hrun as (lout & Hloop & Hout).
  destruct lout as [ic|e|]; try discriminate.
  eapply search_loop_out_of_fuel; [apply fresh_tree_wf| |exact Hloop]. lia.
Qed.

(** X3. A run never finishes more simulate-and-backpropagate passes than
    [max_iterations], and a run that returns has finished exactly that
    many. *)
Theorem passes_within_budget fuel cfg w :
  ∃ evs, trace (generate_scene fuel cfg w).2 = trace w ++ evs ∧
    passes evs ≤ max_iterations cfg ∧
    (∀ r, (generate_scene fuel cfg w).1 = Ret r → passes evs = max_iterations cfg).
Proof. apply finished_passes_bounded. Qed.

Lemma generate_calls_app evs evs' :
  generate_calls (evs ++ evs') = generate_calls evs + generate_calls evs'.
Proof.
  induction evs as [|[| |] evs IH]; cbn; try assumption; [reflexivity|].
  rewrite IH. reflexivity.
Qed.

Lemma generate_calls_generated (sts : list pystate) :
  generate_calls ((λ st, EvGenerate (inr st)) <$> sts) = length sts.
Proof. induction sts as [|st sts IH]; cbn; [reflexivity|]. rewrite IH. reflexivity. Qed.

Lemma expansion_of_calls (t t2 : list MCTSNode) node gens node' :
  expansion_of t node t2 gens node' → generate_calls gens ≤ 2.
Proof. intros [(_ & _ & -> & _)|(_ & _ & s1 & s2 & _ & -> & _)]; cbn; lia. Qed.

Lemma simulation_of_calls c st sc c' evs :
  simulation_of c st sc c' evs → generate_calls evs = 0 ∧ evaluate_calls evs ≤ 1.
Proof.
  intros [(_ & _ & ->)|[(_ & _ & _ & _ & ->)|(_ & _ & _ & ->)]]; cbn; lia.
Qed.

Lemma collect_states_calls n acc w out w' :
  collect_states n acc w = (out, w') →
  ∃ new, trace w' = trace w ++ new ∧ generate_calls new ≤ n ∧
         evaluate_keys new = [] ∧ passes new = 0.
Proof.
  revert acc w. induction n as [|n IH]; intros acc w.
  - intros [= <- <-]. exists []. rewrite app_nil_r. cbn. auto.
  - unfold collect_states; fold collect_states. rewrite bind_run.
    unfold _generate_scene at 1. destruct (infer_scene (llm w)) as [[msg|st] l].
    + intros [= <- <-]. cbn. eexists. split; [reflexivity|]. cbn. split; [lia|]. auto.
    + intros Hrec. apply IH in Hrec as (new & Htr & Hg & He & Hp). cbn in Htr.
      exists (EvGenerate (inr st) :: new). rewrite Htr, <- app_assoc. cbn.
      split; [reflexivity|]. split; [lia|]. auto.
Qed.

Lemma expansion_phase_calls node mc w out w' :
  expansion_phase node mc w = (out, w') →
  ∃ new, trace w' = trace w ++ new ∧ generate_calls new ≤ 2 ∧
         evaluate_keys new = [] ∧ passes new = 0.
Proof.
  intros He. unfold expansion_phase in He. rewrite bind_run in He. cbn [get_nodes] in He.
  destruct (0 <? _).
  2:{ injection He as <- <-. exists []. rewrite app_nil_r. cbn. auto. }
  apply bind_inv in He as [(sts & w1 & Hc & H)|[(e & Hc & ->)|[Hc ->]]];
    unfold _get_possible_states in Hc;
    apply collect_states_calls in Hc as (new & Htr & Hcalls); [|eauto..].
  assert (Htr' : trace w' = trace w1); [|rewrite Htr'; eauto].
  rewrite bind_run in H. cbn [modify_nodes] in H. rewrite bind_run in H.
  cbn [get_nodes nodes] in H.
  destruct (children _) as [|c cs].
  - injection H as _ <-. reflexivity.
  - rewrite bind_run in H.
    destruct (random_choice _ _) as [[x|e|] w2] eqn:Hrc;
      apply random_choice_inv in Hrc as (_ & _ & _ & Htr2 & _);
      injection H as _ <-; exact Htr2.
Qed.

Lemma update_trace self sc w out w' :
  update self sc w = (out, w') → trace w' = trace w.
Proof.
  rewrite update_run. destruct (parent _); [|intros [= _ <-]; reflexivity].
  destruct (_ =? 0); [intros [= _ <-]; reflexivity|].
  destruct (_ =? 0); intros [= _ <-]; reflexivity.
Qed.

Lemma backpropagate_trace fuel node sc w out w' :
  backpropagate fuel node sc w = (out, w') → trace w' = trace w.
Proof.
  revert node w out w'. induction fuel as [|fuel IH]; intros [n|] w out w';
    rewrite ?backpropagate_none; try (intros [= _ <-]; reflexivity).
  rewrite backpropagate_unfold.
  destruct (update n sc w) as [[[]|e|] w1] eqn:Hu; apply update_trace in Hu;
    try (intros [= _ <-]; exact Hu).
  destruct (backpropagate fuel _ sc w1) as [[walk|e|] w2] eqn:Hb; apply IH in Hb;
    intros [= _ <-]; congruence.
Qed.

Lemma backpropagation_phase_calls node sc w out w' :
  backpropagation_phase node sc w = (out, w') →
  ∃ new, trace w' = trace w ++ new ∧ generate_calls new = 0 ∧ evaluate_keys new = [] ∧
         passes new = match out with Ret _ => 1 | _ => 0 end.
Proof.
  unfold backpropagation_phase. rewrite bind_run. cbn [get_nodes]. rewrite bind_run.
  destruct (backpropagate _ _ _ _) as [[walk|e|] w1] eqn:Hb; apply backpropagate_trace in Hb.
  - intros [= <- <-]. cbn. rewrite Hb. eexists. split; [reflexivity|]. cbn. auto.
  - intros [= <- <-]. exists []. rewrite app_nil_r. cbn. auto.
  - intros [= <- <-]. exists []. rewrite app_nil_r. cbn. auto.
Qed.

(** What one pass adds to the log: at most two generation calls, at
    most one evaluator call, at most one finished pass; a pass that
    left through [continue] adds nothing. *)
Lemma iteration_calls cfg mc w out w' :
  tree_wf (nodes w) → iteration cfg 0 mc w = (out, w') →
  ∃ new, trace w' = trace w ++ new ∧ generate_calls new ≤ 2 ∧ evaluate_calls new ≤ 1 ∧
         (out = Ret None → new = []).
Proof.
  intros Hwf. rewrite iteration_unfold.
  assert (H0 : 0 < length (nodes w)).
  { destruct Hwf as [(r & Hr & _) _]. eapply lookup_lt_Some, Hr. }
  destruct (_select _ _ _ _) as [sout w1] eqn:Hsel.
  apply select_inv in Hsel as (_ & _ & _ & Htr1 & _); [|assumption..].
  assert (Hidle : ∀ o, (o, w1) = (out, w') →
            ∃ new, trace w' = trace w ++ new ∧ generate_calls new ≤ 2 ∧
                   evaluate_calls new ≤ 1 ∧ (out = Ret None → new = [])).
  { intros o [= <- <-]. exists []. rewrite app_nil_r. cbn. auto with lia. }
  destruct sout as [node|e|]; [|apply Hidle..].
  destruct (depth_loop _ _ _ _) as [d|e|]; [|apply Hidle..].
  destruct (max_depth cfg <=? d); [apply Hidle|].
  intros H. pose proof H as Hsome.
  assert (Hnone : out ≠ Ret None).
  { intros ->. apply after_guard_some in Hsome. contradiction. }
  clear Hsome Hidle.
  apply bind_inv in H as [([node' mc1] & w2 & He & H)|[(e & He & ->)|[He ->]]];
    apply expansion_phase_calls in He as (new1 & Htr2 & Hg1 & Hk1 & _);
    rewrite Htr1 in Htr2;
    try (exists new1; unfold evaluate_calls; rewrite Hk1; cbn;
         repeat split; [exact Htr2|lia|lia|intros; contradiction]).
  apply bind_inv in H as [([sc mc2] & w3 & Hs & H)|[(e & Hs & ->)|[Hs ->]]];
    apply (simulation_phase_inv _ _ _ _ _ _ eq_refl) in Hs as (_ & _ & Hs).
  - apply bind_inv in H as [(u & w4 & Hb & H)|[(e & Hb & ->)|[Hb ->]]];
      apply backpropagation_phase_calls in Hb as (new3 & Htr4 & Hg3 & Hk3 & _);
      try (injection H as _ <-).
    all: destruct Hs as [(? & _ & _ & ->)|[(_ & _ & _ & _ & Htr3 & _)|
                        [(_ & _ & ? & _ & _ & Htr3)|(_ & _ & ? & _ & _ & Htr3)]]];
      rewrite Htr4, ?Htr3, Htr2, <- ?app_assoc; eexists; (split; [reflexivity|]);
      unfold evaluate_calls; rewrite ?generate_calls_app, ?evaluate_keys_app, Hk1, Hk3, Hg3;
      cbn; (split; [lia|]); (split; [lia|]); intros; contradiction.
  - destruct Hs as [(? & _ & ? & _)|[(_ & _ & ? & _)|
                   [(_ & _ & ? & ? & _)|(_ & _ & msg & _ & _ & Htr3)]]]; try discriminate.
    rewrite Htr3, Htr2, <- app_assoc. eexists. split; [reflexivity|].
    unfold evaluate_calls. rewrite generate_calls_app, evaluate_keys_app, Hk1. cbn.
    split; [lia|]. split; [lia|]. intros; contradiction.
  - destruct Hs as [(? & _ & ? & _)|[(_ & _ & ? & _)|
                   [(_ & _ & ? & ? & _)|(_ & _ & ? & ? & _)]]]; discriminate.
Qed.

Lemma search_loop_calls fuel cfg ic mc w out w' :
  tree_wf (nodes w) → ic ≤ max_iterations cfg →
  search_loop fuel cfg 0 ic mc w = (out, w') →
  ∃ new, trace w' = trace w ++ new ∧
    generate_calls new ≤ 2 * (max_iterations cfg - ic) ∧
    evaluate_calls new ≤ max_iterations cfg - ic.
Proof.
  revert ic mc w. induction fuel as [|fuel IH]; intros ic mc w Hwf Hic;
    rewrite search_loop_unfold; destruct (Nat.ltb_spec ic (max_iterations cfg));
    try (intros [= <- <-]; exists []; rewrite app_nil_r; cbn; auto with lia).
  destruct (iteration cfg 0 mc w) as [itout w1] eqn:Hit.
  pose proof Hit as Hp. apply iteration_pass in Hp; [|exact Hwf].
  pose proof (pass_wf _ _ _ Hwf Hp) as Hwf1.
  apply iteration_calls in Hit as (new1 & Htr1 & Hg1 & He1 & Hnone); [|exact Hwf].
  unfold evaluate_calls in *.
  destruct itout as [[mc'|]|e|].
  - intros H'. apply IH in H' as (new2 & Htr2 & Hg2 & He2); [|exact Hwf1|lia].
    exists (new1 ++ new2).
    rewrite Htr2, Htr1, app_assoc, generate_calls_app, evaluate_keys_app, length_app.
    split; [reflexivity|]. lia.
  - intros H'. apply IH in H' as (new2 & Htr2 & Hg2 & He2); [|exact Hwf1|lia].
    rewrite (Hnone eq_refl) in Htr1. rewrite app_nil_r in Htr1.
    exists new2. rewrite Htr2, Htr1. split; [reflexivity|]. lia.
  - intros [= <- <-]. exists new1. split; [exact Htr1|]. lia.
  - intros [= <- <-]. exists new1. split; [exact Htr1|]. lia.
Qed.

(** X4. Whatever its outcome, and however long it stays in the loop, a
    run makes at most [2 * max_iterations] generation calls and at most
    [max_iterations] evaluator calls: passes that leave through
    [continue] call nothing. *)
Theorem model_calls_within_budget fuel cfg w :
  ∃ evs, trace (generate_scene fuel cfg w).2 = trace w ++ evs ∧
    generate_calls evs ≤ 2 * max_iterations cfg ∧
    evaluate_calls evs ≤ max_iterations cfg.
Proof.
  destruct (generate_scene fuel cfg w) as [out w'] eqn:Hrun. cbn [snd].
  apply generate_scene_inv in Hrun as (lout & Hloop & _).
  apply search_loop_calls in Hloop as (new & Htr & Hg & He); [|apply fresh_tree_wf|lia].
  exists new. split; [exact Htr|]. lia.
Qed.

(** ** The shape of the tree *)

Lemma two_children_expand self s1 s2 (t : list MCTSNode) :
  two_children t → self < length t → children (t !!! self) = [] →
  two_children (expand self [s1; s2] t).
Proof.
  intros Htc Hself Hleaf n nd Hn.
  apply list_lookup_lookup_total_lt in Hself as Hnd.
  destruct (expand_spec self [s1; s2] t _ Hnd) as (Hlen & Hs & Hnew & Hold).
  cbn [length] in Hlen.
  destruct (decide (n = self)) as [->|Hne].
  - rewrite Hs in Hn. injection Hn as <-. cbn. rewrite Hleaf. right. eauto.
  - destruct (decide (n < length t)) as [Hlt|Hge].
    + rewrite Hold in Hn by assumption. eapply Htc, Hn.
    + assert (Hlt' : n < length t + 2) by (rewrite <- Hlen; eapply lookup_lt_Some, Hn).
      destruct (lookup_lt_is_Some_2 [s1; s2] (n - length t) ltac:(cbn; lia)) as [st Hst].
      specialize (Hnew _ _ Hst). replace (length t + (n - length t)) with n in Hnew by lia.
      rewrite Hnew in Hn. injection Hn as <-. left. reflexivity.
Qed.

Lemma two_children_bumped (t t' : list MCTSNode) walk sc :
  two_children t → bumped t walk sc t' → two_children t'.
Proof.
  intros Htc [Hlen Hb] n nd' Hn.
  assert (Hlt : n < length t) by (rewrite <- Hlen; eapply lookup_lt_Some, Hn).
  apply lookup_lt_is_Some_2 in Hlt as [nd Hlt].
  destruct (Hb _ _ Hlt) as (nd2 & Hn2 & _ & _ & Hc & _).
  assert (nd2 = nd') by congruence. subst nd2. rewrite Hc. eapply Htc, Hlt.
Qed.

Lemma two_children_expansion_of (t t2 : list MCTSNode) node gens node' :
  two_children t → node < length t → expansion_of t node t2 gens node' →
  two_children t2 ∧ (length t2 = length t ∨ length t2 = length t + 2).
Proof.
  intros Htc Hn [(_ & -> & _)|(_ & Hleaf & s1 & s2 & -> & _)]; [auto|].
  split; [apply two_children_expand; assumption|]. right.
  apply list_lookup_lookup_total_lt in Hn.
  destruct (expand_spec node [s1; s2] t _ Hn) as (-> & _). reflexivity.
Qed.

Lemma pass_two_children w out w' :
  two_children (nodes w) ∧ (∃ k, length (nodes w) = 1 + 2 * k) →
  pass w out w' →
  two_children (nodes w') ∧ (∃ k, length (nodes w') = 1 + 2 * k).
Proof.
  intros [Htc [k Hk]] Hp. destruct Hp as
    [out w' Ht _ _ _
    |node msg oks w' _ _ Ht _ _
    |node s1 s2 w' Hn _ Hleaf Ht _ _
    |node t2 gens node' msg w' Hn Hexp _ _ Ht _ _
    |node t2 gens node' sc sevs rest mc' w' Hn Hexp _ _ _ Hb _]; rewrite ?Ht.
  - eauto.
  - eauto.
  - split; [apply two_children_expand; assumption|].
    apply list_lookup_lookup_total_lt in Hn.
    destruct (expand_spec node [s1; s2] (nodes w) _ Hn) as (-> & _).
    exists (S k). cbn [length]. lia.
  - destruct (two_children_expansion_of _ _ _ _ _ Htc Hn Hexp) as [Htc2 [Hl|Hl]];
      (split; [exact Htc2|]); [exists k | exists (S k)]; lia.
  - destruct (two_children_expansion_of _ _ _ _ _ Htc Hn Hexp) as [Htc2 Hl].
    split; [eapply two_children_bumped; eassumption|]. rewrite (proj1 Hb).
    destruct Hl as [Hl|Hl]; [exists k | exists (S k)]; lia.
Qed.

(** X5. In every state of a run the tree is binary in the arena: a node
    is a leaf or has exactly two children, allocated side by side, and
    the arena holds an odd number of nodes (the root and two per
    expansion). *)
Theorem tree_is_binary cfg w0 w :
  reaches cfg (with_nodes fresh_tree w0) w →
  two_children (nodes w) ∧ ∃ k, length (nodes w) = 1 + 2 * k.
Proof.
  intros Hr.
  apply (reaches_keeps cfg
           (λ w, two_children (nodes w) ∧ ∃ k, length (nodes w) = 1 + 2 * k))
    in Hr as [_ H]; [exact H| |apply fresh_tree_wf|].
  - intros w1 out w2 _. apply pass_two_children.
  - split; [|exists 0; reflexivity].
    intros [|n] nd Hn; [|destruct n; discriminate]. injection Hn as <-. left. reflexivity.
Qed.

Lemma generated_states_more evs new (t : list MCTSNode) :
  generated_states evs t → generated_states (evs ++ new) t.
Proof. intros H n nd Hn Hne. apply elem_of_app. left. eapply H; eassumption. Qed.

Lemma generated_states_expansion_of evs (t t2 : list MCTSNode) node gens node' :
  generated_states evs t → node < length t → expansion_of t node t2 gens node' →
  generated_states (evs ++ gens) t2.
Proof.
  intros Hg Hn [(_ & -> & _)|(_ & _ & s1 & s2 & -> & -> & _)];
    [apply generated_states_more, Hg|].
  apply list_lookup_lookup_total_lt in Hn as Hnd.
  destruct (expand_spec node [s1; s2] t _ Hnd) as (Hlen & Hs & Hnew & Hold).
  cbn [length] in Hlen.
  intros n nd Hi Hne. apply elem_of_app.
  destruct (decide (n = node)) as [->|Hne'].
  - rewrite Hs in Hi. injection Hi as <-. cbn. left. eapply Hg; eassumption.
  - destruct (decide (n < length t)) as [Hlt|Hge].
    + rewrite Hold in Hi by assumption. left. eapply Hg; eassumption.
    + assert (Hlt' : n < length t + 2) by (rewrite <- Hlen; eapply lookup_lt_Some, Hi).
      right.
      destruct (decide (n = length t)) as [->|Hn1].
      * specialize (Hnew 0 s1 eq_refl). rewrite Nat.add_0_r in Hnew.
        rewrite Hnew in Hi. injection Hi as <-. cbn. left.
      * specialize (Hnew 1 s2 eq_refl). replace (length t + 1) with n in Hnew by lia.
        rewrite Hnew in Hi. injection Hi as <-. cbn. right. left.
Qed.

Lemma generated_states_bumped evs (t t' : list MCTSNode) walk sc :
  generated_states evs t → bumped t walk sc t' → generated_states evs t'.
Proof.
  intros Hg [Hlen Hb] n nd' Hn Hne.
  assert (Hlt : n < length t) by (rewrite <- Hlen; eapply lookup_lt_Some, Hn).
  apply lookup_lt_is_Some_2 in Hlt as [nd Hlt].
  destruct (Hb _ _ Hlt) as (nd2 & Hn2 & Hst & _).
  assert (nd2 = nd') by congruence. subst nd2. rewrite Hst. eapply Hg; eassumption.
Qed.

Lemma pass_generated_states tr0 w out w' :
  (∃ evs, trace w = tr0 ++ evs ∧ generated_states evs (nodes w)) →
  pass w out w' →
  ∃ evs, trace w' = tr0 ++ evs ∧ generated_states evs (nodes w').
Proof.
  intros (evs & Htr & Hg) Hp. destruct Hp as
    [out w' Ht _ Htr' _
    |node msg oks w' _ _ Ht _ Htr'
    |node s1 s2 w' Hn Hv Hleaf Ht _ Htr'
    |node t2 gens node' msg w' Hn Hexp _ _ Ht _ Htr'
    |node t2 gens node' sc sevs rest mc' w' Hn Hexp _ _ _ Hb Htr'];
    rewrite Htr', Htr, ?Ht, <- ?app_assoc; eexists; (split; [reflexivity|]).
  - exact Hg.
  - apply generated_states_more, Hg.
  - eapply generated_states_expansion_of; [exact Hg|exact Hn|].
    right. split; [exact Hv|]. split; [exact Hleaf|]. exists s1, s2. auto.
  - rewrite app_assoc. apply generated_states_more.
    eapply generated_states_expansion_of; eassumption.
  - rewrite app_assoc. apply generated_states_more.
    eapply generated_states_bumped; [|exact Hb].
    eapply generated_states_expansion_of; eassumption.
Qed.

Lemma generate_scene_generated fuel cfg w :
  ∃ evs, trace (generate_scene fuel cfg w).2 = trace w ++ evs ∧
    tree_wf (nodes (generate_scene fuel cfg w).2) ∧
    generated_states evs (nodes (generate_scene fuel cfg w).2).
Proof.
  destruct (generate_scene fuel cfg w) as [out w'] eqn:Hrun. cbn [snd].
  apply generate_scene_reaches in Hrun.
  apply (reaches_keeps cfg
           (λ w', ∃ evs, trace w' = trace w ++ evs ∧ generated_states evs (nodes w')))
    in Hrun as [Hwf (evs & Htr & Hg)].
  - eauto.
  - intros w1 out1 w2 _. apply pass_generated_states.
  - apply fresh_tree_wf.
  - exists []. cbn. rewrite app_nil_r. split; [reflexivity|].
    intros [|n] nd Hn Hne; [contradiction|destruct n; discriminate].
Qed.


(** ** Cumulative scores *)

Lemma score_through_app n evs evs' :
  score_through n (evs ++ evs') = (score_through n evs + score_through n evs')%Z.
Proof.
  induction evs as [|[| |walk sc] evs IH]; cbn; try assumption; [reflexivity|].
  rewrite IH. lia.
Qed.

Lemma score_through_quiet n evs : Forall quiet evs → score_through n evs = 0%Z.
Proof.
  induction 1 as [|[| |walk sc] evs Hq _ IH]; cbn; try assumption; [reflexivity|].
  destruct Hq.
Qed.

Lemma score_through_unvisited n evs :
  passes_through n evs = 0 → score_through n evs = 0%Z.
Proof.
  induction evs as [|[| |walk sc] evs IH]; cbn; try assumption; [reflexivity|].
  case_bool_decide; [discriminate|]. intros Hp. rewrite IH by exact Hp. reflexivity.
Qed.

Lemma scored_quiet evs new (t : list MCTSNode) :
  scored evs t → Forall quiet new → scored (evs ++ new) t.
Proof.
  intros Hs Hq n nd Hn.
  rewrite score_through_app, (score_through_quiet _ _ Hq), Z.add_0_r. eauto.
Qed.

Lemma scored_expand evs self sts (t : list MCTSNode) :
  counted evs t → scored evs t → self < length t →
  scored evs (expand self sts t).
Proof.
  intros [_ Hw] Hs Hself. apply list_lookup_lookup_total_lt in Hself as Hnd.
  destruct (expand_spec self sts t _ Hnd) as (Hlen & Hself' & Hnew & Hold).
  intros n nd Hn. destruct (decide (n = self)) as [->|Hne].
  - rewrite Hself' in Hn. injection Hn as <-. cbn. eapply Hs, Hnd.
  - destruct (decide (n < length t)) as [Hlt|Hge].
    + rewrite Hold in Hn by assumption. eapply Hs, Hn.
    + rewrite score_through_unvisited
        by (apply (passes_through_out t); [assumption|lia]).
      assert (Hlt' : n < length t + length sts).
      { rewrite <- Hlen. eapply lookup_lt_Some, Hn. }
      destruct (lookup_lt_is_Some_2 sts (n - length t) ltac:(lia)) as [st Hst].
      specialize (Hnew _ _ Hst). replace (length t + (n - length t)) with n in Hnew by lia.
      rewrite Hnew in Hn. injection Hn as <-. reflexivity.
Qed.

Lemma scored_bump evs walk sc (t t' : list MCTSNode) :
  scored evs t → bumped t walk sc t' → scored (evs ++ [EvBackprop walk sc]) t'.
Proof.
  intros Hs [Hlen Hb] n nd' Hn.
  assert (Hlt : n < length t) by (rewrite <- Hlen; eapply lookup_lt_Some, Hn).
  apply lookup_lt_is_Some_2 in Hlt as [nd Hnd].
  destruct (Hb _ _ Hnd) as (nd2 & Hn2 & _ & _ & _ & _ & Hsc).
  assert (nd2 = nd') by congruence. subst nd2.
  rewrite Hsc, score_through_app, (Hs _ _ Hnd). cbn. lia.
Qed.

Lemma scored_expansion_of evs (t t2 : list MCTSNode) node gens node' :
  counted evs t → scored evs t → node < length t →
  expansion_of t node t2 gens node' → scored (evs ++ gens) t2.
Proof.
  intros Hc Hs Hn Hexp. apply scored_quiet; [|eapply expansion_of_quiet, Hexp].
  destruct Hexp as [(_ & -> & _)|(_ & _ & s1 & s2 & -> & _)]; [exact Hs|].
  apply scored_expand; assumption.
Qed.

Lemma pass_scored tr0 w out w' :
  tree_wf (nodes w) →
  (∃ evs, trace w = tr0 ++ evs ∧ counted evs (nodes w) ∧ scored evs (nodes w)) →
  pass w out w' →
  ∃ evs, trace w' = tr0 ++ evs ∧ counted evs (nodes w') ∧ scored evs (nodes w').
Proof.
  intros Hwf (evs & Htr & Hc & Hs) Hp.
  destruct (pass_counted tr0 w out w' Hwf) as (evs' & Htr' & Hc');
    [eauto|exact Hp|].
  exists evs'. split; [exact Htr'|]. split; [exact Hc'|].
  destruct Hp as
    [out w' Ht _ Htr2 _
    |node msg oks w' _ _ Ht _ Htr2
    |node s1 s2 w' Hn Hv _ Ht _ Htr2
    |node t2 gens node' msg w' Hn Hexp _ _ Ht _ Htr2
    |node t2 gens node' sc sevs rest mc' w' Hn Hexp Hsim Hwalk _ Hb Htr2];
    rewrite Htr2, Htr, <- ?app_assoc in Htr'; apply app_inv_head in Htr';
    subst evs'; rewrite ?Ht.
  - exact Hs.
  - apply scored_quiet; [exact Hs|]. apply Forall_app. split; [|repeat constructor].
    apply Forall_fmap, Forall_forall. intros; exact I.
  - apply scored_quiet; [|repeat constructor]. apply scored_expand; assumption.
  - rewrite app_assoc. apply scored_quiet; [|repeat constructor].
    eapply scored_expansion_of; eassumption.
  - rewrite !app_assoc. eapply scored_bump; [|exact Hb].
    apply scored_quiet; [|eapply simulation_of_quiet, Hsim].
    eapply scored_expansion_of; eassumption.
Qed.

(** X7. After every run of [generate_scene], however it ended, the
    [score] of a node is the sum of the scores of the finished
    backpropagation passes that went through it, so a node that was
    never visited has score 0, and the score of the root is the sum over
    all finished passes. *)
Theorem scores_sum_backpropagated fuel cfg w :
  ∃ evs, trace (generate_scene fuel cfg w).2 = trace w ++ evs ∧
    (∀ n nd, nodes (generate_scene fuel cfg w).2 !! n = Some nd →
       score nd = score_through n evs ∧ (visits nd = 0 → score nd = 0%Z)) ∧
    (∀ walk sc, EvBackprop walk sc ∈ evs → 0 ∈ walk).
Proof.
  destruct (generate_scene fuel cfg w) as [out w'] eqn:Hrun. cbn [snd].
  apply generate_scene_reaches in Hrun.
  apply (reaches_keeps cfg
           (λ w', ∃ evs, trace w' = trace w ++ evs ∧ counted evs (nodes w') ∧
                         scored evs (nodes w')))
    in Hrun as [Hwf (evs & Htr & Hc & Hs)].
  - exists evs. split; [exact Htr|]. split.
    + intros n nd Hn. split; [eapply Hs, Hn|].
      intros Hv. rewrite (Hs _ _ Hn). apply score_through_unvisited.
      rewrite <- (proj1 Hc _ _ Hn). exact Hv.
    + intros walk sc Hin.
      destruct (is_walk_to_root _ walk Hwf (proj2 Hc _ _ Hin)) as [Hlast _].
      apply last_Some in Hlast as [l' ->]. apply elem_of_app. right. left.
  - intros w1 out1 w2. apply pass_scored.
  - apply fresh_tree_wf.
  - exists []. cbn. rewrite app_nil_r. split; [reflexivity|]. split.
    + split; [|intros ? ? Hin; inversion Hin].
      intros [|n] nd Hn; [|destruct n; discriminate]. injection Hn as <-. reflexivity.
    + intros [|n] nd Hn; [|destruct n; discriminate]. injection Hn as <-. reflexivity.
Qed.

(** ** The cache across a run *)

Lemma cache_extends_more c0 evs new c :
  cache_extends c0 evs c → Forall no_evaluate new → cache_extends c0 (evs ++ new) c.
Proof.
  intros (Hold & Hres & Hnew & Hcall) Hq. rewrite Forall_forall in Hq.
  assert (Hin : ∀ st r, EvEvaluate st r ∈ evs ++ new → EvEvaluate st r ∈ evs).
  { intros st r H. apply elem_of_app in H as [H|H]; [exact H|destruct (Hq _ H)]. }
  split; [exact Hold|]. split; [|split].
  - intros st v H. apply Hres, Hin, H.
  - intros k v H0 Hk. destruct (Hnew k v H0 Hk) as [->|(st & Hst & H)]; [auto|].
    right. exists st. split; [exact Hst|]. apply elem_of_app. auto.
  - intros st r H. eapply Hcall, Hin, H.
Qed.

Lemma cache_extends_unbound c0 evs c k :
  cache_extends c0 evs c → c !! k = None → c0 !! k = None.
Proof.
  intros (Hold & _) Hk. destruct (c0 !! k) as [v|] eqn:H0; [|reflexivity].
  rewrite (Hold _ _ H0) in Hk. discriminate.
Qed.

Lemma cache_extends_failed c0 evs c st msg :
  cache_extends c0 evs c → c !! py_str st = None →
  cache_extends c0 (evs ++ [EvEvaluate st (inl msg)]) c.
Proof.
  intros Hce Hk. pose proof (cache_extends_unbound _ _ _ _ Hce Hk) as H0.
  destruct Hce as (Hold & Hres & Hnew & Hcall).
  split; [exact Hold|]. split; [|split].
  - intros st' v H. apply elem_of_app in H as [H|H]; [apply Hres, H|].
    apply list_elem_of_singleton in H. discriminate.
  - intros k v Hk0 Hkv. destruct (Hnew k v Hk0 Hkv) as [->|(st' & Hst & H)]; [auto|].
    right. exists st'. split; [exact Hst|]. apply elem_of_app. auto.
  - intros st' r H. apply elem_of_app in H as [H|H]; [eapply Hcall, H|].
    apply list_elem_of_singleton in H. injection H as -> _. exact H0.
Qed.

Lemma cache_extends_insert c0 evs c key v new :
  cache_extends c0 evs c → c !! key = None →
  (new = [] ∧ v = 0%Z) ∨ (∃ st, py_str st = key ∧ new = [EvEvaluate st (inr v)]) →
  cache_extends c0 (evs ++ new) (<[key := v]> c).
Proof.
  intros Hce Hk Hcase. pose proof (cache_extends_unbound _ _ _ _ Hce Hk) as H0.
  destruct Hce as (Hold & Hres & Hnew & Hcall).
  assert (Hkeep : ∀ k u, c !! k = Some u → <[key := v]> c !! k = Some u).
  { intros k u Hku. rewrite lookup_insert_ne; [exact Hku|]. intros <-. congruence. }
  split; [|split; [|split]].
  - intros k u Hk0. apply Hkeep, Hold, Hk0.
  - intros st u H. apply elem_of_app in H as [H|H]; [apply Hkeep, Hres, H|].
    destruct Hcase as [[-> _]|(st' & <- & ->)]; [inversion H|].
    apply list_elem_of_singleton in H. injection H as -> ->. apply lookup_insert_eq.
  - intros k u Hk0 Hku. destruct (decide (k = key)) as [->|Hne].
    + rewrite lookup_insert_eq in Hku. injection Hku as <-.
      destruct Hcase as [[_ ->]|(st' & <- & ->)]; [auto|].
      right. exists st'. split; [reflexivity|]. apply elem_of_app. right. left.
    + rewrite lookup_insert_ne in Hku by congruence.
      destruct (Hnew k u Hk0 Hku) as [->|(st' & Hst & H)]; [auto|].
      right. exists st'. split; [exact Hst|]. apply elem_of_app. auto.
  - intros st r H. apply elem_of_app in H as [H|H]; [eapply Hcall, H|].
    destruct Hcase as [[-> _]|(st' & <- & ->)]; [inversion H|].
    apply list_elem_of_singleton in H. injection H as -> _. exact H0.
Qed.

Lemma cache_extends_simulation c0 evs c st sc c' sevs :
  cache_extends c0 evs c → simulation_of c st sc c' sevs →
  cache_extends c0 (evs ++ sevs) c'.
Proof.
  intros Hce [(_ & -> & ->)|[(Hk & _ & -> & -> & ->)|(Hk & _ & -> & ->)]].
  - rewrite app_nil_r. exact Hce.
  - apply cache_extends_insert; auto.
  - apply cache_extends_insert; [assumption..|]. right. eauto.
Qed.

Lemma expansion_of_no_evaluate (t t2 : list MCTSNode) node gens node' :
  expansion_of t node t2 gens node' → Forall no_evaluate gens.
Proof.
  intros [(_ & _ & -> & _)|(_ & _ & s1 & s2 & _ & -> & _)]; repeat constructor.
Qed.

Lemma pass_cache_extends c0 tr0 w out w' :
  (∃ evs, trace w = tr0 ++ evs ∧ cache_extends c0 evs (cache w)) →
  pass w out w' →
  ∃ evs, trace w' = tr0 ++ evs ∧ cache_extends c0 evs (cache w').
Proof.
  intros (evs & Htr & Hce) Hp. destruct Hp as
    [out w' _ Hc Htr' _
    |node msg oks w' _ _ _ Hc Htr'
    |node s1 s2 w' _ _ _ _ Hc Htr'
    |node t2 gens node' msg w' _ Hexp Hk _ _ Hc Htr'
    |node t2 gens node' sc sevs rest mc' w' _ Hexp Hsim _ _ _ Htr'];
    rewrite Htr', Htr, ?Hc, <- ?app_assoc; eexists; (split; [reflexivity|]).
  - exact Hce.
  - apply cache_extends_more; [exact Hce|]. apply Forall_app.
    split; [|repeat constructor]. apply Forall_fmap, Forall_forall. intros; exact I.
  - apply cache_extends_more; [exact Hce|]. repeat constructor.
  - rewrite app_assoc. apply cache_extends_failed; [|exact Hk].
    apply cache_extends_more; [exact Hce|]. eapply expansion_of_no_evaluate, Hexp.
  - rewrite !app_assoc. apply cache_extends_more; [|repeat constructor].
    eapply cache_extends_simulation; [|exact Hsim].
    apply cache_extends_more; [exact Hce|]. eapply expansion_of_no_evaluate, Hexp.
Qed.

(** X8. The cache of the generator lives across runs, and a run of
    [generate_scene], however it ended, only adds to it: an entry bound
    before the run keeps its value, every score the evaluator returned
    during the run is stored under the key of the state it was asked
    about, an entry the run added is 0 or such a score, and the
    evaluator was never called on a state whose key was bound before
    the run. *)
Theorem cache_only_grows fuel cfg w :
  ∃ evs, trace (generate_scene fuel cfg w).2 = trace w ++ evs ∧
    cache_extends (cache w) evs (cache (generate_scene fuel cfg w).2).
Proof.
  destruct (generate_scene fuel cfg w) as [out w'] eqn:Hrun. cbn [snd].
  apply generate_scene_reaches in Hrun.
  apply (reaches_keeps cfg
           (λ w', ∃ evs, trace w' = trace w ++ evs ∧
                         cache_extends (cache w) evs (cache w')))
    in Hrun as [_ H]; [exact H| |apply fresh_tree_wf|].
  - intros w1 out1 w2 _. apply pass_cache_extends.
  - exists []. cbn. rewrite app_nil_r. split; [reflexivity|].
    split; [auto|]. split; [intros ? ? H; inversion H|].
    split; [intros k v H0 Hk; congruence|intros ? ? H; inversion H].
Qed.

(** ** A random source that respects its bound *)

Lemma random_choice_in_range {A} (seq : list A) w :
  randbelow_in_range → seq ≠ [] → ∃ x w', random_choice seq w = (Ret x, w').
Proof.
  intros Hin Hne. unfold random_choice. destruct seq as [|x0 seq]; [contradiction|].
  specialize (Hin (length (x0 :: seq)) (rng w) ltac:(cbn; lia)).
  destruct (randbelow _ _) as [k g]. cbn [fst] in Hin.
  apply lookup_lt_is_Some_2 in Hin as [x ->]. eauto.
Qed.

Lemma unvisited_nonempty (t : list MCTSNode) cs :
  forallb (λ c, 0 <? visits (t !!! c)) cs = false →
  filter (λ c, visits (t !!! c) = 0) cs ≠ [].
Proof.
  induction cs as [|c cs IH]; [discriminate|]. cbn [forallb].
  rewrite filter_cons. destruct (Nat.ltb_spec 0 (visits (t !!! c))) as [Hv|Hv].
  - cbn. intros H. rewrite decide_False by lia. apply IH, H.
  - intros _. rewrite decide_True by lia. discriminate.
Qed.

Lemma select_in_range fuel cfg node w :
  tree_wf (nodes w) → randbelow_in_range →
  node < length (nodes w) → length (nodes w) ≤ fuel + node →
  ∃ n w', _select fuel cfg node w = (Ret n, w').
Proof.
  intros Hwf Hin. revert node. induction fuel as [|fuel IH]; intros node Hn Hfuel;
    rewrite select_unfold; destruct (children (nodes w !!! node)) as [|c cs] eqn:Hcs;
    cbv beta iota zeta; eauto.
  - assert (node < c < length (nodes w)); [|lia].
    apply tree_wf_child; [assumption..|]. rewrite Hcs. apply list_elem_of_here.
  - destruct (forallb _ _) eqn:Hall; cbn [negb].
    + destruct (select_best_child _ _ _) as [best|] eqn:Hbest.
      * apply select_best_child_in in Hbest.
        pose proof (tree_wf_child _ _ _ Hwf Hn Hbest) as Hb. apply IH; lia.
      * unfold select_best_child in Hbest. rewrite Hcs in Hbest. discriminate.
    + apply random_choice_in_range; [exact Hin|]. apply unvisited_nonempty, Hall.
Qed.

(** X9. From any state of a run, with a random source that respects its
    bound, [_select] started at the root returns a node of the tree that
    is a leaf or has not been visited, and leaves the tree, the cache,
    the model and the log as they are. *)
Theorem select_returns_leaf_or_unvisited cfg w0 w :
  reaches cfg (with_nodes fresh_tree w0) w → randbelow_in_range →
  ∃ n w', _select (length (nodes w)) cfg 0 w = (Ret n, w') ∧
    nodes w' = nodes w ∧ cache w' = cache w ∧ llm w' = llm w ∧ trace w' = trace w ∧
    n < length (nodes w) ∧
    (children (nodes w !!! n) = [] ∨ visits (nodes w !!! n) = 0).
Proof.
  intros Hr Hin.
  apply (reaches_keeps cfg (λ _, True)) in Hr as [Hwf _];
    [|auto|apply fresh_tree_wf|exact I].
  assert (H0 : 0 < length (nodes w)).
  { destruct Hwf as [(r & Hr & _) _]. eapply lookup_lt_Some, Hr. }
  destruct (select_in_range (length (nodes w)) cfg 0 w Hwf Hin H0 ltac:(lia))
    as (n & w' & Hsel).
  exists n, w'. split; [exact Hsel|].
  apply select_inv in Hsel as (? & ? & ? & ? & [(n' & [= <-] & ? & ?)|[?|[? _]]]);
    try discriminate; try assumption.
  repeat split; assumption.
Qed.

Lemma expansion_phase_in_range node mc w out w' :
  randbelow_in_range → node < length (nodes w) →
  expansion_phase node mc w = (out, w') → out ≠ Raise IndexError.
Proof.
  intros Hin Hn. unfold expansion_phase. rewrite bind_run. cbn [get_nodes].
  destruct (0 <? visits (nodes w !!! node)); [|intros [= <- _]; discriminate].
  intros H.
  apply bind_inv in H as [(sts & w1 & Hc & H)|[(e & Hc & ->)|[_ ->]]];
    [| |discriminate]; unfold _get_possible_states in Hc;
    apply collect_states_inv in Hc as (Ht1 & _ & _ & Hout).
  - destruct Hout as [(sts' & [= ->] & Hlen & _)|(? & ? & ? & _)]; [|discriminate].
    rewrite bind_run in H. cbn [modify_nodes] in H. rewrite bind_run in H.
    cbn [get_nodes nodes] in H.
    destruct (children _) as [|c cs] eqn:Hcs; [injection H as <- _; discriminate|].
    rewrite bind_run in H.
    match type of H with
    | context [random_choice (c :: cs) ?wa] =>
        destruct (random_choice_in_range (c :: cs) wa Hin ltac:(discriminate))
          as (x & w2 & Hrc)
    end.
    rewrite Hrc in H. injection H as <- _. discriminate.
  - destruct Hout as [(? & ? & _)|(msg & oks & [= ->] & _)]; discriminate.
Qed.

Lemma expansion_phase_expansion_of node mc w node' mc1 w2 :
  node < length (nodes w) →
  children (nodes w !!! node) = [] ∨ visits (nodes w !!! node) = 0 →
  expansion_phase node mc w = (Ret (node', mc1), w2) →
  ∃ gens, expansion_of (nodes w) node (nodes w2) gens node' ∧
          cache w2 = cache w ∧ trace w2 = trace w ++ gens.
Proof.
  intros Hnode Hleaf He. apply expansion_phase_inv in He; [|exact Hnode].
  destruct He as [(Hv & [= -> ->] & ->)|(Hv & Hc2 & [(? & ? & ? & _)|
                   (s1 & s2 & Ht2 & Htr2 & [(c & [= -> ->] & Hc)|?])])];
    try discriminate.
  - exists []. rewrite app_nil_r. split; [left; auto|auto].
  - exists [EvGenerate (inr s1); EvGenerate (inr s2)]. split; [|auto].
    right. split; [exact Hv|].
    destruct Hleaf as [Hleaf|Hleaf]; [|lia]. split; [exact Hleaf|].
    exists s1, s2. split; [exact Ht2|]. split; [reflexivity|].
    rewrite Ht2 in Hc.
    destruct (expand_total node [s1; s2] (nodes w) node Hnode Hnode)
      as (_ & _ & _ & _ & Hch).
    rewrite Hch, Hleaf in Hc. cbn in Hc.
    apply elem_of_cons in Hc as [->|Hc]; [auto|].
    apply list_elem_of_singleton in Hc as ->. auto.
Qed.

Lemma iteration_in_range cfg mc w e w' :
  tree_wf (nodes w) → randbelow_in_range →
  iteration cfg 0 mc w = (Raise e, w') → ∃ msg, e = LLMError msg.
Proof.
  intros Hwf Hin. rewrite iteration_unfold.
  assert (H0 : 0 < length (nodes w)).
  { destruct Hwf as [(r & Hr & _) _]. eapply lookup_lt_Some, Hr. }
  destruct (select_in_range (length (nodes w)) cfg 0 w Hwf Hin H0 ltac:(lia))
    as (node & w1 & Hsel).
  rewrite Hsel.
  apply select_inv in Hsel as (Ht1 & _ & _ & _ & Hsout); [|assumption..].
  destruct Hsout as [(n' & [= <-] & Hnode & Hleaf)|[?|[? _]]]; try discriminate.
  destruct (depth_loop_ok (length (nodes w1)) 0 node (nodes w1)) as [d ->];
    [rewrite Ht1; assumption | rewrite Ht1; assumption | rewrite Ht1; lia |].
  destruct (max_depth cfg <=? d); [discriminate|].
  intros H.
  apply bind_inv in H as [([node' mc1] & w2 & He & H)|[(e' & He & [= ->])|[_ ?]]];
    [| |discriminate].
  - apply expansion_phase_expansion_of in He as (gens & Hexp & _ & _);
      [|rewrite Ht1; assumption..].
    rewrite Ht1 in Hexp.
    destruct (expansion_of_wf _ _ _ _ _ Hwf Hnode Hexp) as [Hwf2 Hnode'].
    apply (simulate_backpropagate_inv _ _ _ _ _ _ Hwf2 Hnode' eq_refl) in H.
    destruct H as [(msg & [= ->] & _)|(sc & evs & rest & mc' & ? & _)];
      [eauto|discriminate].
  - pose proof He as He'.
    apply expansion_phase_in_range in He'; [|exact Hin|rewrite Ht1; exact Hnode].
    apply expansion_phase_inv in He; [|rewrite Ht1; exact Hnode].
    destruct He as [(_ & ? & _)|(_ & _ & [(msg & oks & [= ->] & _)|
                   (s1 & s2 & _ & _ & [(c & ? & _)|[= ->]])])];
      try discriminate; [eauto|contradiction].
Qed.

Lemma search_loop_in_range fuel cfg ic mc w e w' :
  tree_wf (nodes w) → randbelow_in_range →
  search_loop fuel cfg 0 ic mc w = (Raise e, w') → ∃ msg, e = LLMError msg.
Proof.
  intros Hwf Hin. revert ic mc w Hwf. induction fuel as [|fuel IH]; intros ic mc w Hwf;
    rewrite search_loop_unfold; destruct (ic <? max_iterations cfg);
    try discriminate.
  destruct (iteration cfg 0 mc w) as [itout w1] eqn:Hit.
  pose proof Hit as Hp. apply iteration_pass in Hp; [|exact Hwf].
  pose proof (pass_wf _ _ _ Hwf Hp) as Hwf1.
  destruct itout as [[mc'|]|e'|]; try discriminate.
  - apply IH, Hwf1.
  - apply IH, Hwf1.
  - intros [= -> ->]. eapply iteration_in_range; [exact Hwf|exact Hin|exact Hit].
Qed.

(** X10. With a random source that respects its bound, the only
    exception [generate_scene] or [gen_new_scene_script] can end with
    is the one a model call raised: the selection, the choice among the
    new children, the arithmetic of [update] and the final choice of
    the best child never raise. *)
Theorem only_model_calls_raise fuel cfg w :
  randbelow_in_range →
  (∀ e, (generate_scene fuel cfg w).1 = Raise e → ∃ msg, e = LLMError msg) ∧
  (∀ e, (gen_new_scene_script fuel cfg w).1 = Raise e → ∃ msg, e = LLMError msg).
Proof.
  intros Hin.
  assert (Hengine : ∀ e, (generate_scene fuel cfg w).1 = Raise e →
                         ∃ msg, e = LLMError msg).
  { intros e Hout. destruct (generate_scene fuel cfg w) as [out w'] eqn:Hrun.
    cbn [fst] in Hout. subst out.
    apply generate_scene_inv in Hrun as (lout & Hloop & Hout).
    destruct lout as [ic|e'|]; try discriminate.
    injection Hout as Heq. subst e'.
    eapply search_loop_in_range; [|exact Hin|exact Hloop]. apply fresh_tree_wf. }
  split; [exact Hengine|].
  intros e. unfold gen_new_scene_script. rewrite bind_run.
  destruct (generate_scene fuel cfg w) as [[new_scene|e'|] w1] eqn:Hrun;
    cbn [fst] in *.
  - destruct (truthy new_scene); [discriminate|].
    destruct (generate_scene_call w1) as (r & _ & _ & _ & Hout).
    intros He. rewrite He in Hout. destruct r as [msg|st]; [|discriminate].
    injection Hout as ->. eauto.
  - intros [= <-]. apply Hengine. reflexivity.
  - discriminate.
Qed.

(** ** Depth *)

Lemma depth_loop_at_depth fuel acc n (t : list MCTSNode) d :
  depth_loop fuel acc n t = Ret d → ∃ d0, at_depth t n d0 ∧ d = acc + d0.
Proof.
  revert acc n. induction fuel as [|fuel IH]; intros acc n;
    unfold depth_loop; fold depth_loop;
    destruct (parent (t !!! n)) as [p|] eqn:Hp; try discriminate.
  - intros [= <-]. exists 0. split; [apply at_depth_top, Hp|lia].
  - intros H. apply IH in H as (d0 & Hd & ->). exists (S d0).
    split; [eapply at_depth_below; eassumption|lia].
  - intros [= <-]. exists 0. split; [apply at_depth_top, Hp|lia].
Qed.

Lemma tree_wf_parent (t : list MCTSNode) n p :
  tree_wf t → n < length t → parent (t !!! n) = Some p → p < n.
Proof.
  intros [_ Hall] Hn Hp. apply list_lookup_lookup_total_lt in Hn.
  destruct (Hall _ _ Hn) as (Hpar & _). apply (Hpar p Hp).
Qed.

Lemma at_depth_ext (t t' : list MCTSNode) n d :
  tree_wf t → (∀ i, i < length t → parent (t' !!! i) = parent (t !!! i)) →
  n < length t → at_depth t n d ↔ at_depth t' n d.
Proof.
  intros Hwf Hext Hn. split.
  - intros Hd. induction Hd as [n Hp|n p d Hp _ IH].
    + apply at_depth_top. rewrite Hext; assumption.
    + apply (at_depth_below _ _ p); [rewrite Hext; assumption|].
      apply IH. pose proof (tree_wf_parent t n p Hwf Hn Hp). lia.
  - intros Hd. induction Hd as [n Hp|n p d Hp _ IH].
    + apply at_depth_top. rewrite <- Hext; assumption.
    + rewrite Hext in Hp by assumption.
      apply (at_depth_below _ _ p); [assumption|].
      apply IH. pose proof (tree_wf_parent t n p Hwf Hn Hp). lia.
Qed.

Lemma select_siblings fuel cfg node w n w' :
  tree_wf (nodes w) → node < length (nodes w) →
  _select fuel cfg node w = (Ret n, w') →
  0 < visits (nodes w !!! n) →
  n = node ∨ siblings_visited (nodes w) n.
Proof.
  intros Hwf. revert node. induction fuel as [|fuel IH]; intros node Hn;
    rewrite select_unfold; destruct (children (nodes w !!! node)) as [|c cs] eqn:Hcs;
    cbv beta iota zeta; try discriminate; try (intros [= <- _]; auto).
  destruct (forallb _ _) eqn:Hall; cbn [negb].
  - destruct (select_best_child _ _ _) as [best|] eqn:Hbest; [|discriminate].
    apply select_best_child_in in Hbest.
    destruct (tree_wf_child_parent _ _ _ Hwf Hn Hbest) as [Hb Hpb].
    intros Hrec Hv. destruct (IH best ltac:(lia) Hrec Hv) as [->|?]; [|auto].
    right. intros p x Hp Hx. rewrite Hpb in Hp. injection Hp as <-.
    rewrite Hcs in Hx. rewrite forallb_forall in Hall.
    apply list_elem_of_In, Hall, Nat.ltb_lt in Hx. exact Hx.
  - intros Hrc Hv.
    apply random_choice_inv in Hrc as (_ & _ & _ & _ & [(x & [= <-] & Hx)|?]);
      [|discriminate].
    apply list_elem_of_filter in Hx as [Hx _]. lia.
Qed.

(** One pass through the loop body, with the selected node and its
    depth in view. *)
Lemma iteration_selected cfg mc w out w' :
  tree_wf (nodes w) → iteration cfg 0 mc w = (out, w') →
  (out = Raise IndexError ∧ nodes w' = nodes w) ∨
  ∃ node d,
    node < length (nodes w) ∧
    (children (nodes w !!! node) = [] ∨ visits (nodes w !!! node) = 0) ∧
    (0 < visits (nodes w !!! node) → siblings_visited (nodes w) node) ∧
    at_depth (nodes w) node d ∧
    ((max_depth cfg ≤ d ∧ out = Ret None ∧ nodes w' = nodes w) ∨
     (d < max_depth cfg ∧
      (((∃ e, out = Raise e) ∧
        (nodes w' = nodes w ∨
         ∃ gens node', expansion_of (nodes w) node (nodes w') gens node')) ∨
       (∃ t2 gens node' sc rest mc', out = Ret (Some mc') ∧
          expansion_of (nodes w) node t2 gens node' ∧
          is_walk t2 (node' :: rest) ∧ bumped t2 (node' :: rest) sc (nodes w'))))).
Proof.
  intros Hwf. rewrite iteration_unfold.
  assert (H0 : 0 < length (nodes w)).
  { destruct Hwf as [(r & Hr & _) _]. eapply lookup_lt_Some, Hr. }
  destruct (_select _ _ _ _) as [sout w1] eqn:Hsel.
  pose proof Hsel as Hsib.
  apply select_inv in Hsel as (Ht1 & _ & _ & _ & Hsout); [|assumption..].
  destruct Hsout as [(node & -> & Hnode & Hleaf)|[->|[-> ?]]]; [| |lia].
  2:{ intros [= <- <-]. left. auto. }
  pose proof (select_siblings _ _ _ _ _ _ Hwf H0 Hsib) as Hsib'.
  assert (Hsv : 0 < visits (nodes w !!! node) → siblings_visited (nodes w) node).
  { intros Hv. destruct (Hsib' Hv) as [->|?]; [|assumption].
    intros p c Hp. destruct Hwf as [(r & Hr & Hpr) _].
    rewrite (list_lookup_total_correct _ _ _ Hr) in Hp. congruence. }
  rewrite Ht1.
  destruct (depth_loop_ok (length (nodes w)) 0 node (nodes w)) as [d Hd];
    [assumption|assumption|lia|].
  rewrite Hd. apply depth_loop_at_depth in Hd as (d0 & Hd0 & ->).
  change (0 + d0) with d0.
  intros H. right. exists node, d0.
  split; [exact Hnode|]. split; [exact Hleaf|]. split; [exact Hsv|].
  split; [exact Hd0|].
  destruct (Nat.leb_spec (max_depth cfg) d0) as [Hg|Hg].
  { injection H as <- <-. left. auto. }
  right. split; [lia|].
  apply bind_inv in H as [([node' mc1] & w2 & He & H)|[(e & He & ->)|[He ->]]].
  - apply expansion_phase_expansion_of in He as (gens & Hexp & _ & _);
      [|rewrite Ht1; assumption..].
    rewrite Ht1 in Hexp.
    destruct (expansion_of_wf _ _ _ _ _ Hwf Hnode Hexp) as [Hwf2 Hnode'].
    apply (simulate_backpropagate_inv _ _ _ _ _ _ Hwf2 Hnode' eq_refl) in H.
    destruct H as [(msg & -> & _ & _ & Ht3 & _)|
                   (sc & evs & rest & mc' & -> & _ & Hwalk & _ & Hb & _)].
    + left. split; [eauto|]. right. exists gens, node'. rewrite Ht3. exact Hexp.
    + right. exists (nodes w2), gens, node', sc, rest, mc'. auto.
  - left. split; [eauto|].
    apply expansion_phase_inv in He; [|rewrite Ht1; exact Hnode].
    rewrite ?Ht1 in He.
    destruct He as [(_ & ? & _)|(Hv & _ & [(msg & oks & _ & Ht2 & _)|
                   (s1 & s2 & Ht2 & _ & _)])]; [discriminate| |].
    + left. exact Ht2.
    + right. exists [EvGenerate (inr s1); EvGenerate (inr s2)], (length (nodes w)).
      rewrite Ht2. right. split; [exact Hv|].
      destruct Hleaf as [Hleaf|Hleaf]; [|lia]. split; [exact Hleaf|].
      exists s1, s2. auto.
  - apply expansion_phase_inv in He; [|rewrite Ht1; exact Hnode].
    destruct He as [(_ & ? & _)|(_ & _ & [(msg & oks & ? & _)|
                   (s1 & s2 & _ & _ & [(c & ? & _)|?])])]; discriminate.
Qed.

Lemma at_depth_expansion_of (t t2 : list MCTSNode) node gens node' n d :
  tree_wf t → node < length t → expansion_of t node t2 gens node' →
  n < length t2 → at_depth t2 n d →
  (n < length t ∧ at_depth t n d) ∨
  (length t ≤ n ∧ 0 < visits (t !!! node) ∧ length t2 = length t + 2 ∧
   parent (t2 !!! n) = Some node ∧ ∃ d0, d = S d0 ∧ at_depth t node d0).
Proof.
  intros Hwf Hnode [(_ & -> & _)|(Hv & _ & s1 & s2 & -> & _)] Hn Hd; [auto|].
  assert (Hext : ∀ i, i < length t →
                   parent (expand node [s1; s2] t !!! i) = parent (t !!! i)).
  { intros i Hi. apply (expand_total node [s1; s2] t i Hnode Hi). }
  destruct (decide (n < length t)) as [Hlt|Hge].
  { left. split; [exact Hlt|]. apply (at_depth_ext t _ n d Hwf Hext Hlt), Hd. }
  right. split; [lia|]. split; [exact Hv|].
  apply list_lookup_lookup_total_lt in Hnode as Hnd.
  destruct (expand_spec node [s1; s2] t _ Hnd) as (Hlen & _ & Hnew & _).
  cbn [length] in Hlen. split; [exact Hlen|]. rewrite Hlen in Hn.
  destruct (lookup_lt_is_Some_2 [s1; s2] (n - length t) ltac:(cbn; lia)) as [st Hst].
  specialize (Hnew _ _ Hst). replace (length t + (n - length t)) with n in Hnew by lia.
  apply list_lookup_total_correct in Hnew.
  split; [rewrite Hnew; reflexivity|].
  inversion Hd as [n' Hp|n' p d0 Hp Hd0]; subst; rewrite Hnew in Hp; [discriminate|].
  injection Hp as <-. exists d0. split; [reflexivity|].
  apply (at_depth_ext t _ node d0 Hwf Hext); assumption.
Qed.

Lemma at_depth_bumped (t t' : list MCTSNode) walk sc n d :
  tree_wf t → bumped t walk sc t' → n < length t →
  at_depth t n d ↔ at_depth t' n d.
Proof.
  intros Hwf Hb Hn. apply at_depth_ext; [exact Hwf| |exact Hn].
  intros i Hi. apply (bumped_total _ _ _ _ i Hb Hi).
Qed.

Lemma iteration_depth_within cfg mc w out w' :
  tree_wf (nodes w) →
  (∀ n d, n < length (nodes w) → at_depth (nodes w) n d → d ≤ max_depth cfg) →
  iteration cfg 0 mc w = (out, w') →
  ∀ n d, n < length (nodes w') → at_depth (nodes w') n d → d ≤ max_depth cfg.
Proof.
  intros Hwf HI Hit.
  assert (Hexp : ∀ node d0 t2 gens node', node < length (nodes w) →
            at_depth (nodes w) node d0 → d0 < max_depth cfg →
            expansion_of (nodes w) node t2 gens node' →
            ∀ n d, n < length t2 → at_depth t2 n d → d ≤ max_depth cfg).
  { intros node d0 t2 gens node' Hnode Hd0 Hlt He n d Hn Hd.
    destruct (at_depth_expansion_of _ _ _ _ _ _ _ Hwf Hnode He Hn Hd)
      as [[Hn' Hd']|(_ & _ & _ & _ & d1 & -> & Hd1)]; [eapply HI; eassumption|].
    assert (d1 ≤ d0); [|lia].
    clear -Hd0 Hd1. revert d1 Hd1.
    induction Hd0 as [m Hp|m p d0 Hp _ IH]; intros d1 Hd1;
      inversion Hd1 as [m' Hp'|m' p' d1' Hp' Hd1']; subst; try congruence; try lia.
    assert (p' = p) by congruence. subst p'. specialize (IH _ Hd1'). lia. }
  apply iteration_selected in Hit as
    [[_ Ht]|(node & d0 & Hnode & _ & _ & Hd0 &
             [(_ & _ & Ht)|(Hlt & [[_ [Ht|(gens & node' & He)]]|
                (t2 & gens & node' & sc & rest & mc' & _ & He & _ & Hb)])])];
    [| | | | |exact Hwf]; rewrite ?Ht; try exact HI.
  - eapply Hexp; eassumption.
  - intros n d Hn Hd. rewrite (proj1 Hb) in Hn.
    destruct (expansion_of_wf _ _ _ _ _ Hwf Hnode He) as [Hwf2 _].
    apply (at_depth_bumped _ _ _ _ n d Hwf2 Hb Hn) in Hd.
    eapply Hexp; eassumption.
Qed.

Lemma reaches_keeps_iteration cfg (I : list MCTSNode → Prop) :
  (∀ w mc out w', tree_wf (nodes w) → I (nodes w) →
     iteration cfg 0 mc w = (out, w') → I (nodes w')) →
  ∀ w w', tree_wf (nodes w) → I (nodes w) → reaches cfg w w' → I (nodes w').
Proof.
  intros Hstep w w' Hwf HI Hr. induction Hr as [w|w mc r w1 w2 Hit _ IH|w mc out w1 Hit].
  - exact HI.
  - apply IH; [|eapply Hstep; eassumption].
    apply iteration_pass in Hit; [|assumption]. eapply pass_wf; eassumption.
  - eapply Hstep; eassumption.
Qed.

(** X11. In every state of a run every node of the tree lies at most
    [max_depth] parent links below the root: the depth loop of
    [generate_scene], run from any node, ends with a count of at most
    [max_depth], and a node at depth [max_depth] is a leaf: it is never
    expanded. *)
Theorem depth_within_max_depth cfg w0 w :
  reaches cfg (with_nodes fresh_tree w0) w →
  ∀ n, n < length (nodes w) →
    ∃ d, depth_loop (length (nodes w)) 0 n (nodes w) = Ret d ∧ d ≤ max_depth cfg ∧
         (d = max_depth cfg → children (nodes w !!! n) = []).
Proof.
  intros Hr n Hn.
  pose proof Hr as Hwf.
  apply (reaches_keeps cfg (λ _, True)) in Hwf as [Hwf _];
    [|auto|apply fresh_tree_wf|exact I].
  assert (Hdep : ∀ n d, n < length (nodes w) → at_depth (nodes w) n d →
                        d ≤ max_depth cfg).
  { apply (reaches_keeps_iteration cfg
             (λ t, ∀ n d, n < length t → at_depth t n d → d ≤ max_depth cfg))
      with (w := with_nodes fresh_tree w0);
      [intros; eapply iteration_depth_within; eassumption
      |apply fresh_tree_wf| |exact Hr].
    intros [|m] d Hm Hd; [|cbn in Hm; lia].
    inversion Hd as [m' Hp|m' p d0 Hp _]; subst; [lia|discriminate]. }
  destruct (depth_loop_ok (length (nodes w)) 0 n (nodes w) Hwf Hn ltac:(lia))
    as [d Hd].
  exists d. split; [exact Hd|].
  apply depth_loop_at_depth in Hd as (d0 & Hd0 & ->). change (0 + d0) with d0.
  split; [eapply Hdep; eassumption|].
  intros ->. destruct (children (nodes w !!! n)) as [|c cs] eqn:Hcs; [reflexivity|].
  destruct (tree_wf_child_parent _ n c Hwf Hn) as [Hc Hp];
    [rewrite Hcs; apply list_elem_of_here|].
  assert (S (max_depth cfg) ≤ max_depth cfg); [|lia].
  apply (Hdep c); [lia|]. eapply at_depth_below; eassumption.
Qed.


(** ** A budget the depth limit cannot stop *)

Lemma new_children_not_both_visited (t t' : list MCTSNode) node s1 s2 node' rest sc :
  tree_wf t → node < length t → 0 < visits (t !!! node) →
  children (t !!! node) = [] →
  node' = length t ∨ node' = S (length t) →
  is_walk (expand node [s1; s2] t) (node' :: rest) →
  bumped (expand node [s1; s2] t) (node' :: rest) sc t' →
  ∃ c, c ∈ children (t' !!! node) ∧ visits (t' !!! c) = 0.
Proof.
  intros Hwf Hnode Hv Hleaf Hnode' Hwalk Hb.
  pose proof (expand_wf node [s1; s2] t Hwf Hnode Hv) as Hwf2.
  apply list_lookup_lookup_total_lt in Hnode as Hnd.
  destruct (expand_spec node [s1; s2] t _ Hnd) as (Hlen & _ & Hnew & _).
  cbn [length] in Hlen.
  pose proof (Hnew 0 s1 eq_refl) as Hn0. rewrite Nat.add_0_r in Hn0.
  pose proof (Hnew 1 s2 eq_refl) as Hn1. rewrite Nat.add_1_r in Hn1.
  apply list_lookup_total_correct in Hn0, Hn1.
  destruct (expand_total node [s1; s2] t node Hnode Hnode) as (_ & _ & _ & _ & Hch).
  rewrite Hleaf in Hch. cbn in Hch.
  destruct (bumped_total _ _ _ _ node Hb ltac:(lia)) as (_ & Hch' & _).
  rewrite Hch in Hch'.
  assert (Hrest : Forall (λ m, m < length t) rest).
  { destruct rest as [|m rest']; [constructor|].
    destruct Hwalk as (_ & Hp & Hrest).
    assert (m = node) as ->.
    { destruct Hnode' as [-> | ->]; [rewrite Hn0 in Hp|rewrite Hn1 in Hp];
        cbn in Hp; congruence. }
    constructor; [exact Hnode|].
    eapply Forall_impl; [apply (is_walk_sorted _ _ _ Hwf2 Hrest)|]. cbn. lia. }
  rewrite Forall_forall in Hrest.
  assert (Hother : ∀ c, (c = length t ∨ c = S (length t)) → c ≠ node' →
                        visits (t' !!! c) = 0).
  { intros c Hc Hne.
    destruct (bumped_total _ _ _ _ c Hb ltac:(lia)) as (_ & _ & _ & Hvis).
    rewrite Hvis, bool_decide_eq_false_2.
    - destruct Hc as [-> | ->]; [rewrite Hn0|rewrite Hn1]; reflexivity.
    - intros Hin. apply elem_of_cons in Hin as [?|Hin]; [contradiction|].
      specialize (Hrest _ Hin). lia. }
  rewrite Hch'. destruct Hnode' as [-> | ->].
  - exists (S (length t)). split; [right; left|]. apply Hother; [auto|lia].
  - exists (length t). split; [left|]. apply Hother; [auto|lia].
Qed.

Lemma iteration_paced cfg k mc w out w' :
  tree_wf (nodes w) → depth_paced k (nodes w) → k < 2 * max_depth cfg →
  iteration cfg 0 mc w = (out, w') →
  out ≠ Ret None ∧ ∀ mc', out = Ret (Some mc') → depth_paced (S k) (nodes w').
Proof.
  intros Hwf [H1 H2] Hk Hit.
  apply iteration_selected in Hit as
    [[-> _]|(node & d0 & Hnode & Hleaf & Hsv & Hd0 &
             [(Hg & _)|(_ & [[[e ->] _]|
                (t2 & gens & node' & sc & rest & mc' & -> & He & Hwalk & Hb)])])];
    [split; [discriminate|intros ? [=]] | | split; [discriminate|intros ? [=]] |
    |exact Hwf].
  { specialize (H1 _ _ Hnode Hd0). lia. }
  split; [discriminate|]. intros _ _.
  destruct (expansion_of_wf _ _ _ _ _ Hwf Hnode He) as [Hwf2 _].
  assert (Hcases : ∀ n d, n < length (nodes w') → at_depth (nodes w') n d →
            (n < length (nodes w) ∧ at_depth (nodes w) n d) ∨
            (length (nodes w) ≤ n ∧ 0 < visits (nodes w !!! node) ∧
             length t2 = length (nodes w) + 2 ∧ parent (t2 !!! n) = Some node ∧
             ∃ d1, d = S d1 ∧ at_depth (nodes w) node d1)).
  { intros n d Hn Hd. rewrite (proj1 Hb) in Hn.
    apply (at_depth_bumped _ _ _ _ n d Hwf2 Hb Hn) in Hd.
    eapply at_depth_expansion_of; eassumption. }
  split.
  - intros n d Hn Hd.
    destruct (Hcases n d Hn Hd) as [[Hn' Hd']|(_ & Hv & _ & _ & d1 & -> & Hd1)].
    + specialize (H1 _ _ Hn' Hd'). lia.
    + specialize (H2 _ _ Hnode Hd1 Hv (Hsv Hv)). lia.
  - intros n d Hn Hd Hvn Hsib.
    destruct (Hcases n d Hn Hd) as [[Hn' Hd']|(Hge & Hv & Hlen & Hp & _)].
    + specialize (H1 _ _ Hn' Hd'). lia.
    + exfalso.
      destruct He as [(Hv0 & _)|(_ & Hlf & s1 & s2 & -> & _ & Hnode')]; [lia|].
      destruct (new_children_not_both_visited _ _ _ _ _ _ _ _
                  Hwf Hnode Hv Hlf Hnode' Hwalk Hb) as (c & Hc & Hvc).
      destruct (bumped_total _ _ _ _ n Hb ltac:(rewrite <- (proj1 Hb); exact Hn))
        as (Hp' & _).
      rewrite Hp in Hp'. specialize (Hsib node c Hp' Hc). lia.
Qed.

Lemma search_loop_paced fuel cfg ic mc w :
  tree_wf (nodes w) → depth_paced ic (nodes w) →
  max_iterations cfg ≤ 2 * max_depth cfg → max_iterations cfg - ic ≤ fuel →
  (search_loop fuel cfg 0 ic mc w).1 ≠ OutOfFuel.
Proof.
  intros Hwf Hp Hcfg. revert ic mc w Hwf Hp.
  induction fuel as [|fuel IH]; intros ic mc w Hwf Hp Hfuel;
    rewrite search_loop_unfold; destruct (Nat.ltb_spec ic (max_iterations cfg));
    try discriminate; try lia.
  destruct (iteration cfg 0 mc w) as [itout w1] eqn:Hit.
  pose proof (iteration_ends cfg mc w Hwf) as Hends. rewrite Hit in Hends.
  pose proof Hit as Hpass. apply iteration_pass in Hpass; [|exact Hwf].
  pose proof (pass_wf _ _ _ Hwf Hpass) as Hwf1.
  apply (iteration_paced cfg ic) in Hit as [Hguard Hnext]; [|assumption|assumption|lia].
  destruct itout as [[mc'|]|e|]; try discriminate; try contradiction.
  apply IH; [exact Hwf1|eapply Hnext; reflexivity|lia].
Qed.

(** X12. When [max_iterations] is at most twice [max_depth], as with the
    values 5 and 3 that [MCTSGenerator.__init__] sets, no pass of a run
    is stopped by the depth limit, whatever the model and the random
    source answer: given fuel for [max_iterations] passes the loop of
    [generate_scene] is left.  (A node at depth [d] is not in the tree
    before [2 * d] passes have finished: lemma [iteration_paced].) *)
Theorem small_budget_leaves_loop fuel cfg w :
  max_iterations cfg ≤ 2 * max_depth cfg → max_iterations cfg ≤ fuel →
  (generate_scene fuel cfg w).1 ≠ OutOfFuel.
Proof.
  intros Hcfg Hfuel Hout.
  destruct (generate_scene fuel cfg w) as [out w'] eqn:Hrun. cbn [fst] in Hout.
  subst out. apply generate_scene_inv in Hrun as (lout & Hloop & Hout).
  destruct lout as [ic|e|]; try discriminate.
  eapply (search_loop_paced fuel cfg 0 0); [| |exact Hcfg|lia|rewrite Hloop; reflexivity].
  - apply fresh_tree_wf.
  - split.
    + intros [|n] d Hn Hd; [|cbn in Hn; lia].
      inversion Hd as [m Hp|m p d0 Hp _]; subst; [lia|discriminate].
    + intros [|n] d Hn _ Hv; [cbn in Hv; lia|cbn in Hn; lia].
Qed.

(** ** A budget of at most one iteration *)

Lemma first_pass cfg mc w :
  nodes w = fresh_tree → 1 ≤ max_depth cfg →
  ∃ mc' sc w', iteration cfg 0 mc w = (Ret (Some mc'), w') ∧
    length (nodes w') = 1 ∧ children (nodes w' !!! 0) = [] ∧
    trace w' = trace w ++ [EvBackprop [0] sc].
Proof.
  intros Hfresh HD.
  assert (Hwf : tree_wf (nodes w)) by (rewrite Hfresh; apply fresh_tree_wf).
  destruct (iteration cfg 0 mc w) as [out w'] eqn:Hit.
  rewrite iteration_unfold, select_unfold, Hfresh in Hit. cbn in Hit.
  rewrite Hfresh in Hit. cbn [length fresh_tree] in Hit.
  change (depth_loop 1 0 0 fresh_tree) with (@Ret nat 0) in Hit. cbv beta iota in Hit.
  destruct (Nat.leb_spec (max_depth cfg) 0) as [?|_]; [lia|].
  apply bind_inv in Hit as [([node' mc1] & w2 & He & H)|[(e & He & ->)|[He ->]]];
    (apply expansion_phase_inv in He; [|rewrite Hfresh; cbn; lia]);
    rewrite Hfresh in He; unfold fresh_tree in He; cbn in He.
  all: (destruct He as [(_ & He & Hw)|(? & _)]; [|lia]); try discriminate.
  injection He as -> ->. subst w2.
  apply (simulate_backpropagate_inv _ _ _ _ _ None Hwf) in H;
    [|rewrite Hfresh; unfold fresh_tree; cbn; lia|rewrite Hfresh; reflexivity].
  destruct H as [(msg & _ & _ & ? & _)|
                 (sc & evs & rest & mc' & -> & Hsim & _ & Hrest & Hb & Htr)];
    [discriminate|].
  assert (rest = []) as ->.
  { destruct rest as [|m rest]; [reflexivity|]. inversion Hrest as [|? ? Hm _]. cbn in Hm. lia. }
  assert (evs = []) as ->.
  { destruct Hsim as [(_ & _ & ->)|[(_ & _ & _ & _ & ->)|(_ & ? & _)]];
      [reflexivity..|discriminate]. }
  exists mc', sc, w'. split; [reflexivity|].
  rewrite Hfresh in Hb. split; [apply Hb|]. split; [|exact Htr].
  destruct (bumped_total _ _ _ _ 0 Hb ltac:(cbn; lia)) as (_ & -> & _). reflexivity.
Qed.

(** X13. With a budget of at most one iteration (and a depth limit that
    lets the one pass through) the search cannot produce a scene: the
    only pass scores the root, whose state is [None], without a model
    call, [generate_scene] returns [None], and [gen_new_scene_script]
    ends with its direct generation call, whose reply or exception is
    its outcome. *)
Theorem tiny_budget_falls_back fuel cfg w :
  max_iterations cfg ≤ 1 → max_iterations cfg ≤ max_depth cfg →
  max_iterations cfg ≤ fuel →
  (generate_scene fuel cfg w).1 = Ret None ∧
  (∃ evs, trace (generate_scene fuel cfg w).2 = trace w ++ evs ∧
          generate_calls evs = 0 ∧ evaluate_calls evs = 0) ∧
  (∃ evs r, trace (gen_new_scene_script fuel cfg w).2 = trace w ++ evs ++ [EvGenerate r] ∧
            generate_calls evs = 0 ∧ evaluate_calls evs = 0 ∧
            (gen_new_scene_script fuel cfg w).1 =
              match r with inl msg => Raise (LLMError msg) | inr st => Ret st end).
Proof.
  intros HN HD Hfuel.
  assert (Hengine : ∃ evs w', generate_scene fuel cfg w = (Ret None, w') ∧
            trace w' = trace w ++ evs ∧ generate_calls evs = 0 ∧ evaluate_calls evs = 0).
  { unfold generate_scene. rewrite bind_run. cbn [modify_nodes]. rewrite bind_run.
    change (mkWorld _ (cache w) (rng w) (llm w) (trace w)) with (with_nodes fresh_tree w).
    rewrite search_loop_unfold.
    destruct (Nat.ltb_spec 0 (max_iterations cfg)) as [Hpos|Hzero].
    - destruct fuel as [|fuel]; [lia|].
      destruct (first_pass cfg 0 (with_nodes fresh_tree w) eq_refl ltac:(lia))
        as (mc' & sc & w1 & -> & Hlen & Hch & Htr).
      rewrite search_loop_unfold.
      destruct (Nat.ltb_spec 1 (max_iterations cfg)) as [?|_]; [lia|].
      rewrite bind_run. cbn [get_nodes]. unfold select_best_child. rewrite Hch.
      exists [EvBackprop [0] sc], w1. auto.
    - rewrite bind_run. cbn [get_nodes].
      exists [], (with_nodes fresh_tree w). rewrite app_nil_r. auto. }
  destruct Hengine as (evs & w' & Hrun & Htr & Hg & He).
  split; [rewrite Hrun; reflexivity|].
  split; [exists evs; rewrite Hrun; auto|].
  unfold gen_new_scene_script. rewrite bind_run, Hrun. cbn [truthy].
  destruct (generate_scene_call w') as (r & Htr' & _ & _ & Hout).
  exists evs, r. rewrite Htr', Htr, <- app_assoc. auto.
Qed.
(** ** The counter of model calls *)

Lemma update_cache self sc w out w' :
  update self sc w = (out, w') → cache w' = cache w.
Proof.
  rewrite update_run. destruct (parent _); [|intros [= _ <-]; reflexivity].
  destruct (_ =? 0); [intros [= _ <-]; reflexivity|].
  destruct (_ =? 0); intros [= _ <-]; reflexivity.
Qed.

Lemma backpropagate_cache fuel node sc w out w' :
  backpropagate fuel node sc w = (out, w') → cache w' = cache w.
Proof.
  revert node w out w'. induction fuel as [|fuel IH]; intros [n|] w out w';
    rewrite ?backpropagate_none; try (intros [= _ <-]; reflexivity).
  rewrite backpropagate_unfold.
  destruct (update n sc w) as [[[]|e|] w1] eqn:Hu; apply update_cache in Hu;
    try (intros [= _ <-]; exact Hu).
  destruct (backpropagate fuel _ sc w1) as [[walk|e|] w2] eqn:Hb; apply IH in Hb;
    intros [= _ <-]; congruence.
Qed.

Lemma backpropagation_phase_cache node sc w out w' :
  backpropagation_phase node sc w = (out, w') → cache w' = cache w.
Proof.
  unfold backpropagation_phase. rewrite bind_run. cbn [get_nodes]. rewrite bind_run.
  destruct (backpropagate _ _ _ _) as [[walk|e|] w1] eqn:Hb;
    apply backpropagate_cache in Hb; intros [= _ <-]; exact Hb.
Qed.

(** X14. The counter [model_calls] that [generate_scene] prints after a
    pass counts the calls of the generation model and the entries the
    pass added to the cache, not the calls of the evaluator: a pass adds
    at most one entry, and any evaluator call of the pass comes with
    one, so the counter is never below the number of model calls, and
    it is above it when a falsy state is scored 0 on a cache miss. *)
Theorem model_calls_counts_cache_misses cfg w0 w mc mc' w' :
  reaches cfg (with_nodes fresh_tree w0) w →
  iteration cfg 0 mc w = (Ret (Some mc'), w') →
  ∃ new, trace w' = trace w ++ new ∧
    mc' + size (cache w) = mc + generate_calls new + size (cache w') ∧
    size (cache w) + evaluate_calls new ≤ size (cache w') ∧
    size (cache w') ≤ S (size (cache w)).
Proof.
  intros Hr.
  apply (reaches_keeps cfg (λ _, True)) in Hr as [Hwf _];
    [|auto|apply fresh_tree_wf|exact I].
  rewrite iteration_unfold.
  assert (H0 : 0 < length (nodes w)).
  { destruct Hwf as [(r & Hr & _) _]. eapply lookup_lt_Some, Hr. }
  destruct (_select _ _ _ _) as [sout w1] eqn:Hsel.
  apply select_inv in Hsel as (Ht1 & Hc1 & _ & Htr1 & Hsout); [|assumption..].
  destruct Hsout as [(node & -> & Hnode & _)|[->|[-> _]]]; try discriminate.
  destruct (depth_loop _ _ _ _) as [d|e|]; try discriminate.
  destruct (max_depth cfg <=? d); [discriminate|].
  intros H.
  apply bind_inv in H as [([node' mc1] & w2 & He & H)|[(e & _ & ?)|[_ ?]]];
    try discriminate.
  assert (Hexp : ∃ new1, trace w2 = trace w ++ new1 ∧ cache w2 = cache w ∧
                         evaluate_keys new1 = [] ∧ mc1 = mc + generate_calls new1).
  { apply expansion_phase_inv in He; [|rewrite Ht1; exact Hnode].
    destruct He as [(_ & [= -> ->] & ->)|(_ & Hc2 & [(? & ? & ? & _)|
                   (s1 & s2 & _ & Htr2 & [(c & [= -> ->] & _)|?])])]; try discriminate.
    - exists []. rewrite app_nil_r. cbn. auto with lia.
    - eexists. rewrite Htr2, Htr1, Hc2, Hc1. split; [reflexivity|]. cbn. auto with lia. }
  destruct Hexp as (new1 & Htr2 & Hc2 & Hk1 & ->).
  apply bind_inv in H as [([sc mc2] & w3 & Hs & H)|[(e & _ & ?)|[_ ?]]];
    try discriminate.
  apply (simulation_phase_inv _ _ _ _ _ _ eq_refl) in Hs as (_ & _ & Hs).
  apply bind_inv in H as [(u & w4 & Hb & H)|[(e & _ & ?)|[_ ?]]]; try discriminate.
  injection H as <- <-.
  pose proof (backpropagation_phase_cache _ _ _ _ _ Hb) as Hc4.
  apply backpropagation_phase_calls in Hb as (new3 & Htr4 & Hg3 & Hk3 & _).
  unfold evaluate_calls.
  destruct Hs as [(? & _ & [= _ ->] & ->)|[(Hmiss & _ & [= _ ->] & Hc3 & Htr3 & _)|
                 [(Hmiss & _ & ? & [= _ ->] & Hc3 & Htr3)|(_ & _ & ? & ? & _)]]];
    try discriminate; rewrite Htr4, ?Htr3, Htr2, <- ?app_assoc;
    (eexists; split; [reflexivity|]);
    rewrite ?generate_calls_app, ?evaluate_keys_app, ?length_app, Hk1, Hk3, Hg3, Hc4,
      ?Hc3, ?Hc2; rewrite ?map_size_insert_None by (rewrite <- Hc2; exact Hmiss);
    cbn; lia.
Qed.
End Engine.

(** ** The engine on stub agents *)

Module Stub.

(** Scenes are strings ([str] is the identity), the random source is a
    counter, and so is the model: it counts the calls it has served. *)
Definition scene_truthy (s : string) : bool :=
  match s with EmptyString => false | _ => true end.

Definition scene_str (s : string) : string := s.

Definition randbelow (n : nat) (g : nat) : nat * nat := (g mod n, S g).

(** Scene [A] on even calls and [B] on odd ones; [A] scores 3, anything
    else 5. *)
Definition infer_scene (l : nat) : reply (option string) * nat :=
  (inr (Some (if Nat.even l then "A" else "B")%string), S l).

Definition infer_eval (st : option string) (l : nat) : reply (option Z) * nat :=
  (inr (Some (match st with Some "A"%string => 3 | _ => 5 end)%Z), S l).

(** Always the same scene and the same score. *)
Definition fixed_scene (l : nat) : reply (option string) * nat :=
  (inr (Some "A"%string), S l).

Definition fixed_eval (st : option string) (l : nat) : reply (option Z) * nat :=
  (inr (Some 3%Z), S l).

(** The first generation call raises, the later ones succeed. *)
Definition flaky_scene (l : nat) : reply (option string) * nat :=
  (match l with 0 => inl "timeout"%string | _ => inr (Some "A"%string) end, S l).

Definition config (n d : nat) : @Config Z := mkConfig n 1%Z d.

Definition start (seed l : nat) : @World Z string nat nat :=
  mkWorld [] ∅ seed l [].

Definition engine : nat → Config → M (option string) :=
  @generate_scene Z IntFloat string scene_truthy scene_str
    nat randbelow nat infer_scene infer_eval.

Definition driver : nat → Config → M (option string) :=
  @gen_new_scene_script Z IntFloat string scene_truthy scene_str
    nat randbelow nat infer_scene infer_eval.

Definition flaky_engine : nat → Config → M (option string) :=
  @generate_scene Z IntFloat string scene_truthy scene_str
    nat randbelow nat flaky_scene infer_eval.

Definition flaky_driver : nat → Config → M (option string) :=
  @gen_new_scene_script Z IntFloat string scene_truthy scene_str
    nat randbelow nat flaky_scene infer_eval.

(** A root with three visited children, the last two tied. *)
Definition tied_children : list (@MCTSNode Z string) :=
  [ mkNode None None [1; 2; 3] 4 13%Z 0%Z;
    mkNode (Some "A"%string) (Some 0) [] 1 3%Z 3%Z;
    mkNode (Some "B"%string) (Some 0) [] 1 5%Z 5%Z;
    mkNode (Some "C"%string) (Some 0) [] 1 5%Z 5%Z ].

(** A root visited twice and a child that has not been visited. *)
Definition visited_parent : @World Z string nat nat :=
  mkWorld [ mkNode None None [1] 2 0%Z 0%Z;
            mkNode (Some "A"%string) (Some 0) [] 0 0%Z 0%Z ] ∅ 0 0 [].

(** The same tree over the real numbers. *)
Definition visited_parent_real : @World R unit unit unit :=
  mkWorld [ mkNode None None [1] 2 0%Z 0%R;
            mkNode (Some tt) (Some 0) [] 0 0%Z 0%R ] ∅ tt tt [].

(** *** Runs *)

(** Five iterations with depth limit 3: the scene of the better branch
    is returned after 6 model calls for 5 passes. *)
Example five_iterations :
  (engine 20 (config 5 3) (start 0 0)).1 = Ret (Some "B"%string) ∧
  trace (engine 20 (config 5 3) (start 0 0)).2 =
    [ EvBackprop [0] 0; EvGenerate (inr (Some "A"%string));
      EvGenerate (inr (Some "B"%string));
      EvEvaluate (Some "A"%string) (inr 3%Z); EvBackprop [1; 0] 3;
      EvEvaluate (Some "B"%string) (inr 5%Z); EvBackprop [2; 0] 5;
      EvGenerate (inr (Some "A"%string)); EvGenerate (inr (Some "B"%string));
      EvBackprop [3; 2; 0] 3; EvBackprop [4; 2; 0] 5 ] ∧
  visits <$> nodes (engine 20 (config 5 3) (start 0 0)).2 = [5; 1; 3; 1; 1].
Proof. vm_compute. auto. Qed.

(** With depth limit 1 the third pass selects the unvisited child of
    the root, at depth 1, and the loop spins on it: the counter stays
    at 2 whatever the fuel given here. *)
Example depth_one_spins :
  (engine 50 (config 3 1) (start 0 0)).1 = OutOfFuel ∧
  visits <$> nodes (engine 50 (config 3 1) (start 0 0)).2 = [2; 1; 0].
Proof. vm_compute. auto. Qed.

(** With no iteration at all the engine returns [None] and the driver
    makes its one direct call. *)
Example no_iteration_falls_back :
  (engine 5 (config 0 3) (start 0 0)).1 = Ret None ∧
  (driver 5 (config 0 3) (start 0 0)).1 = Ret (Some "A"%string) ∧
  trace (driver 5 (config 0 3) (start 0 0)).2 = [EvGenerate (inr (Some "A"%string))].
Proof. vm_compute. auto. Qed.

Example select_best_child_tie : select_best_child 0 0%Z tied_children = Some 2.
Proof. reflexivity. Qed.

Lemma int_gt_orders : @gt_orders Z IntFloat.
Proof.
  unfold gt_orders. cbn. split; [|split].
  - intros a. rewrite Z.gtb_ltb. apply Z.ltb_irrefl.
  - intros a b c H1 H2. rewrite Z.gtb_ltb in *.
    apply Z.ltb_lt in H1, H2. apply Z.ltb_lt. lia.
  - intros a b c H. rewrite !Z.gtb_ltb in *. apply Z.ltb_lt in H.
    destruct (Z.ltb_spec b a); [left; reflexivity|]. right. apply Z.ltb_lt. lia.
Qed.

Lemma fixed_deterministic : deterministic_llm fixed_scene fixed_eval.
Proof. split; intros; reflexivity. Qed.

(** The state the run of two iterations with depth limit 1 ends in, and
    the pass that would follow it. *)
Definition after_two : @World Z string nat nat :=
  (engine 20 (config 2 1) (start 0 0)).2.

Definition next_pass : Outcome (option nat) * @World Z string nat nat :=
  iteration (FO := IntFloat) scene_truthy scene_str randbelow infer_scene infer_eval
    (config 2 1) 0 0 after_two.

Lemma randbelow_bounded : randbelow_in_range randbelow.
Proof. intros n g Hn. cbn. apply Nat.mod_upper_bound. lia. Qed.

(** The first pass of a run from the empty cache. *)
Definition opening_pass : Outcome (option nat) * @World Z string nat nat :=
  iteration (FO := IntFloat) scene_truthy scene_str randbelow infer_scene infer_eval
    (config 5 3) 0 0 (with_nodes fresh_tree (start 0 0)).

(** The stub model alternates its proposals: two of its states cannot
    be told apart when they have the same parity. *)
Lemma parity_bisimulation :
  llm_bisimulation infer_scene infer_eval (λ l1 l2, Nat.even l1 = Nat.even l2).
Proof.
  split.
  - intros l1 l2 H. unfold infer_scene. cbn [fst snd]. rewrite H.
    split; [reflexivity|]. rewrite !Nat.even_succ, <- !Nat.negb_even, H. reflexivity.
  - intros st l1 l2 H. unfold infer_eval. cbn [fst snd].
    split; [reflexivity|]. rewrite !Nat.even_succ, <- !Nat.negb_even, H. reflexivity.
Qed.

(** From states of the stub model at different points of its cycle the
    runs differ. *)
Example other_phase_other_scene :
  (engine 20 (config 2 3) (start 0 0)).1 = Ret (Some "A"%string) ∧
  (engine 20 (config 2 3) (start 0 2)).1 = Ret (Some "A"%string) ∧
  (engine 20 (config 2 3) (start 0 1)).1 = Ret (Some "B"%string).
Proof. vm_compute. auto. Qed.

(** A root whose state is present and falsy (the empty scene), with the
    empty cache. *)
Definition empty_scene_root : @World Z string nat nat :=
  mkWorld [ mkNode (Some ""%string) None [] 0 0%Z 0%Z ] ∅ 0 0 [].

(** A model whose generation calls answer [None]. *)
Definition none_scene (l : nat) : reply (option string) * nat := (inr None, S l).

(** With that model the engine returns [None] from a root that has
    children. *)
Example none_from_a_child :
  (@generate_scene Z IntFloat string scene_truthy scene_str
     nat randbelow nat none_scene infer_eval 20 (config 5 3) (start 0 0)).1 = Ret None ∧
  children (nodes (@generate_scene Z IntFloat string scene_truthy scene_str
     nat randbelow nat none_scene infer_eval 20 (config 5 3) (start 0 0)).2 !!! 0)
    = [1; 2].
Proof. vm_compute. auto. Qed.

End Stub.

(** ** The claims on concrete inputs *)

(** C2: the node of [Stub.visited_parent] after [update 1 7]. *)
Lemma update_recomputes_uct_witness :
  (visits (mkNode None None [1] 2 0%Z 0%Z : @MCTSNode Z string) = 0 →
   update 1 7%Z Stub.visited_parent =
     (Raise ValueError,
      with_nodes
        (<[1 := set_stats 1 (0 + 7) (mkNode (Some "A"%string) (Some 0) [] 0 0%Z 0%Z)]>
           (nodes Stub.visited_parent)) Stub.visited_parent)) ∧
  (1 ≤ visits (mkNode None None [1] 2 0%Z 0%Z : @MCTSNode Z string) →
   update 1 7%Z Stub.visited_parent =
     (Ret (),
      with_nodes
        (<[1 := mkNode (Some "A"%string) (Some 0) [] 1 (0 + 7)
                  (uct_value (FO := IntFloat) (0 + 7) 1 2)]>
           (nodes Stub.visited_parent)) Stub.visited_parent)).
Proof.
  apply (update_recomputes_uct (FO := IntFloat) 1 7%Z Stub.visited_parent
           (mkNode (Some "A"%string) (Some 0) [] 0 0%Z 0%Z) 0
           (mkNode None None [1] 2 0%Z 0%Z)).
  - reflexivity.
  - reflexivity.
  - discriminate.
  - reflexivity.
Defined.

(** C2 as worded fails: over the reals, after [update 1 1] on the child
    of a root visited twice, [uct] is [1/1 + sqrt (2 * ln 2 / 1)], which
    is not [1/1 + 1.41 * sqrt (2 * ln 2 / 1)]. *)
Lemma update_without_exploration_weight :
  ∃ w', update 1 1%Z Stub.visited_parent_real = (Ret (), w') ∧
        uct (nodes w' !!! 1) ≠ spec_selection_value (of_lit 141 2) 1%Z 1 2.
Proof.
  eexists. split; [rewrite update_run; reflexivity|].
  cbn. unfold uct_value, spec_selection_value. cbn.
  change (Z.of_nat 1) with 1%Z. change (Z.of_nat 2) with 2%Z.
  change (10 ^ 2)%Z with 100%Z. change (0 + 1)%Z with 1%Z.
  set (x := sqrt (2 * ln 2 / 1)).
  assert (Hx : (0 < x)%R).
  { apply sqrt_lt_R0. assert (0 < ln 2)%R; [|lra].
    rewrite <- ln_1. apply ln_increasing; lra. }
  intros H. lra.
Qed.

(** C4 as worded fails: when the first generation call of the engine
    raises, the driver raises the same exception although a direct
    call would have succeeded. *)
Lemma driver_does_not_recover :
  ¬ @spec_driver_recovers Z IntFloat string Stub.scene_truthy Stub.scene_str
      nat Stub.randbelow nat Stub.flaky_scene Stub.infer_eval.
Proof.
  intros H.
  specialize (H 5 (Stub.config 5 3) (Stub.start 0 0) (LLMError "timeout")
                (Stub.flaky_engine 5 (Stub.config 5 3) (Stub.start 0 0)).2).
  assert (Hrun : Stub.flaky_engine 5 (Stub.config 5 3) (Stub.start 0 0) =
                 (Raise (LLMError "timeout"),
                  (Stub.flaky_engine 5 (Stub.config 5 3) (Stub.start 0 0)).2)).
  { vm_compute. reflexivity. }
  specialize (H Hrun). apply (f_equal fst) in H. vm_compute in H. discriminate.
Qed.

(** C6 as worded fails: on a miss with a state that is present but
    falsy, here the empty scene, the simulation step stores and returns
    0 and does not call the evaluator, which would have answered 5. *)
Lemma simulation_skips_falsy_state :
  state (nodes Stub.empty_scene_root !!! 0) = Some ""%string ∧
  cache Stub.empty_scene_root !! Stub.scene_str "" = None ∧
  (Stub.infer_eval (Some ""%string) 0).1 = inr (Some 5%Z) ∧
  simulation_phase Stub.scene_truthy Stub.scene_str Stub.infer_eval 0 0
    Stub.empty_scene_root =
    (Ret (0%Z, 1),
     mkWorld (nodes Stub.empty_scene_root) (<[""%string := 0%Z]> ∅) 0 0 []) ∧
  ¬ spec_miss_calls_evaluator (FO := IntFloat) (Rng := nat)
      Stub.scene_truthy Stub.scene_str Stub.infer_eval.
Proof.
  split; [reflexivity|]. split; [reflexivity|]. split; [reflexivity|].
  split; [reflexivity|].
  intros H. destruct (H 0 0 Stub.empty_scene_root eq_refl ltac:(discriminate)) as [r Hr].
  vm_compute in Hr. discriminate.
Qed.

(** C6: the root of a fresh tree, with the empty cache. *)
Lemma simulation_uses_cache_witness :
  ∃ mc' w',
    simulation_phase Stub.scene_truthy Stub.scene_str Stub.infer_eval 0 0
      (with_nodes fresh_tree (Stub.start 0 0)) = (Ret (0%Z, mc'), w') ∧
    trace w' = trace (with_nodes fresh_tree (Stub.start 0 0)) ∧
    llm w' = llm (with_nodes fresh_tree (Stub.start 0 0)).
Proof.
  apply (proj1 (proj2 (simulation_uses_cache (FO := IntFloat)
           Stub.scene_truthy Stub.scene_str Stub.randbelow
           Stub.infer_scene Stub.infer_eval))).
  - intros v Hv. vm_compute in Hv. discriminate.
  - reflexivity.
Defined.

(** C7: two states appended to the root of a fresh tree. *)
Lemma expand_once_per_node_witness :
  fresh_tree (F := Z) (Scene := string) !! 0 = Some (MCTSNode_init None None) ∧
  length (expand 0 [Some "A"%string; Some "B"%string] (fresh_tree (F := Z))) =
    length (fresh_tree (F := Z) (Scene := string)) + 2 ∧
  expand 0 [Some "A"%string; Some "B"%string] (fresh_tree (F := Z)) !! 0 =
    Some (mkNode None None [1; 2] 0 0%Z 0%Z) ∧
  expand 0 [Some "A"%string; Some "B"%string] (fresh_tree (F := Z)) !! 2 =
    Some (mkNode (Some "B"%string) (Some 0) [] 0 0%Z 0%Z) ∧
  state (expand 0 [Some "A"%string; Some "B"%string] (fresh_tree (F := Z)) !!! 2) =
    Some "B"%string ∧
  parent (expand 0 [Some "A"%string; Some "B"%string]
            (fresh_tree (F := Z) (Scene := string)) !!! 2) = Some 0 ∧
  2 ∈ children (expand 0 [Some "A"%string; Some "B"%string]
                  (fresh_tree (F := Z) (Scene := string)) !!! 0).
Proof.
  pose proof (proj1 (expand_once_per_node (FO := IntFloat)
           Stub.scene_truthy Stub.scene_str Stub.randbelow
           Stub.infer_scene Stub.infer_eval) 0
           [Some "A"%string; Some "B"%string] fresh_tree (MCTSNode_init None None)
           eq_refl) as (Hlen & Hself & Hnew & _).
  split; [reflexivity|]. split; [exact Hlen|]. split; [exact Hself|].
  exact (Hnew 1 (Some "B"%string) eq_refl).
Defined.

(** C8: the tie of [Stub.tied_children] goes to the earlier child. *)
Lemma select_best_child_first_max_witness :
  @gt_orders Z IntFloat ∧
  (select_best_child 0 0%Z Stub.tied_children = None ↔
     children (Stub.tied_children !!! 0) = []) ∧
  ∀ b, select_best_child 0 0%Z Stub.tied_children = Some b →
    ∃ i, children (Stub.tied_children !!! 0) !! i = Some b ∧
      (∀ c, c ∈ children (Stub.tied_children !!! 0) →
         fgt (uct (Stub.tied_children !!! c)) (uct (Stub.tied_children !!! b)) = false) ∧
      (∀ j c, j < i → children (Stub.tied_children !!! 0) !! j = Some c →
         fgt (uct (Stub.tied_children !!! b)) (uct (Stub.tied_children !!! c)) = true).
Proof.
  split; [exact Stub.int_gt_orders|].
  exact (select_best_child_first_max (FO := IntFloat) Stub.tied_children 0 0%Z
           Stub.int_gt_orders).
Defined.


(** C10: the state the stub run of five iterations ends in. *)
Lemma uct_always_defined_witness :
  reaches Stub.scene_truthy Stub.scene_str Stub.randbelow Stub.infer_scene
    Stub.infer_eval (Stub.config 5 3) (with_nodes fresh_tree (Stub.start 0 0))
    (Stub.engine 20 (Stub.config 5 3) (Stub.start 0 0)).2 ∧
  (∀ n nd p,
     nodes (Stub.engine 20 (Stub.config 5 3) (Stub.start 0 0)).2 !! n = Some nd →
     parent nd = Some p →
     p < n ∧ 1 ≤ visits (nodes (Stub.engine 20 (Stub.config 5 3) (Stub.start 0 0)).2 !!! p)).
Proof.
  assert (Hr : reaches Stub.scene_truthy Stub.scene_str Stub.randbelow Stub.infer_scene
                 Stub.infer_eval (Stub.config 5 3) (with_nodes fresh_tree (Stub.start 0 0))
                 (Stub.engine 20 (Stub.config 5 3) (Stub.start 0 0)).2).
  { eapply generate_scene_reaches. apply surjective_pairing. }
  split; [exact Hr|].
  exact (proj1 (uct_always_defined (FO := IntFloat) Stub.scene_truthy Stub.scene_str
                  Stub.randbelow Stub.infer_scene Stub.infer_eval
                  (Stub.config 5 3) (Stub.start 0 0) _ Hr)).
Defined.

(** ** Instances of the further properties *)

(** X1: after two iterations with depth limit 1 the next pass is stopped
    by the depth limit, and so is every later one. *)
Lemma guarded_run_never_returns_witness :
  reaches Stub.scene_truthy Stub.scene_str Stub.randbelow Stub.infer_scene
    Stub.infer_eval (Stub.config 2 1) (with_nodes fresh_tree (Stub.start 0 0))
    Stub.after_two ∧
  Stub.next_pass = (Ret None, Stub.next_pass.2) ∧
  ∃ w3, nodes w3 = nodes Stub.after_two ∧ cache w3 = cache Stub.next_pass.2 ∧
        trace w3 = trace Stub.next_pass.2 ∧
        (search_loop (FO := IntFloat) Stub.scene_truthy Stub.scene_str Stub.randbelow
           Stub.infer_scene Stub.infer_eval 7 (Stub.config 2 1) 0 1 0
           Stub.next_pass.2 = (OutOfFuel, w3) ∨
         search_loop (FO := IntFloat) Stub.scene_truthy Stub.scene_str Stub.randbelow
           Stub.infer_scene Stub.infer_eval 7 (Stub.config 2 1) 0 1 0
           Stub.next_pass.2 = (Raise IndexError, w3)).
Proof.
  assert (Hr : reaches Stub.scene_truthy Stub.scene_str Stub.randbelow Stub.infer_scene
                 Stub.infer_eval (Stub.config 2 1)
                 (with_nodes fresh_tree (Stub.start 0 0)) Stub.after_two).
  { eapply generate_scene_reaches. apply surjective_pairing. }
  assert (Hit : Stub.next_pass = (Ret None, Stub.next_pass.2)).
  { vm_compute. reflexivity. }
  split; [exact Hr|]. split; [exact Hit|].
  apply (guarded_run_never_returns (FO := IntFloat) Stub.scene_truthy Stub.scene_str
           Stub.randbelow Stub.infer_scene Stub.infer_eval (Stub.config 2 1)
           (Stub.start 0 0) Stub.after_two 0 Stub.next_pass.2 Hr Hit 7 1 0).
  cbn. lia.
Defined.

(** X2: the run of three iterations with depth limit 1 stays in the loop. *)
Lemma out_of_fuel_only_by_guard_witness :
  max_iterations (Stub.config 3 1) ≤ 5 ∧
  (Stub.engine 5 (Stub.config 3 1) (Stub.start 0 0)).1 = OutOfFuel ∧
  ∃ w1 mc1 w2,
    reaches Stub.scene_truthy Stub.scene_str Stub.randbelow Stub.infer_scene
      Stub.infer_eval (Stub.config 3 1) (with_nodes fresh_tree (Stub.start 0 0)) w1 ∧
    iteration (FO := IntFloat) Stub.scene_truthy Stub.scene_str Stub.randbelow
      Stub.infer_scene Stub.infer_eval (Stub.config 3 1) 0 mc1 w1 = (Ret None, w2).
Proof.
  assert (Hfuel : max_iterations (Stub.config 3 1) ≤ 5) by (cbn; lia).
  assert (Hout : (Stub.engine 5 (Stub.config 3 1) (Stub.start 0 0)).1 = OutOfFuel)
    by (vm_compute; reflexivity).
  split; [exact Hfuel|]. split; [exact Hout|].
  exact (out_of_fuel_only_by_guard (FO := IntFloat) Stub.scene_truthy Stub.scene_str
           Stub.randbelow Stub.infer_scene Stub.infer_eval 5 (Stub.config 3 1)
           (Stub.start 0 0) Hfuel Hout).
Defined.

(** X5: the state the stub run of five iterations ends in. *)
Lemma tree_is_binary_witness :
  reaches Stub.scene_truthy Stub.scene_str Stub.randbelow Stub.infer_scene
    Stub.infer_eval (Stub.config 5 3) (with_nodes fresh_tree (Stub.start 0 0))
    (Stub.engine 20 (Stub.config 5 3) (Stub.start 0 0)).2 ∧
  two_children (nodes (Stub.engine 20 (Stub.config 5 3) (Stub.start 0 0)).2) ∧
  ∃ k, length (nodes (Stub.engine 20 (Stub.config 5 3) (Stub.start 0 0)).2) = 1 + 2 * k.
Proof.
  assert (Hr : reaches Stub.scene_truthy Stub.scene_str Stub.randbelow Stub.infer_scene
                 Stub.infer_eval (Stub.config 5 3) (with_nodes fresh_tree (Stub.start 0 0))
                 (Stub.engine 20 (Stub.config 5 3) (Stub.start 0 0)).2).
  { eapply generate_scene_reaches. apply surjective_pairing. }
  split; [exact Hr|].
  exact (tree_is_binary (FO := IntFloat) Stub.scene_truthy Stub.scene_str
           Stub.randbelow Stub.infer_scene Stub.infer_eval
           (Stub.config 5 3) (Stub.start 0 0) _ Hr).
Defined.

(** X9: selection from the state the stub run of five iterations ends in. *)
Lemma select_returns_leaf_or_unvisited_witness :
  reaches Stub.scene_truthy Stub.scene_str Stub.randbelow Stub.infer_scene
    Stub.infer_eval (Stub.config 5 3) (with_nodes fresh_tree (Stub.start 0 0))
    (Stub.engine 20 (Stub.config 5 3) (Stub.start 0 0)).2 ∧
  randbelow_in_range Stub.randbelow ∧
  ∃ n w',
    _select (FO := IntFloat) (Scene := string) (LLM := nat) Stub.randbelow
      (length (nodes (Stub.engine 20 (Stub.config 5 3) (Stub.start 0 0)).2))
      (Stub.config 5 3) 0 (Stub.engine 20 (Stub.config 5 3) (Stub.start 0 0)).2
      = (Ret n, w') ∧
    nodes w' = nodes (Stub.engine 20 (Stub.config 5 3) (Stub.start 0 0)).2 ∧
    cache w' = cache (Stub.engine 20 (Stub.config 5 3) (Stub.start 0 0)).2 ∧
    llm w' = llm (Stub.engine 20 (Stub.config 5 3) (Stub.start 0 0)).2 ∧
    trace w' = trace (Stub.engine 20 (Stub.config 5 3) (Stub.start 0 0)).2 ∧
    n < length (nodes (Stub.engine 20 (Stub.config 5 3) (Stub.start 0 0)).2) ∧
    (children (nodes (Stub.engine 20 (Stub.config 5 3) (Stub.start 0 0)).2 !!! n) = [] ∨
     visits (nodes (Stub.engine 20 (Stub.config 5 3) (Stub.start 0 0)).2 !!! n) = 0).
Proof.
  assert (Hr : reaches Stub.scene_truthy Stub.scene_str Stub.randbelow Stub.infer_scene
                 Stub.infer_eval (Stub.config 5 3) (with_nodes fresh_tree (Stub.start 0 0))
                 (Stub.engine 20 (Stub.config 5 3) (Stub.start 0 0)).2).
  { eapply generate_scene_reaches. apply surjective_pairing. }
  split; [exact Hr|]. split; [exact Stub.randbelow_bounded|].
  exact (select_returns_leaf_or_unvisited (FO := IntFloat) Stub.scene_truthy
           Stub.scene_str Stub.randbelow Stub.infer_scene Stub.infer_eval
           (Stub.config 5 3) (Stub.start 0 0) _ Hr Stub.randbelow_bounded).
Defined.

(** X10: the stub's random source respects its bound; with the flaky
    model the engine ends with the exception of the first call. *)
Lemma only_model_calls_raise_witness :
  randbelow_in_range Stub.randbelow ∧
  (∀ e, (Stub.flaky_engine 20 (Stub.config 5 3) (Stub.start 0 0)).1 = Raise e →
        ∃ msg, e = LLMError msg) ∧
  (∀ e, (Stub.flaky_driver 20 (Stub.config 5 3) (Stub.start 0 0)).1 = Raise e →
        ∃ msg, e = LLMError msg).
Proof.
  split; [exact Stub.randbelow_bounded|].
  exact (only_model_calls_raise (FO := IntFloat) Stub.scene_truthy Stub.scene_str
           Stub.randbelow Stub.flaky_scene Stub.infer_eval 20 (Stub.config 5 3)
           (Stub.start 0 0) Stub.randbelow_bounded).
Defined.

(** X11: the last node of the state the stub run of five iterations ends
    in. *)
Lemma depth_within_max_depth_witness :
  reaches Stub.scene_truthy Stub.scene_str Stub.randbelow Stub.infer_scene
    Stub.infer_eval (Stub.config 5 3) (with_nodes fresh_tree (Stub.start 0 0))
    (Stub.engine 20 (Stub.config 5 3) (Stub.start 0 0)).2 ∧
  4 < length (nodes (Stub.engine 20 (Stub.config 5 3) (Stub.start 0 0)).2) ∧
  ∃ d, depth_loop (length (nodes (Stub.engine 20 (Stub.config 5 3) (Stub.start 0 0)).2))
         0 4 (nodes (Stub.engine 20 (Stub.config 5 3) (Stub.start 0 0)).2) = Ret d ∧
       d ≤ max_depth (Stub.config 5 3) ∧
       (d = max_depth (Stub.config 5 3) →
        children (nodes (Stub.engine 20 (Stub.config 5 3) (Stub.start 0 0)).2 !!! 4) = []).
Proof.
  assert (Hr : reaches Stub.scene_truthy Stub.scene_str Stub.randbelow Stub.infer_scene
                 Stub.infer_eval (Stub.config 5 3) (with_nodes fresh_tree (Stub.start 0 0))
                 (Stub.engine 20 (Stub.config 5 3) (Stub.start 0 0)).2).
  { eapply generate_scene_reaches. apply surjective_pairing. }
  assert (Hn : 4 < length (nodes (Stub.engine 20 (Stub.config 5 3) (Stub.start 0 0)).2)).
  { vm_compute. lia. }
  split; [exact Hr|]. split; [exact Hn|].
  exact (depth_within_max_depth (FO := IntFloat) Stub.scene_truthy Stub.scene_str
           Stub.randbelow Stub.infer_scene Stub.infer_eval
           (Stub.config 5 3) (Stub.start 0 0) _ Hr 4 Hn).
Defined.

(** X12: the values [MCTSGenerator.__init__] sets. *)
Lemma small_budget_leaves_loop_witness :
  max_iterations (default_config (FO := IntFloat)) ≤
    2 * max_depth (default_config (FO := IntFloat)) ∧
  max_iterations (default_config (FO := IntFloat)) ≤ 5 ∧
  (Stub.engine 5 default_config (Stub.start 0 0)).1 ≠ OutOfFuel.
Proof.
  assert (H1 : max_iterations (default_config (FO := IntFloat)) ≤
               2 * max_depth (default_config (FO := IntFloat))) by (cbn; lia).
  assert (H2 : max_iterations (default_config (FO := IntFloat)) ≤ 5) by (cbn; lia).
  split; [exact H1|]. split; [exact H2|].
  exact (small_budget_leaves_loop (FO := IntFloat) Stub.scene_truthy Stub.scene_str
           Stub.randbelow Stub.infer_scene Stub.infer_eval 5 default_config
           (Stub.start 0 0) H1 H2).
Defined.

(** X13: one iteration with depth limit 3. *)
Lemma tiny_budget_falls_back_witness :
  max_iterations (Stub.config 1 3) ≤ 1 ∧
  (Stub.engine 1 (Stub.config 1 3) (Stub.start 0 0)).1 = Ret None ∧
  (Stub.driver 1 (Stub.config 1 3) (Stub.start 0 0)).1 = Ret (Some "A"%string).
Proof.
  assert (H1 : max_iterations (Stub.config 1 3) ≤ 1) by (cbn; lia).
  assert (H2 : max_iterations (Stub.config 1 3) ≤ max_depth (Stub.config 1 3))
    by (cbn; lia).
  split; [exact H1|].
  destruct (tiny_budget_falls_back (FO := IntFloat) Stub.scene_truthy Stub.scene_str
              Stub.randbelow Stub.infer_scene Stub.infer_eval 1 (Stub.config 1 3)
              (Stub.start 0 0) H1 H2 H1) as (Hengine & _ & _).
  split; [exact Hengine|]. vm_compute. reflexivity.
Defined.

(** X14: the first pass of a run scores the root without a model call,
    and the counter moves to 1. *)
Lemma model_calls_counts_cache_misses_witness :
  Stub.opening_pass = (Ret (Some 1), Stub.opening_pass.2) ∧
  ∃ new, trace Stub.opening_pass.2 =
           trace (with_nodes fresh_tree (Stub.start 0 0)) ++ new ∧
    1 + size (cache (with_nodes fresh_tree (Stub.start 0 0))) =
      0 + generate_calls new + size (cache Stub.opening_pass.2) ∧
    size (cache (with_nodes fresh_tree (Stub.start 0 0))) + evaluate_calls Stub.scene_str new
      ≤ size (cache Stub.opening_pass.2) ∧
    size (cache Stub.opening_pass.2) ≤
      S (size (cache (with_nodes fresh_tree (Stub.start 0 0)))).
Proof.
  assert (Hit : Stub.opening_pass = (Ret (Some 1), Stub.opening_pass.2)).
  { vm_compute. reflexivity. }
  split; [exact Hit|].
  exact (model_calls_counts_cache_misses (FO := IntFloat) Stub.scene_truthy Stub.scene_str
           Stub.randbelow Stub.infer_scene Stub.infer_eval (Stub.config 5 3)
           (Stub.start 0 0) _ 0 1 _
           (reaches_here _ _ _ _ _ _ _) Hit).
Defined.
